(** * Audio export pipeline of strudel-ai: WAV encoder, export manager,
      audio-graph tap.

    A shallow embedding of [src/lib/wavEncoder.ts], [src/lib/ExportManager.ts]
    and the [AudioNode.prototype.connect] wrapper of [src/components/Editor.tsx],
    with the properties the specification states about them; and, beside
    these, of the cycles field of [src/components/ExportDialog.tsx] and the
    sessions of [src/hooks/useHistory.ts], with further properties of the
    code.

    Conventions of the embedding.
    - A JavaScript [number] is a rational or one of the three IEEE
      specials; the sign of zero is not modelled.  The arithmetic of [JS]
      is exact.  It is what the encoder and [ExportManager] compute
      with: for the WAV sample conversion that is bit-faithful on finite
      Float32 inputs (a 24-bit significand times a 15- or 16-bit integer
      is exact in binary64), and the properties stated of [ExportManager]
      are about the order of what a call does, or are kept by rounding.
    - [Binary64] rounds each result to the nearest binary64 value, and
      [ExportManager64] is [export] with that arithmetic: it is used where
      a property depends on a computed value or on the comparison of the
      elapsed time with the target duration.
    - [DataView]/[ArrayBuffer] are lists of bytes ([Z] in [0,256)); a write
      outside the buffer is a [RangeError], modelled by [None].
    - Platform callbacks (clock readings, recorder events, decoder results)
      are inputs of the model, recorded in an environment. *)

From Stdlib Require Import ZArith QArith Qround Qminmax Lia Lqa List String Ascii.
From stdpp Require Import base option list sorting.

Local Open Scope Z_scope.

(** ** JavaScript numbers *)

Module JS.

Inductive number : Type :=
  | Fin (q : Q)
  | PosInf
  | NegInf
  | NaN.

Definition of_Z (z : Z) : number := Fin (inject_Z z).

Definition Qzero (q : Q) : bool := Qnum q =? 0.
Definition Qneg (q : Q) : bool := Qnum q <? 0.
Definition Qltb (a b : Q) : bool :=
  Qnum a * Zpos (Qden b) <? Qnum b * Zpos (Qden a).

(** [ToBoolean]: [0] and [NaN] are falsy. *)
Definition truthy (x : number) : bool :=
  match x with
  | Fin q => negb (Qzero q)
  | PosInf | NegInf => true
  | NaN => false
  end.

(** [a || b] on numbers. *)
Definition or_else (a b : number) : number := if truthy a then a else b.

(** [a < b]; every comparison with [NaN] is [false]. *)
Definition lt (a b : number) : bool :=
  match a, b with
  | NaN, _ | _, NaN => false
  | Fin x, Fin y => Qltb x y
  | NegInf, NegInf => false
  | NegInf, _ => true
  | _, NegInf => false
  | PosInf, _ => false
  | Fin _, PosInf => true
  end.

(** [a <= b] and [a >= b]. *)
Definition le (a b : number) : bool :=
  match a, b with
  | NaN, _ | _, NaN => false
  | _, _ => negb (lt b a)
  end.

Definition ge (a b : number) : bool := le b a.

Definition neg (a : number) : number :=
  match a with
  | Fin q => Fin (- q)
  | PosInf => NegInf
  | NegInf => PosInf
  | NaN => NaN
  end.

Definition add (a b : number) : number :=
  match a, b with
  | NaN, _ | _, NaN => NaN
  | Fin x, Fin y => Fin (x + y)
  | PosInf, NegInf | NegInf, PosInf => NaN
  | PosInf, _ | _, PosInf => PosInf
  | NegInf, _ | _, NegInf => NegInf
  end.

Definition sub (a b : number) : number := add a (neg b).

(** The infinity with the sign of [q], [NaN] for [q = 0]. *)
Definition signed_inf (q : Q) : number :=
  if Qzero q then NaN else if Qneg q then NegInf else PosInf.

Definition mul (a b : number) : number :=
  match a, b with
  | NaN, _ | _, NaN => NaN
  | Fin x, Fin y => Fin (x * y)
  | PosInf, Fin q | Fin q, PosInf => signed_inf q
  | NegInf, Fin q | Fin q, NegInf => signed_inf (- q)
  | PosInf, PosInf | NegInf, NegInf => PosInf
  | PosInf, NegInf | NegInf, PosInf => NegInf
  end.

Definition div (a b : number) : number :=
  match a, b with
  | NaN, _ | _, NaN => NaN
  | Fin x, Fin y => if Qzero y then signed_inf x else Fin (x / y)
  | Fin _, (PosInf | NegInf) => Fin 0
  | PosInf, Fin q => if Qneg q then NegInf else PosInf
  | NegInf, Fin q => if Qneg q then PosInf else NegInf
  | (PosInf | NegInf), (PosInf | NegInf) => NaN
  end.

(** [Math.min], [Math.max]: [NaN] if an argument is [NaN]. *)
Definition Math_min (a b : number) : number :=
  match a, b with
  | NaN, _ | _, NaN => NaN
  | _, _ => if lt b a then b else a
  end.

Definition Math_max (a b : number) : number :=
  match a, b with
  | NaN, _ | _, NaN => NaN
  | _, _ => if lt a b then b else a
  end.

Definition Math_ceil (a : number) : number :=
  match a with
  | Fin q => of_Z (Qceiling q)
  | _ => a
  end.

Definition Math_floor (a : number) : number :=
  match a with
  | Fin q => of_Z (Qfloor q)
  | _ => a
  end.

(** Truncation toward zero of a rational. *)
Definition Qtrunc (q : Q) : Z := Z.quot (Qnum q) (Zpos (Qden q)).

(** [ToInt16]: [NaN] and the infinities become [0]; a finite number is
    truncated and wrapped into [-32768, 32767]. *)
Definition ToInt16 (a : number) : Z :=
  match a with
  | Fin q =>
      let m := Qtrunc q mod 65536 in
      if 32768 <=? m then m - 65536 else m
  | _ => 0
  end.

(** [ToUint8], [ToUint16], [ToUint32] of an integer. *)
Definition ToUint8 (z : Z) : Z := z mod 256.
Definition ToUint16 (z : Z) : Z := z mod 65536.
Definition ToUint32 (z : Z) : Z := z mod 4294967296.

(** A string is its sequence of UTF-16 code units. *)
Abbreviation jsstring := (list nat).

Fixpoint lit (s : string) : jsstring :=
  match s with
  | EmptyString => []
  | String a s' => nat_of_ascii a :: lit s'
  end.

(** [str.charCodeAt(i)], for [i] inside the string. *)
Definition charCodeAt (str : jsstring) (i : nat) : Z := Z.of_nat (nth i str 0%nat).

(** [for (let i = 0; i < n; i++) body(i)] over a state that may throw. *)
Fixpoint for_upto {St : Type} (n : nat) (body : nat → St → option St) (s : St)
  : option St :=
  match n with
  | O => Some s
  | S k => s' ← for_upto k body s; body k s'
  end.

End JS.

(** ** WAV encoder ([src/lib/wavEncoder.ts]) *)

Module WavEncoder.
Import JS.

(** An [ArrayBuffer] seen through a [DataView]: a list of bytes. *)
Abbreviation DataView := (list Z).

(** Byte [k] (least significant first) of the two's-complement
    representation of [z]. *)
Definition byte_of (k : nat) (z : Z) : Z := (z / 2 ^ (8 * Z.of_nat k)) mod 256.

(** [NumericToRawBytes] with [isLittleEndian = true]. *)
Definition NumericToRawBytes (size : nat) (z : Z) : list Z :=
  map (λ k, byte_of k z) (seq 0 size).

(** [SetViewValue]: a [RangeError] when the bytes do not fit. *)
Definition SetViewValue (view : DataView) (offset : nat) (raw : list Z)
  : option DataView :=
  if (offset + length raw <=? length view)%nat
  then Some (list_inserts offset raw view)
  else None.

Definition setUint8 (view : DataView) (offset : nat) (v : Z) : option DataView :=
  SetViewValue view offset (NumericToRawBytes 1 (ToUint8 v)).

Definition setUint16 (view : DataView) (offset : nat) (v : Z) : option DataView :=
  SetViewValue view offset (NumericToRawBytes 2 (ToUint16 v)).

Definition setUint32 (view : DataView) (offset : nat) (v : Z) : option DataView :=
  SetViewValue view offset (NumericToRawBytes 4 (ToUint32 v)).

Definition setInt16 (view : DataView) (offset : nat) (v : number) : option DataView :=
  SetViewValue view offset (NumericToRawBytes 2 (ToInt16 v)).

Definition writeString (view : DataView) (offset : nat) (str : jsstring)
  : option DataView :=
  for_upto (length str)
    (λ i view, setUint8 view (offset + i) (charCodeAt str i)) view.

(** A [Float32Array]; reading past the end gives [undefined], which a
    [Float32Array] stores as [NaN]. *)
Abbreviation Float32Array := (list number).

Definition new_Float32Array (n : nat) : Float32Array := replicate n (Fin 0).

Definition at_index (a : Float32Array) (i : nat) : number := default NaN (a !! i).

(** The conversion of one sample, lines 14-15: the argument handed to
    [setInt16]. *)
Definition scaled_sample (x : number) : number :=
  let s := Math_max (of_Z (-1)) (Math_min (of_Z 1) x) in
  if lt s (of_Z 0) then mul s (of_Z 0x8000) else mul s (of_Z 0x7FFF).

Definition floatTo16BitPCM (view : DataView) (offset : nat) (samples : Float32Array)
  : option DataView :=
  for_upto (length samples)
    (λ i view, setInt16 view (offset + i * 2) (scaled_sample (at_index samples i)))
    view.

(** The part of the Web Audio [AudioBuffer] interface the encoder reads.
    [channelData c i] is [getChannelData(c)[i]]; sample rates are integral. *)
Record AudioBuffer : Type := {
  numberOfChannels : nat;
  sampleRate : Z;
  ab_length : nat;
  channelData : nat → nat → number
}.

Definition getChannelData (b : AudioBuffer) (c : nat) : Float32Array :=
  map (channelData b c) (seq 0 (ab_length b)).

(** [target.set(source)]: a [RangeError] when [source] is longer. *)
Definition Float32Array_set (target source : Float32Array) : option Float32Array :=
  if (length source <=? length target)%nat
  then Some (list_inserts 0 source target)
  else None.

Definition interleaveChannels (b : AudioBuffer) : option Float32Array :=
  let numChannels := numberOfChannels b in
  let len := ab_length b in
  let interleaved := new_Float32Array (len * numChannels) in
  if (numChannels =? 1)%nat then
    Float32Array_set interleaved (getChannelData b 0)
  else
    let channels := map (getChannelData b) (seq 0 numChannels) in
    for_upto len (λ i,
      for_upto numChannels (λ c interleaved,
        ch ← channels !! c;
        Some (<[(i * numChannels + c)%nat := at_index ch i]> interleaved)))
      interleaved.

Definition encodeWav (b : AudioBuffer) : option DataView :=
  let numChannels := Z.of_nat (numberOfChannels b) in
  let sampleRate := sampleRate b in
  let bitDepth := 16 in
  let bytesPerSample := bitDepth / 8 in
  interleaved ← interleaveChannels b;
  let dataSize := Z.of_nat (length interleaved) * bytesPerSample in
  let view := replicate (Z.to_nat (44 + dataSize)) 0 in
  view ← writeString view 0 (lit "RIFF");
  view ← setUint32 view 4 (36 + dataSize);
  view ← writeString view 8 (lit "WAVE");
  view ← writeString view 12 (lit "fmt ");
  view ← setUint32 view 16 16;
  view ← setUint16 view 20 1;
  view ← setUint16 view 22 numChannels;
  view ← setUint32 view 24 sampleRate;
  view ← setUint32 view 28 (sampleRate * numChannels * bytesPerSample);
  view ← setUint16 view 32 (numChannels * bytesPerSample);
  view ← setUint16 view 34 bitDepth;
  view ← writeString view 36 (lit "data");
  view ← setUint32 view 40 dataSize;
  floatTo16BitPCM view 44 interleaved.

(** Reading a buffer back: the little-endian unsigned integer stored in
    [size] bytes at [offset], and the text stored there. *)
Definition getUintLE (size : nat) (view : DataView) (offset : nat) : option Z :=
  raw ← mapM (λ k, view !! (offset + k)%nat) (seq 0 size);
  Some (foldr (λ byte acc, byte + 256 * acc) 0 raw).

Definition getUint16 := getUintLE 2.
Definition getUint32 := getUintLE 4.

Definition getInt16 (view : DataView) (offset : nat) : option Z :=
  u ← getUint16 view offset;
  Some (if 32768 <=? u then u - 65536 else u).

Definition getString (size : nat) (view : DataView) (offset : nat) : option jsstring :=
  mapM (λ k, Z.to_nat <$> view !! (offset + k)%nat) (seq 0 size).

End WavEncoder.

(** What the specification says of the encoder, in its own words. *)

Module WavSpec.
Import JS WavEncoder.

(** The canonical 44-byte RIFF/WAVE header with the given field values. *)
Definition canonical_header (bytes : DataView)
    (riffSize channels rate byteRate blockAlign dataSize : Z) : Prop :=
  getString 4 bytes 0 = Some (lit "RIFF") ∧
  getUint32 bytes 4 = Some riffSize ∧
  getString 4 bytes 8 = Some (lit "WAVE") ∧
  getString 4 bytes 12 = Some (lit "fmt ") ∧
  getUint32 bytes 16 = Some 16 ∧
  getUint16 bytes 20 = Some 1 ∧
  getUint16 bytes 22 = Some channels ∧
  getUint32 bytes 24 = Some rate ∧
  getUint32 bytes 28 = Some byteRate ∧
  getUint16 bytes 32 = Some blockAlign ∧
  getUint16 bytes 34 = Some 16 ∧
  getString 4 bytes 36 = Some (lit "data") ∧
  getUint32 bytes 40 = Some dataSize.

(** The same header as a sequence of bytes, fields stored modulo their
    widths, and the sample data that follows it. *)
Definition header_layout (channels rate dataSize : Z) : list Z :=
  map Z.of_nat (lit "RIFF") ++ NumericToRawBytes 4 (ToUint32 (36 + dataSize)) ++
  map Z.of_nat (lit "WAVE") ++
  map Z.of_nat (lit "fmt ") ++ NumericToRawBytes 4 16 ++
  NumericToRawBytes 2 1 ++ NumericToRawBytes 2 (ToUint16 channels) ++
  NumericToRawBytes 4 (ToUint32 rate) ++
  NumericToRawBytes 4 (ToUint32 (rate * channels * 2)) ++
  NumericToRawBytes 2 (ToUint16 (channels * 2)) ++ NumericToRawBytes 2 16 ++
  map Z.of_nat (lit "data") ++ NumericToRawBytes 4 (ToUint32 dataSize).

Definition pcm_bytes (samples : Float32Array) : list Z :=
  concat (map (λ s, NumericToRawBytes 2 (ToInt16 (scaled_sample s))) samples).

(** The field values fit the widths of their fields. *)
Definition fits_header (channels rate dataSize : Z) : Prop :=
  0 ≤ rate < 2 ^ 32 ∧
  rate * channels * 2 < 2 ^ 32 ∧
  channels * 2 < 2 ^ 16 ∧
  36 + dataSize < 2 ^ 32.

(** Interleaving: sample [i] of channel [c] goes to index [i * N + c]. *)
Definition interleaved (b : AudioBuffer) : Float32Array :=
  concat (map (λ i, map (λ c, channelData b c i) (seq 0 (numberOfChannels b)))
              (seq 0 (ab_length b))).

(** Clamping a sample to [[-1, 1]]. *)
Inductive clamps_to : number → Q → Prop :=
  | clamp_below q : (q < -1)%Q → clamps_to (Fin q) (-1)%Q
  | clamp_inside q : (-1 <= q)%Q → (q <= 1)%Q → clamps_to (Fin q) q
  | clamp_above q : (1 < q)%Q → clamps_to (Fin q) 1%Q
  | clamp_pos_inf : clamps_to PosInf 1%Q
  | clamp_neg_inf : clamps_to NegInf (-1)%Q.

(** Asymmetric scaling of a clamped sample, truncated to an integer. *)
Definition scale16 (c : Q) : Z :=
  if Qlt_le_dec c 0 then Qtrunc (c * 32768) else Qtrunc (c * 32767).

End WavSpec.

(** ** Export manager ([src/lib/ExportManager.ts]) *)

Module ExportManager.
Import JS WavEncoder.

Inductive Phase : Type := Preparing | Recording | Encoding | Complete.

Record ExportProgress : Type := {
  phase : Phase;
  progress : number;
  currentCycle : option number;
  totalCycles : option number
}.

Record ExportSettings : Type := {
  cycles : Z;
  sessionName : jsstring
}.

(** [now] is the value returned by the one call of [scheduler.now()]. *)
Record StrudelScheduler : Type := {
  cps : number;
  now : number
}.

(** A [Blob] is its bytes; [blob.size] is their number. *)
Abbreviation Blob := (list Z).

Record AudioContext : Type := {
  (** [decodeAudioData]: [None] when the returned promise rejects. *)
  decodeAudioData : Blob → option AudioBuffer
}.

Inductive RecorderState : Type := inactive | recording | paused.

(** The fields of the class. *)
Record Manager : Type := {
  context : AudioContext;
  mediaStreamDest : option nat;
  recorder : option RecorderState;
  chunks : list Blob
}.

Definition setRecordingDestination (m : Manager) (dest : nat) : Manager :=
  {| context := context m; mediaStreamDest := Some dest;
     recorder := recorder m; chunks := chunks m |}.

(** What the platform does to the recorder between two turns of the
    event loop. *)
Inductive RecorderEvent : Type :=
  | DataAvailable (data : Blob)
  | ErrorEvent
  | BecameInactive.

(** Lines 79-84. *)
Definition ondataavailable (m : Manager) (data : Blob) : Manager :=
  if (0 <? length data)%nat
  then {| context := context m; mediaStreamDest := mediaStreamDest m;
          recorder := recorder m; chunks := chunks m ++ [data] |}
  else m.

(** Lines 86-88: the handler writes to the console. *)
Definition onerror (m : Manager) : Manager := m.

Definition deliver (m : Manager) (e : RecorderEvent) : Manager :=
  match e with
  | DataAvailable data => ondataavailable m data
  | ErrorEvent => onerror m
  | BecameInactive =>
      {| context := context m; mediaStreamDest := mediaStreamDest m;
         recorder := (λ _, inactive) <$> recorder m; chunks := chunks m |}
  end.

(** The platform during one call of [export]. *)
Record Platform : Type := {
  (** [Date.now()] on line 102. *)
  startTime : Z;
  (** [Date.now()] in the first, synchronous call of [checkProgress]. *)
  firstFrame : Z;
  (** Each later animation frame: the recorder events delivered since the
      previous one, and [Date.now()] in that frame.  When the list ends
      before the duration has elapsed, no further frame comes. *)
  frames : list (list RecorderEvent * Z);
  (** The events between [recorder.stop()] and the [stop] event. *)
  flush : list RecorderEvent;
  (** [zip.folder(name)]: the folder, or [None] for a falsy result. *)
  zip_folder : jsstring → option jsstring
}.

Inductive Error : Type :=
  | TapNotSetUp       (* 'Recording tap not set up. Call setupRecordingTap() first.' *)
  | NoAudioRecorded   (* 'No audio recorded' *)
  | ZipFolderFailed   (* 'Failed to create ZIP folder' *)
  | RangeError.       (* thrown by a write of the encoder *)

(** The archive handed to [generateAsync]: one file in one folder. *)
Record Archive : Type := {
  folder : jsstring;
  file : jsstring;
  contents : DataView
}.

Inductive Outcome : Type :=
  | Resolved (blob : Archive)
  | Rejected (e : Error)
  | Pending.

(** What a call does that its surroundings can see. *)
Inductive Action : Type :=
  | Report (p : ExportProgress)
  | SetTimeout (ms : number)
  | RecorderStart (timeslice : Z)
  | RecorderStop.

Record Result : Type := {
  manager : Manager;
  trace : list Action;
  outcome : Outcome
}.

(** The two shapes of object handed to [onProgress]. *)
Definition snapshot (ph : Phase) (percent : Z) : ExportProgress :=
  {| phase := ph; progress := of_Z percent;
     currentCycle := None; totalCycles := None |}.

Definition recording_snapshot (progress currentCycle : number) (cycles : Z)
  : ExportProgress :=
  {| phase := Recording; progress := progress;
     currentCycle := Some currentCycle; totalCycles := Some (of_Z cycles) |}.

(** Lines 63-65 and 91-93, 103: the locals of [export]. *)
Definition effective_cps (scheduler : StrudelScheduler) : number :=
  or_else (cps scheduler) (Fin (1 # 2)).

Definition cycleDuration (scheduler : StrudelScheduler) : number :=
  div (of_Z 1) (effective_cps scheduler).

Definition totalDuration (settings : ExportSettings) (scheduler : StrudelScheduler)
  : number :=
  mul (of_Z (cycles settings)) (cycleDuration scheduler).

Definition waitTime (scheduler : StrudelScheduler) : number :=
  let currentCycle := now scheduler in
  let nextCycle := Math_ceil currentCycle in
  mul (sub nextCycle currentCycle) (cycleDuration scheduler).

Definition durationMs (settings : ExportSettings) (scheduler : StrudelScheduler)
  : number :=
  mul (totalDuration settings scheduler) (of_Z 1000).

(** Lines 107-116: the snapshot reported when the clock reads [dateNow]. *)
Definition progress_at (startTime : Z) (durationMs : number) (cycles : Z)
    (dateNow : Z) : ExportProgress :=
  let elapsed := of_Z (dateNow - startTime) in
  let progress := Math_min (of_Z 100) (mul (div elapsed durationMs) (of_Z 100)) in
  let currentCycle := Math_floor (mul (div elapsed durationMs) (of_Z cycles)) in
  recording_snapshot progress currentCycle cycles.

(** Lines 106-124.  The result tells whether the promise was resolved. *)
Fixpoint checkProgress (startTime : Z) (durationMs : number) (cycles : Z)
    (m : Manager) (dateNow : Z) (later : list (list RecorderEvent * Z))
  : Manager * list Action * bool :=
  let elapsed := of_Z (dateNow - startTime) in
  let report := Report (progress_at startTime durationMs cycles dateNow) in
  if ge elapsed durationMs then (m, [report], true)
  else
    match later with
    | [] => (m, [report], false)
    | (events, dateNow') :: later' =>
        let '(m', acts, resolved) :=
          checkProgress startTime durationMs cycles
            (foldl deliver m events) dateNow' later' in
        (m', report :: acts, resolved)
    end.

(** Lines 188-197: a rejection of the decoder is caught and becomes [null]. *)
Definition blobToAudioBuffer (m : Manager) (blob : Blob) : option AudioBuffer :=
  match decodeAudioData (context m) blob with
  | Some audioBuffer => Some audioBuffer
  | None => None
  end.

(** Lines 157-186. *)
Definition stopRecording (m : Manager) (env : Platform)
  : Manager * list Action * option AudioBuffer :=
  match recorder m with
  | None | Some inactive => (m, [], None)
  | Some _ =>
      let m := foldl deliver m (flush env) in
      let m := {| context := context m; mediaStreamDest := mediaStreamDest m;
                  recorder := Some inactive; chunks := chunks m |} in
      match chunks m with
      | [] => (m, [RecorderStop], None)
      | _ => (m, [RecorderStop], blobToAudioBuffer m (concat (chunks m)))
      end
  end.

(** Line 204: the class [[^a-zA-Z0-9-_]] is complemented here. *)
Definition allowed (c : nat) : bool :=
  ((97 <=? c) && (c <=? 122) || (65 <=? c) && (c <=? 90) ||
   (48 <=? c) && (c <=? 57) || (c =? 45) || (c =? 95))%nat.

Definition replace_disallowed (name : jsstring) : jsstring :=
  map (λ c, if allowed c then c else 95%nat) name.

Definition substring (s : jsstring) (from to : nat) : jsstring :=
  take (to - from) (drop from s).

Definition sanitizeName (name : jsstring) : jsstring :=
  match substring (replace_disallowed name) 0 50 with
  | [] => lit "export"
  | s => s
  end.

(** The state of the manager when the recorder has been started. *)
Definition recording_manager (m : Manager) (dest : nat) : Manager :=
  {| context := context m; mediaStreamDest := Some dest;
     recorder := Some recording; chunks := [] |}.

(** What a call does before it starts to poll. *)
Definition prelude (settings : ExportSettings) (scheduler : StrudelScheduler)
  : list Action :=
  [Report (snapshot Preparing 0);
   SetTimeout (Math_max (of_Z 0) (mul (waitTime scheduler) (of_Z 1000)));
   Report (recording_snapshot (of_Z 0) (of_Z 0) (cycles settings));
   RecorderStart 100].

(** Lines 49-155. *)
Definition export (m : Manager) (settings : ExportSettings)
    (scheduler : StrudelScheduler) (env : Platform) : Result :=
  match mediaStreamDest m with
  | None =>
      {| manager := m; trace := [Report (snapshot Preparing 0)];
         outcome := Rejected TapNotSetUp |}
  | Some dest =>
      let t := prelude settings scheduler in
      let '(m, acts, resolved) :=
        checkProgress (startTime env) (durationMs settings scheduler)
          (cycles settings) (recording_manager m dest)
          (firstFrame env) (frames env) in
      let t := t ++ acts in
      if negb resolved then {| manager := m; trace := t; outcome := Pending |}
      else
        let '(m, acts, audioBuffer) := stopRecording m env in
        let t := t ++ acts ++ [Report (snapshot Encoding 50)] in
        match audioBuffer with
        | None => {| manager := m; trace := t; outcome := Rejected NoAudioRecorded |}
        | Some audioBuffer =>
            match encodeWav audioBuffer with
            | None => {| manager := m; trace := t; outcome := Rejected RangeError |}
            | Some wavData =>
                let t := t ++ [Report (snapshot Encoding 80)] in
                match zip_folder env (sanitizeName (sessionName settings)) with
                | None =>
                    {| manager := m; trace := t; outcome := Rejected ZipFolderFailed |}
                | Some dir =>
                    let t := t ++ [Report (snapshot Complete 100)] in
                    {| manager := m; trace := t;
                       outcome := Resolved {| folder := dir; file := lit "mix.wav";
                                              contents := wavData |} |}
                end
            end
        end
  end.

(** The ways a call that has started to poll can go on: what it still
    does, and how it ends. *)
Inductive epilogue (m : Manager) (settings : ExportSettings) (env : Platform)
  : bool → list Action → Outcome → Prop :=
  | never_resolved : epilogue m settings env false [] Pending
  | no_audio m' acts :
      stopRecording m env = (m', acts, None) →
      epilogue m settings env true
        (acts ++ [Report (snapshot Encoding 50)]) (Rejected NoAudioRecorded)
  | no_folder m' acts audioBuffer :
      stopRecording m env = (m', acts, Some audioBuffer) →
      zip_folder env (sanitizeName (sessionName settings)) = None →
      epilogue m settings env true
        (acts ++ [Report (snapshot Encoding 50); Report (snapshot Encoding 80)])
        (Rejected ZipFolderFailed)
  | bundled m' acts audioBuffer wavData dir :
      stopRecording m env = (m', acts, Some audioBuffer) →
      encodeWav audioBuffer = Some wavData →
      zip_folder env (sanitizeName (sessionName settings)) = Some dir →
      epilogue m settings env true
        (acts ++ [Report (snapshot Encoding 50); Report (snapshot Encoding 80);
                  Report (snapshot Complete 100)])
        (Resolved {| folder := dir; file := lit "mix.wav"; contents := wavData |}).

(** Lines 207-214. *)
Definition dispose (m : Manager) : Manager * list Action :=
  let acts := match recorder m with
              | Some recording | Some paused => [RecorderStop]
              | _ => []
              end in
  ({| context := context m; mediaStreamDest := None;
      recorder := None; chunks := [] |}, acts).

(** The snapshots handed to [onProgress], in order. *)
Definition reports (t : list Action) : list ExportProgress :=
  omap (λ a, match a with Report p => Some p | _ => None end) t.


Definition is_error (e : RecorderEvent) : bool :=
  match e with ErrorEvent => true | _ => false end.

Definition is_data (e : RecorderEvent) : bool :=
  match e with DataAvailable _ => true | _ => false end.

(** All the recorder events of an environment. *)
Definition recorder_events (env : Platform) : list RecorderEvent :=
  concat (map fst (frames env)) ++ flush env.

(** The environment with a class of recorder events left out. *)
Definition without (drop : RecorderEvent → bool) (env : Platform) : Platform :=
  let keep := filter (λ e, drop e = false) in
  {| startTime := startTime env; firstFrame := firstFrame env;
     frames := map (λ f, (keep (fst f), snd f)) (frames env);
     flush := keep (flush env); zip_folder := zip_folder env |}.


End ExportManager.

(** What the specification says of the export, in its own words. *)

Module ExportSpec.
Import JS ExportManager.

(** The characters [[A-Za-z0-9_-]] that sanitization keeps. *)
Definition alphabet : jsstring :=
  lit "ABCDEFGHIJKLMNOPQRSTUVWXYZabcdefghijklmnopqrstuvwxyz0123456789_-".

Definition in_class (c : nat) : bool := existsb (Nat.eqb c) alphabet.

Definition underscore : nat := nat_of_ascii "_".

End ExportSpec.

(** Notions for talking about a call of [export]. *)

Module ExportNotions.
Import JS ExportManager.

(** The order in which the phases are declared and gone through. *)
Definition phase_rank (ph : Phase) : nat :=
  match ph with
  | Preparing => 0
  | Recording => 1
  | Encoding => 2
  | Complete => 3
  end.

(** The fragments that a sequence of recorder events leaves in [chunks]:
    the data of the data events, empty blobs left out, in order. *)
Definition captured (events : list RecorderEvent) : list Blob :=
  omap (λ e, match e with
             | DataAvailable (b :: data) => Some (b :: data)
             | _ => None
             end) events.

(** The actions on the recorder. *)
Definition on_recorder (a : Action) : bool :=
  match a with
  | RecorderStart _ | RecorderStop => true
  | _ => false
  end.

End ExportNotions.

(** ** The tap on [AudioNode.prototype.connect] ([src/components/Editor.tsx]) *)

Module AudioGraphTap.

Section Wrapper.
(** Audio nodes and params, and the platform's own [connect]: it acts on
    the audio graph (and whatever else it touches), and returns a node
    or throws.  [originalConnect this destination outputIndex inputIndex]
    is the platform's function on the three values that the wrapper
    hands over, [None] for [undefined]; with the sink, an audio node, and
    no index it is the connection that the wrapper makes into the sink.
    What the platform makes of the number of arguments is the matter of
    [AudioGraphCalls] below. *)
Context {Node World Ret Exn : Type} `{EqDecision Node}.
Variable originalConnect :
  Node → Node → option nat → option nat → World → World * (Ret + Exn).

Record AudioContext : Type := { destination : Node }.

(** The module-level variables of lines 39-43. *)
Record Globals : Type := {
  recordingDestination : option Node;
  isRecordingActive : bool;
  audioContextRef : option AudioContext
}.

Inductive LogLine : Type :=
  | LogConnect (isDestination hasRecordingDest : bool)
  | LogRouting
  | LogFailed.

(** Lines 52-88: the function installed in place of [connect]. *)
Definition patched_connect (g : Globals) (this destination' : Node)
    (outputIndex inputIndex : option nat) (w : World) (console : list LogLine)
  : World * list LogLine * (Ret + Exn) :=
  match originalConnect this destination' outputIndex inputIndex w with
  | (w, inr exn) => (w, console, inr exn)
  | (w, inl result) =>
      let console :=
        match isRecordingActive g, audioContextRef g with
        | true, Some ctx =>
            console ++
            [LogConnect (bool_decide (destination' = destination ctx))
                        (bool_decide (is_Some (recordingDestination g)))]
        | _, _ => console
        end in
      match isRecordingActive g, recordingDestination g, audioContextRef g with
      | true, Some sink, Some ctx =>
          if decide (destination' = destination ctx) then
            let console := console ++ [LogRouting] in
            match originalConnect this sink None None w with
            | (w, inl _) => (w, console, inl result)
            | (w, inr _) => (w, console ++ [LogFailed], inl result)
            end
          else (w, console, inl result)
      | _, _, _ => (w, console, inl result)
      end
  end.

(** [startRecording] (lines 169-191), given the sink the context creates,
    and [stopRecording] (lines 192-197), on the module-level variables. *)
Definition startRecording (g : Globals) (sink : Node) : Globals * option Node :=
  match audioContextRef g with
  | None => (g, None)
  | Some ctx =>
      ({| recordingDestination := Some sink; isRecordingActive := true;
          audioContextRef := Some ctx |}, Some sink)
  end.

Definition stopRecording (g : Globals) : Globals :=
  {| recordingDestination := None; isRecordingActive := false;
     audioContextRef := audioContextRef g |}.

End Wrapper.

End AudioGraphTap.

(** ** Building a stereo buffer ([createAudioBuffer], [src/lib/wavEncoder.ts]) *)

Module WavBuffers.
Import JS WavEncoder.

(** [context.createBuffer(numberOfChannels, length, sampleRate)] of the Web
    Audio API: a silent buffer, or a [NotSupportedError] when there is no
    channel or no frame. *)
Definition createBuffer (channels frames : nat) (rate : Z) : option AudioBuffer :=
  if ((channels =? 0) || (frames =? 0))%nat then None
  else Some {| numberOfChannels := channels; sampleRate := rate;
               ab_length := frames; channelData := λ _ _, Fin 0 |}.

(** [buffer.copyToChannel(source, channelNumber)]: an [IndexSizeError] for
    a channel the buffer does not have; otherwise the frames that both
    [source] and the buffer have are copied. *)
Definition copyToChannel (b : AudioBuffer) (source : Float32Array)
    (channelNumber : nat) : option AudioBuffer :=
  if (channelNumber <? numberOfChannels b)%nat then
    Some {| numberOfChannels := numberOfChannels b; sampleRate := sampleRate b;
            ab_length := ab_length b;
            channelData := λ c i,
              if ((c =? channelNumber) && (i <? length source)
                  && (i <? ab_length b))%nat
              then at_index source i else channelData b c i |}
  else None.

(** Lines 77-87; [contextSampleRate] is [context.sampleRate]. *)
Definition createAudioBuffer (contextSampleRate : Z)
    (leftChannel rightChannel : Float32Array) : option AudioBuffer :=
  let len := length leftChannel in
  buffer ← createBuffer 2 len contextSampleRate;
  buffer ← copyToChannel buffer leftChannel 0;
  copyToChannel buffer rightChannel 1.

(** Left and right frames in turn: L0 R0 L1 R1 ... *)
Fixpoint alternate (left right : Float32Array) : Float32Array :=
  match left, right with
  | l :: left', r :: right' => l :: r :: alternate left' right'
  | _, _ => []
  end.

End WavBuffers.

(** ** Concrete inputs *)

Module Examples.
Import JS WavEncoder ExportManager.


(** Two frames of stereo audio at 44.1 kHz. *)
Definition stereo : AudioBuffer :=
  {| numberOfChannels := 2; sampleRate := 44100; ab_length := 2;
     channelData := λ c i,
       match c, i with
       | O, O => of_Z 1
       | O, _ => of_Z (-1)
       | _, O => Fin (1 # 2)
       | _, _ => Fin (-3 # 2)
       end |}.

(** A manager whose tap is bound, around a decoder that succeeds or one
    that rejects. *)
Definition ready : Manager :=
  {| context := {| decodeAudioData := λ _, Some stereo |};
     mediaStreamDest := Some 0%nat; recorder := None; chunks := [] |}.

Definition ready_bad_decoder : Manager :=
  {| context := {| decodeAudioData := λ _, None |};
     mediaStreamDest := Some 0%nat; recorder := None; chunks := [] |}.

Definition two_cycles : ExportSettings :=
  {| cycles := 2; sessionName := lit "My Song! #1" |}.

(** Half a cycle per second, read at cycle position 2.3; and a scheduler
    whose tempo is 0. *)
Definition scheduler : StrudelScheduler :=
  {| cps := Fin (1 # 2); now := Fin (23 # 10) |}.


(** Four animation frames over the four seconds of two cycles.  The
    recorder delivers data, then fails after one second: it raises an
    error event, hands over what it has and becomes inactive. *)
Definition failing_recorder : Platform :=
  {| startTime := 1000; firstFrame := 1000;
     frames := [([DataAvailable [26; 69]], 1500);
                ([ErrorEvent; DataAvailable [223; 163]; BecameInactive], 2000);
                ([], 3500);
                ([], 5000)];
     flush := [];
     zip_folder := λ name, Some name |}.

(** The same frames, with an error event after which the recorder goes on. *)
Definition recovering_recorder : Platform :=
  {| startTime := 1000; firstFrame := 1000;
     frames := [([DataAvailable [26; 69]], 1500);
                ([ErrorEvent], 2000);
                ([DataAvailable [223; 163]], 3500);
                ([], 5000)];
     flush := [DataAvailable [163; 66]];
     zip_folder := λ name, Some name |}.

(** A recorder that never has data. *)
Definition silent_recorder : Platform :=
  {| startTime := 1000; firstFrame := 1000;
     frames := [([], 3000); ([], 5000)];
     flush := [];
     zip_folder := λ name, Some name |}.

(** A recorder that works. *)
Definition working_recorder : Platform :=
  {| startTime := 1000; firstFrame := 1000;
     frames := [([DataAvailable [26; 69]], 3000);
                ([DataAvailable [223; 163]], 5000)];
     flush := [DataAvailable [163; 66]];
     zip_folder := λ name, Some name |}.

(** A platform [connect] that records the connection in a list of edges
    and returns its destination; node 0 is the hardware output, node 9
    the capture sink. *)
Definition recording_edges (this destination' : nat) (_ _ : option nat)
    (graph : list (nat * nat)) : list (nat * nat) * (nat + unit) :=
  (graph ++ [(this, destination')], inl destination').

Definition tap_idle : AudioGraphTap.Globals :=
  {| AudioGraphTap.recordingDestination := None;
     AudioGraphTap.isRecordingActive := false;
     AudioGraphTap.audioContextRef := Some {| AudioGraphTap.destination := 0%nat |} |}.

Definition tap_active : AudioGraphTap.Globals :=
  {| AudioGraphTap.recordingDestination := Some 9%nat;
     AudioGraphTap.isRecordingActive := true;
     AudioGraphTap.audioContextRef := Some {| AudioGraphTap.destination := 0%nat |} |}.

(** An 80-character session name. *)
Definition long_name : jsstring := replicate 80 (nat_of_ascii "a").

End Examples.

(** Further examples. *)

Module MoreExamples.
Import JS WavEncoder ExportManager.

(** A manager as an earlier export leaves it: fragments in [chunks], a
    stopped recorder. *)
Definition used : Manager :=
  {| context := context Examples.ready; mediaStreamDest := Some 0%nat;
     recorder := Some inactive; chunks := [[26; 69]; [223; 163]] |}.

(** A manager whose recorder is running. *)
Definition busy : Manager :=
  {| context := context Examples.ready; mediaStreamDest := Some 0%nat;
     recorder := Some recording; chunks := [[26; 69]] |}.

End MoreExamples.

(** ** The cycles field of the export dialog ([src/components/ExportDialog.tsx]) *)

Module ExportDialog.
Import JS.

(** Line 13: the state of the field when the dialog is first shown. *)
Definition initial_cycles : number := of_Z 4.

(** Line 59: the handler of the field, on the number that [parseInt]
    made of the text. *)
Definition onChange (parsed : number) : number :=
  Math_max (of_Z 1) (Math_min (of_Z 32) (or_else parsed (of_Z 1))).

(** The state after a sequence of changes; lines 15-17 hand it to
    [onExport]. *)
Definition cycles_after (changes : list number) : number :=
  foldl (λ _ parsed, onChange parsed) initial_cycles changes.

End ExportDialog.

(** ** Installing the tap ([src/components/Editor.tsx], lines 46-96) *)

Module AudioGraphPatch.

(** What a slot for [connect] holds: the platform's function, or the
    wrapper of lines 52-88. *)
Inductive Connect : Type := native | wrapper.

(** [AudioNode.prototype.connect] and the module variable
    [originalConnect]. *)
Record Patch : Type := {
  prototype_connect : Connect;
  originalConnect : option Connect
}.

(** When the module is loaded. *)
Definition loaded : Patch :=
  {| prototype_connect := native; originalConnect := None |}.

Definition patchAudioConnect (p : Patch) : Patch :=
  match originalConnect p with
  | Some _ => p
  | None =>
      {| prototype_connect := wrapper;
         originalConnect := Some (prototype_connect p) |}
  end.

Definition unpatchAudioConnect (p : Patch) : Patch :=
  match originalConnect p with
  | Some saved => {| prototype_connect := saved; originalConnect := None |}
  | None => p
  end.

Inductive Call : Type := CallPatch | CallUnpatch.

Definition call (p : Patch) (c : Call) : Patch :=
  match c with
  | CallPatch => patchAudioConnect p
  | CallUnpatch => unpatchAudioConnect p
  end.

End AudioGraphPatch.

(** ** Sessions and their undo history ([src/hooks/useHistory.ts]) *)

Module UseHistory.
Import JS.

Definition MAX_HISTORY : nat := 50.

Record Session : Type := {
  id : jsstring;
  name : jsstring;
  (** [None] is [undefined], which [undo] and [redo] store when they read
      outside the history. *)
  code : option jsstring;
  history : list jsstring;
  historyIndex : Z;
  createdAt : Z;
  updatedAt : Z
}.

Record SessionsState : Type := {
  sessions : list Session;
  activeSessionId : jsstring
}.

(** What the platform hands to one call of [createSession]: the random
    UUID, [Date.now()], and that time as [toLocaleTimeString] prints it. *)
Record Fresh : Type := {
  randomUUID : jsstring;
  dateNow : Z;
  timeString : jsstring
}.

(** The pattern [s("bd sd")] of a new session. *)
Definition initial_code : jsstring :=
  lit "s(" ++ [34%nat] ++ lit "bd sd" ++ [34%nat] ++ lit ")".

(** Lines 21-33.  A name left out or empty is falsy. *)
Definition createSession (name : option jsstring) (fresh : Fresh) : Session :=
  {| id := randomUUID fresh;
     name := match name with
             | Some (c :: rest) => c :: rest
             | _ => lit "Session " ++ timeString fresh
             end;
     code := Some initial_code;
     history := [initial_code];
     historyIndex := 0;
     createdAt := dateNow fresh;
     updatedAt := dateNow fresh |}.

(** Lines 35-53.  [saved] is what [JSON.parse] made of the stored item:
    [None] when there is no item, when parsing throws, or when the value
    has no [sessions]. *)
Definition loadSessions (saved : option SessionsState) (fresh : Fresh)
  : SessionsState :=
  let initial := createSession None fresh in
  match saved with
  | Some parsed =>
      if (0 <? length (sessions parsed))%nat then parsed
      else {| sessions := [initial]; activeSessionId := id initial |}
  | None => {| sessions := [initial]; activeSessionId := id initial |}
  end.

(** [array[i]] for an integer [i]: [undefined] outside the array. *)
Definition index_at {A} (l : list A) (i : Z) : option A :=
  if i <? 0 then None else l !! Z.to_nat i.

(** [array.slice(0, end)] for an integer [end]: a negative [end] counts
    from the end of the array. *)
Definition slice0 {A} (l : list A) (end' : Z) : list A :=
  let len := Z.of_nat (length l) in
  let final := if end' <? 0 then Z.max (len + end') 0 else Z.min end' len in
  take (Z.to_nat final) l.

(** Line 71. *)
Definition activeSession (s : SessionsState) : option Session :=
  match List.find (λ session, bool_decide (id session = activeSessionId s))
                  (sessions s) with
  | Some session => Some session
  | None => head (sessions s)
  end.

(** Lines 73-82. *)
Definition setCode (now : Z) (newCode : jsstring) (s : SessionsState)
  : SessionsState :=
  {| sessions :=
       map (λ session,
              if decide (id session = activeSessionId s)
              then {| id := id session; name := name session;
                      code := Some newCode;
                      history := history session;
                      historyIndex := historyIndex session;
                      createdAt := createdAt session; updatedAt := now |}
              else session)
           (sessions s);
     activeSessionId := activeSessionId s |}.

(** Lines 84-113. *)
Definition commitToHistory (now : Z) (code' : jsstring) (s : SessionsState)
  : SessionsState :=
  {| sessions :=
       map (λ session,
              if decide (id session ≠ activeSessionId s) then session
              else if decide (index_at (history session) (historyIndex session)
                              = Some code')
              then {| id := id session; name := name session;
                      code := Some code';
                      history := history session;
                      historyIndex := historyIndex session;
                      createdAt := createdAt session; updatedAt := now |}
              else
                let newHistory :=
                  slice0 (history session) (historyIndex session + 1) ++ [code'] in
                let newHistory :=
                  if (MAX_HISTORY <? length newHistory)%nat
                  then drop 1 newHistory else newHistory in
                {| id := id session; name := name session;
                   code := Some code';
                   history := newHistory;
                   historyIndex := Z.of_nat (length newHistory) - 1;
                   createdAt := createdAt session; updatedAt := now |})
           (sessions s);
     activeSessionId := activeSessionId s |}.

(** Lines 115-129. *)
Definition undo (s : SessionsState) : SessionsState :=
  {| sessions :=
       map (λ session,
              if decide (id session ≠ activeSessionId s) then session
              else if historyIndex session <=? 0 then session
              else
                let newIndex := historyIndex session - 1 in
                {| id := id session; name := name session;
                   code := index_at (history session) newIndex;
                   history := history session;
                   historyIndex := newIndex;
                   createdAt := createdAt session;
                   updatedAt := updatedAt session |})
           (sessions s);
     activeSessionId := activeSessionId s |}.

(** Lines 131-145. *)
Definition redo (s : SessionsState) : SessionsState :=
  {| sessions :=
       map (λ session,
              if decide (id session ≠ activeSessionId s) then session
              else if historyIndex session >=? Z.of_nat (length (history session)) - 1
              then session
              else
                let newIndex := historyIndex session + 1 in
                {| id := id session; name := name session;
                   code := index_at (history session) newIndex;
                   history := history session;
                   historyIndex := newIndex;
                   createdAt := createdAt session;
                   updatedAt := updatedAt session |})
           (sessions s);
     activeSessionId := activeSessionId s |}.

(** Lines 147-153. *)
Definition newSession (name : option jsstring) (fresh : Fresh)
    (s : SessionsState) : SessionsState :=
  let session := createSession name fresh in
  {| sessions := session :: sessions s; activeSessionId := id session |}.

(** Lines 155-160. *)
Definition switchSession (sessionId : jsstring) (s : SessionsState)
  : SessionsState :=
  {| sessions := sessions s; activeSessionId := sessionId |}.

(** Lines 162-178. *)
Definition deleteSession (sessionId : jsstring) (fresh : Fresh)
    (s : SessionsState) : SessionsState :=
  let remaining := filter (λ session, id session ≠ sessionId) (sessions s) in
  match remaining with
  | [] =>
      let newSess := createSession None fresh in
      {| sessions := [newSess]; activeSessionId := id newSess |}
  | first :: _ =>
      {| sessions := remaining;
         activeSessionId := if decide (activeSessionId s = sessionId)
                            then id first else activeSessionId s |}
  end.

(** Lines 180-189. *)
Definition renameSession (sessionId name' : jsstring) (s : SessionsState)
  : SessionsState :=
  {| sessions :=
       map (λ session,
              if decide (id session = sessionId)
              then {| id := id session; name := name';
                      code := code session;
                      history := history session;
                      historyIndex := historyIndex session;
                      createdAt := createdAt session;
                      updatedAt := updatedAt session |}
              else session)
           (sessions s);
     activeSessionId := activeSessionId s |}.

(** Lines 191-192, on the active session. *)
Definition canUndo (session : Session) : bool := 0 <? historyIndex session.

Definition canRedo (session : Session) : bool :=
  historyIndex session <? Z.of_nat (length (history session)) - 1.

End UseHistory.

(** Notions for talking about the sessions. *)

Module HistoryNotions.
Import JS UseHistory.

(** A session as [createSession] makes it and the hook keeps it: the
    index points into a history of at most [MAX_HISTORY] entries, and the
    code is a string. *)
Definition well_formed (session : Session) : Prop :=
  0 ≤ historyIndex session < Z.of_nat (length (history session)) ∧
  (length (history session) ≤ MAX_HISTORY)%nat ∧
  is_Some (code session).

(** The calls of the hook. *)
Inductive Call : Type :=
  | SetCode (now : Z) (newCode : jsstring)
  | CommitToHistory (now : Z) (code' : jsstring)
  | Undo
  | Redo
  | NewSession (name : option jsstring) (fresh : Fresh)
  | SwitchSession (sessionId : jsstring)
  | DeleteSession (sessionId : jsstring) (fresh : Fresh)
  | RenameSession (sessionId name' : jsstring).

Definition call (s : SessionsState) (c : Call) : SessionsState :=
  match c with
  | SetCode now newCode => setCode now newCode s
  | CommitToHistory now code' => commitToHistory now code' s
  | Undo => undo s
  | Redo => redo s
  | NewSession name fresh => newSession name fresh s
  | SwitchSession sessionId => switchSession sessionId s
  | DeleteSession sessionId fresh => deleteSession sessionId fresh s
  | RenameSession sessionId name' => renameSession sessionId name' s
  end.

(** The calls that edit the active session. *)
Definition is_edit (c : Call) : bool :=
  match c with
  | SetCode _ _ | CommitToHistory _ _ | Undo | Redo => true
  | _ => false
  end.

(** The session as it is but for its code and the time of its update. *)
Definition same_history (a b : Session) : Prop :=
  id a = id b ∧ name a = name b ∧ history a = history b ∧
  historyIndex a = historyIndex b ∧ createdAt a = createdAt b.

End HistoryNotions.

Module HistoryExamples.
Import JS UseHistory.

Definition at_noon : Fresh :=
  {| randomUUID := lit "0b5f"; dateNow := 43200000; timeString := lit "12:00 PM" |}.

Definition later : Fresh :=
  {| randomUUID := lit "77aa"; dateNow := 43260000; timeString := lit "12:01 PM" |}.

(** The state of a first visit. *)
Definition first_visit : SessionsState := loadSessions None at_noon.

(** A session with three entries, the second one current. *)
Definition edited : Session :=
  {| id := lit "0b5f"; name := lit "Session 12:00 PM";
     code := Some (lit "b");
     history := [lit "a"; lit "b"; lit "c"]; historyIndex := 1;
     createdAt := 43200000; updatedAt := 43200500 |}.

Definition editing : SessionsState :=
  {| sessions := [edited; createSession None later];
     activeSessionId := lit "0b5f" |}.

End HistoryExamples.

(** ** Binary64 arithmetic *)

(** The arithmetic of a JavaScript engine on finite numbers: the exact
    result, rounded to the nearest binary64 value, the one with an even
    significand when two are equally near.  Results below the smallest
    subnormal become zero (the sign of a zero is not kept), results
    beyond the largest finite value become an infinity. *)

Module Binary64.
Import JS.

(** [floor (log2 (n / d))] for positive [n] and [d]. *)
Definition ilog2 (n d : Z) : Z :=
  let e := Z.log2 n - Z.log2 d in
  if 0 <=? e
  then if n <? d * 2 ^ e then e - 1 else e
  else if n * 2 ^ (- e) <? d then e - 1 else e.

(** The integer nearest to [n / d], the even one of two equally near. *)
Definition nearest_even (n d : Z) : Z :=
  let q := n / d in
  match 2 * (n mod d) ?= d with
  | Lt => q
  | Gt => q + 1
  | Eq => if Z.even q then q else q + 1
  end.

(** A 53-bit significand [m] at the exponent of the unit in the last
    place, [ulp]; the exponent of a subnormal is that of the smallest
    normal number. *)
Definition round (q : Q) : number :=
  let n := Z.abs (Qnum q) in
  let d := Zpos (Qden q) in
  if n =? 0 then Fin 0
  else
    let e := Z.max (ilog2 n d) (-1022) in
    let ulp := e - 52 in
    let m := if 0 <=? ulp then nearest_even n (d * 2 ^ ulp)
             else nearest_even (n * 2 ^ (- ulp)) d in
    if (0 <=? ulp) && (2 ^ 1024 <=? m * 2 ^ ulp)
    then (if Qnum q <? 0 then NegInf else PosInf)
    else
      let s := Z.sgn (Qnum q) in
      Fin (Qred (if 0 <=? ulp then inject_Z (s * m * 2 ^ ulp)
                 else Qmake (s * m) (Z.to_pos (2 ^ (- ulp))))).

Definition rounded (x : number) : number :=
  match x with
  | Fin q => round q
  | _ => x
  end.

(** [a - b], [a * b] and [a / b] of two binary64 values. *)
Definition sub (a b : number) : number := rounded (JS.sub a b).
Definition mul (a b : number) : number := rounded (JS.mul a b).
Definition div (a b : number) : number := rounded (JS.div a b).

(** The same number: rationals are compared by value. *)
Definition same (a b : number) : Prop :=
  match a, b with
  | Fin x, Fin y => (x == y)%Q
  | PosInf, PosInf | NegInf, NegInf | NaN, NaN => True
  | _, _ => False
  end.

End Binary64.

(** ** The export manager on binary64 numbers *)

(** [export] as in [ExportManager], with the arithmetic of lines 63-65,
    91-95, 103 and 107-109 rounded as the engine rounds it.  The state,
    the recorder's handlers, [stopRecording], [sanitizeName] and the
    outcomes are those of [ExportManager]; [Date.now()] reads integers
    below 2^53. *)

Module ExportManager64.
Import JS WavEncoder ExportManager.

Definition cycleDuration (scheduler : StrudelScheduler) : number :=
  Binary64.div (of_Z 1) (effective_cps scheduler).

Definition totalDuration (settings : ExportSettings) (scheduler : StrudelScheduler)
  : number :=
  Binary64.mul (of_Z (cycles settings)) (cycleDuration scheduler).

Definition waitTime (scheduler : StrudelScheduler) : number :=
  let currentCycle := now scheduler in
  let nextCycle := Math_ceil currentCycle in
  Binary64.mul (Binary64.sub nextCycle currentCycle) (cycleDuration scheduler).

Definition durationMs (settings : ExportSettings) (scheduler : StrudelScheduler)
  : number :=
  Binary64.mul (totalDuration settings scheduler) (of_Z 1000).

(** Line 107: [Date.now() - startTime]. *)
Definition elapsed (startTime dateNow : Z) : number :=
  Binary64.sub (of_Z dateNow) (of_Z startTime).

(** Lines 107-116: the snapshot reported when the clock reads [dateNow]. *)
Definition progress_at (startTime : Z) (durationMs : number) (cycles : Z)
    (dateNow : Z) : ExportProgress :=
  let elapsed := elapsed startTime dateNow in
  let progress :=
    Math_min (of_Z 100)
             (Binary64.mul (Binary64.div elapsed durationMs) (of_Z 100)) in
  let currentCycle :=
    Math_floor (Binary64.mul (Binary64.div elapsed durationMs) (of_Z cycles)) in
  recording_snapshot progress currentCycle cycles.

(** Lines 106-124.  The result tells whether the promise was resolved. *)
Fixpoint checkProgress (startTime : Z) (durationMs : number) (cycles : Z)
    (m : Manager) (dateNow : Z) (later : list (list RecorderEvent * Z))
  : Manager * list Action * bool :=
  let report := Report (progress_at startTime durationMs cycles dateNow) in
  if ge (elapsed startTime dateNow) durationMs then (m, [report], true)
  else
    match later with
    | [] => (m, [report], false)
    | (events, dateNow') :: later' =>
        let '(m', acts, resolved) :=
          checkProgress startTime durationMs cycles
            (foldl deliver m events) dateNow' later' in
        (m', report :: acts, resolved)
    end.

(** What a call does before it starts to poll. *)
Definition prelude (settings : ExportSettings) (scheduler : StrudelScheduler)
  : list Action :=
  [Report (snapshot Preparing 0);
   SetTimeout (Math_max (of_Z 0) (Binary64.mul (waitTime scheduler) (of_Z 1000)));
   Report (recording_snapshot (of_Z 0) (of_Z 0) (cycles settings));
   RecorderStart 100].

(** Lines 49-155. *)
Definition export (m : Manager) (settings : ExportSettings)
    (scheduler : StrudelScheduler) (env : Platform) : Result :=
  match mediaStreamDest m with
  | None =>
      {| manager := m; trace := [Report (snapshot Preparing 0)];
         outcome := Rejected TapNotSetUp |}
  | Some dest =>
      let t := prelude settings scheduler in
      let '(m, acts, resolved) :=
        checkProgress (startTime env) (durationMs settings scheduler)
          (cycles settings) (recording_manager m dest)
          (firstFrame env) (frames env) in
      let t := t ++ acts in
      if negb resolved then {| manager := m; trace := t; outcome := Pending |}
      else
        let '(m, acts, audioBuffer) := stopRecording m env in
        let t := t ++ acts ++ [Report (snapshot Encoding 50)] in
        match audioBuffer with
        | None => {| manager := m; trace := t; outcome := Rejected NoAudioRecorded |}
        | Some audioBuffer =>
            match encodeWav audioBuffer with
            | None => {| manager := m; trace := t; outcome := Rejected RangeError |}
            | Some wavData =>
                let t := t ++ [Report (snapshot Encoding 80)] in
                match zip_folder env (sanitizeName (sessionName settings)) with
                | None =>
                    {| manager := m; trace := t; outcome := Rejected ZipFolderFailed |}
                | Some dir =>
                    let t := t ++ [Report (snapshot Complete 100)] in
                    {| manager := m; trace := t;
                       outcome := Resolved {| folder := dir; file := lit "mix.wav";
                                              contents := wavData |} |}
                end
            end
        end
  end.

(** Some frame reads the clock at or after the end of the target
    duration, as line 118 tests it, so that the polling loop resolves its
    promise. *)
Definition duration_elapses (settings : ExportSettings)
    (scheduler : StrudelScheduler) (env : Platform) : Prop :=
  Exists (λ t, ge (elapsed (startTime env) t) (durationMs settings scheduler) = true)
         (firstFrame env :: map snd (frames env)).

End ExportManager64.

(** What the specification says of the wait, on binary64 numbers. *)

Module ExportSpec64.
Import JS.

(** The wait before capture, in seconds, at cycle position [current] and
    tempo [cps]. *)
Definition boundary_wait (current cps : number) : number :=
  let cyclePeriod := Binary64.div (of_Z 1) cps in
  Math_max (of_Z 0)
           (Binary64.mul (Binary64.sub (Math_ceil current) current) cyclePeriod).

End ExportSpec64.

(** ** A call of [connect], by its argument list ([src/components/Editor.tsx]) *)

(** The wrapper of lines 52-88 declares three parameters and hands all
    three to the platform's [connect], whatever the caller passed; the
    connection into the sink passes one.  Here the platform's [connect]
    sees the argument list it is called with. *)

Module AudioGraphCalls.
Import AudioGraphTap.

Section Calls.
Context {Node World Ret Exn : Type} `{EqDecision Node}.

(** A value in an argument list: [undefined], an audio node or param, or
    an index. *)
Inductive Value : Type :=
  | Undefined
  | Object (node : Node)
  | Index (i : nat).

#[global] Instance Value_eq_dec : EqDecision Value.
Proof. solve_decision. Defined.

Variable nativeConnect : Node → list Value → World → World * (Ret + Exn).

(** A parameter that the caller gave no argument for is [undefined]. *)
Definition parameter (args : list Value) (i : nat) : Value :=
  nth i args Undefined.

(** Lines 52-88: [this.connect(...args)] while the wrapper is installed. *)
Definition wrapper_call (g : Globals) (this : Node) (args : list Value)
    (w : World) (console : list LogLine) : World * list LogLine * (Ret + Exn) :=
  let destination' := parameter args 0 in
  let outputIndex := parameter args 1 in
  let inputIndex := parameter args 2 in
  match nativeConnect this [destination'; outputIndex; inputIndex] w with
  | (w, inr exn) => (w, console, inr exn)
  | (w, inl result) =>
      let console :=
        match isRecordingActive g, audioContextRef g with
        | true, Some ctx =>
            console ++
            [LogConnect (bool_decide (destination' = Object (destination ctx)))
                        (bool_decide (is_Some (recordingDestination g)))]
        | _, _ => console
        end in
      match isRecordingActive g, recordingDestination g, audioContextRef g with
      | true, Some sink, Some ctx =>
          if decide (destination' = Object (destination ctx)) then
            let console := console ++ [LogRouting] in
            match nativeConnect this [Object sink] w with
            | (w, inl _) => (w, console, inl result)
            | (w, inr _) => (w, console ++ [LogFailed], inl result)
            end
          else (w, console, inl result)
      | _, _, _ => (w, console, inl result)
      end
  end.

(** [this.connect(...args)] while the platform's function is installed. *)
Definition direct_call (this : Node) (args : list Value)
    (w : World) (console : list LogLine) : World * list LogLine * (Ret + Exn) :=
  let '(w, r) := nativeConnect this args w in
  (w, console, r).

End Calls.

End AudioGraphCalls.

Module Examples64.
Import JS ExportManager.

(** Half a cycle per second, read at cycle position 2.3, as binary64
    has them. *)
Definition half_speed : StrudelScheduler :=
  {| cps := Fin (1 # 2); now := Binary64.round (23 # 10) |}.

(** Two and a half cycles per second: three cycles last 1.2 seconds. *)
Definition fast : StrudelScheduler :=
  {| cps := Fin (5 # 2); now := of_Z 0 |}.

Definition three_cycles : ExportSettings :=
  {| cycles := 3; sessionName := lit "loop" |}.

(** A recorder with data before each of two frames, 1200 ms and
    1300 ms after the start. *)
Definition two_frames : Platform :=
  {| startTime := 1000; firstFrame := 1000;
     frames := [([DataAvailable [26; 69]], 2200);
                ([DataAvailable [223; 163]], 2300)];
     flush := [];
     zip_folder := λ name, Some name |}.

(** The same recorder with no frame after the one at 1200 ms. *)
Definition one_frame : Platform :=
  {| startTime := 1000; firstFrame := 1000;
     frames := [([DataAvailable [26; 69]], 2200)];
     flush := [];
     zip_folder := λ name, Some name |}.

(** The nodes of a small audio graph: node 0 is the hardware output, the
    others are audio nodes or the params of audio nodes. *)
Inductive Endpoint : Type :=
  | AudioNode (n : nat)
  | AudioParam (n : nat).

#[global] Instance Endpoint_eq_dec : EqDecision Endpoint.
Proof. solve_decision. Defined.

Inductive ConnectResult : Type :=
  | ReturnsNode (destination : Endpoint)
  | ReturnsUndefined.

Inductive TypeError : Type := OverloadResolutionFailed.

(** A platform [connect] with the two overloads of the Web Audio
    interface, [connect(AudioNode, output, input)] and
    [connect(AudioParam, output)], chosen as Web IDL chooses: by the
    number of arguments of the call, at most three, and then by the type
    of the first.  It records the connection in a list of edges; the
    indices are not looked at. *)
Definition webaudio_connect (this : Endpoint)
    (args : list (AudioGraphCalls.Value (Node := Endpoint)))
    (graph : list (Endpoint * Endpoint))
  : list (Endpoint * Endpoint) * (ConnectResult + TypeError) :=
  match take 3 args with
  | AudioGraphCalls.Object (AudioNode n) :: _ =>
      (graph ++ [(this, AudioNode n)], inl (ReturnsNode (AudioNode n)))
  | [AudioGraphCalls.Object (AudioParam n)]
  | [AudioGraphCalls.Object (AudioParam n); _] =>
      (graph ++ [(this, AudioParam n)], inl ReturnsUndefined)
  | _ => (graph, inr OverloadResolutionFailed)
  end.

(** The tap installed and not recording, around the hardware output. *)
Definition idle : AudioGraphTap.Globals :=
  {| AudioGraphTap.recordingDestination := None;
     AudioGraphTap.isRecordingActive := false;
     AudioGraphTap.audioContextRef :=
       Some {| AudioGraphTap.destination := AudioNode 0 |} |}.

End Examples64.

(** * Properties *)

(** ** Loops of writes *)

Module WriteLoops.
Import JS WavEncoder.

Lemma SetViewValue_Some (view : DataView) (offset : nat) (raw : list Z) :
  (offset + length raw ≤ length view)%nat →
  SetViewValue view offset raw = Some (list_inserts offset raw view).
Proof.
  intros Hfit. unfold SetViewValue.
  destruct (Nat.leb_spec (offset + length raw) (length view)) as [_|Hlt]; [done | lia].
Qed.

(** A loop whose [i]-th turn stores the encoding of the [i]-th element,
    [w] cells wide, stores the concatenation of the encodings. *)
Lemma for_upto_stores {A B} (xs : list A) (w : nat) (enc : A → list B)
    (body : nat → list B → option (list B)) (offset : nat) :
  (∀ x, length (enc x) = w) →
  (∀ i x v, xs !! i = Some x → (offset + i * w + w ≤ length v)%nat →
            body i v = Some (list_inserts (offset + i * w) (enc x) v)) →
  ∀ n v, (n ≤ length xs)%nat → (offset + length xs * w ≤ length v)%nat →
    for_upto n body v = Some (list_inserts offset (concat (map enc (take n xs))) v).
Proof.
  intros Hw Hbody n v. induction n as [|n IH]; intros Hn Hfit.
  - by rewrite take_0.
  - destruct (lookup_lt_is_Some_2 xs n) as [x Hx]; [lia|].
    cbn [for_upto]. rewrite IH by lia. cbn.
    rewrite (take_S_r _ _ _ Hx), map_app, concat_app. cbn [map concat].
    rewrite app_nil_r, list_inserts_app_l.
    assert (Hlen : length (concat (map enc (take n xs))) = (n * w)%nat).
    { clear -Hw Hn. revert xs Hn. induction n as [|n IHn]; intros [|y ys] Hlen;
        cbn in *; try lia.
      rewrite length_app, Hw, IHn by lia. done. }
    rewrite Hlen, (Nat.add_comm (n * w) offset).
    apply Hbody; [done|]. rewrite length_inserts. nia.
Qed.

Lemma list_inserts_app_keep {A} (k l1 l2 : list A) (i : nat) :
  (i + length k ≤ length l1)%nat →
  list_inserts i k (l1 ++ l2) = list_inserts i k l1 ++ l2.
Proof.
  intros Hfit. apply list_eq. intros j.
  destruct (decide (j < length l1)%nat) as [Hj|Hj].
  - rewrite lookup_app_l by (by rewrite length_inserts).
    destruct (decide (j < i)%nat).
    { rewrite !list_lookup_inserts_lt by done. by rewrite lookup_app_l. }
    destruct (decide (i + length k ≤ j)%nat).
    { rewrite !list_lookup_inserts_ge by done. by rewrite lookup_app_l. }
    rewrite !list_lookup_inserts; try lia; [done|]. rewrite length_app. lia.
  - rewrite lookup_app_r by (rewrite length_inserts; lia).
    rewrite list_lookup_inserts_ge by lia.
    rewrite length_inserts. by rewrite lookup_app_r by lia.
Qed.

End WriteLoops.

(** ** Arithmetic on numbers *)

Module NumberProps.
Import JS.

Lemma Qltb_lt (a b : Q) : Qltb a b = true ↔ (a < b)%Q.
Proof. unfold Qltb, Qlt. apply Z.ltb_lt. Qed.

Lemma Qltb_ge (a b : Q) : Qltb a b = false ↔ (b <= a)%Q.
Proof. unfold Qltb, Qle. apply Z.ltb_ge. Qed.


Lemma Qtrunc_bounds (q : Q) (lo hi : Z) :
  lo ≤ 0 ≤ hi → (inject_Z lo <= q)%Q → (q <= inject_Z hi)%Q →
  lo ≤ Qtrunc q ≤ hi.
Proof.
  destruct q as [n d]. unfold Qtrunc, Qle. cbn. intros Hz Hlo Hhi.
  Z.quot_rem_to_equations. nia.
Qed.

Lemma Qtrunc_comp (a b : Q) : (a == b)%Q → Qtrunc a = Qtrunc b.
Proof.
  destruct a as [n d], b as [n' d']. unfold Qtrunc, Qeq. cbn. intros Heq.
  rewrite <- (Z.quot_mul_cancel_r n (Z.pos d) (Z.pos d')) by done.
  rewrite Heq, (Z.mul_comm (Z.pos d)). by apply Z.quot_mul_cancel_r.
Qed.

Lemma Qtrunc_inject_Z (z : Z) : Qtrunc (inject_Z z) = z.
Proof. unfold Qtrunc. cbn. apply Z.quot_1_r. Qed.

Lemma ToInt16_small (q : Q) :
  -32768 ≤ Qtrunc q ≤ 32767 → ToInt16 (Fin q) = Qtrunc q.
Proof.
  intros Hq. unfold ToInt16. cbv zeta.
  destruct (Z.leb_spec 32768 (Qtrunc q mod 65536));
    Z.div_mod_to_equations; lia.
Qed.

Lemma le_Fin (a b : Q) : le (Fin a) (Fin b) = true ↔ (a <= b)%Q.
Proof.
  unfold le, lt. rewrite Bool.negb_true_iff. apply Qltb_ge.
Qed.



End NumberProps.

(** ** The encoder *)

Module WavEncoderProps.
Import JS WavEncoder WavSpec WriteLoops NumberProps.

Lemma bind_Some {A B} (x : A) (f : A → option B) : Some x ≫= f = f x.
Proof. reflexivity. Qed.

Lemma concat_map_singleton {A B} (f : A → B) (l : list A) :
  concat (map (λ x, [f x]) l) = map f l.
Proof. induction l as [|x l IH]; cbn; [done | by rewrite IH]. Qed.

Lemma list_inserts_all {A} (k l : list A) :
  length k = length l → list_inserts 0 k l = k.
Proof.
  intros Hlen. rewrite <- (app_nil_r l), list_inserts_0_r by done.
  by rewrite app_nil_r.
Qed.

Lemma list_inserts_after {A} (i : nat) (k l1 l2 : list A) :
  length l1 = i → list_inserts i k (l1 ++ l2) = l1 ++ list_inserts 0 k l2.
Proof.
  intros <-. rewrite <- (Nat.add_0_r (length l1)) at 1.
  apply list_inserts_app_r.
Qed.

Lemma writeString_Some (view : DataView) (offset : nat) (str : jsstring) :
  (offset + length str ≤ length view)%nat →
  writeString view offset str =
  Some (list_inserts offset
          (concat (map (λ c, NumericToRawBytes 1 (ToUint8 (Z.of_nat c))) str)) view).
Proof.
  intros Hfit. unfold writeString.
  rewrite (for_upto_stores str 1 (λ c, NumericToRawBytes 1 (ToUint8 (Z.of_nat c)))
             _ offset); [by rewrite firstn_all | done | | done | lia].
  intros i c v Hc Hv. cbv beta. unfold setUint8, charCodeAt.
  rewrite (nth_lookup_Some _ _ _ _ Hc), Nat.mul_1_r.
  apply SetViewValue_Some. cbn. lia.
Qed.

Lemma floatTo16BitPCM_Some (view : DataView) (offset : nat) (samples : Float32Array) :
  (offset + length samples * 2 ≤ length view)%nat →
  floatTo16BitPCM view offset samples =
  Some (list_inserts offset (pcm_bytes samples) view).
Proof.
  intros Hfit. unfold floatTo16BitPCM, pcm_bytes.
  rewrite (for_upto_stores samples 2
             (λ s, NumericToRawBytes 2 (ToInt16 (scaled_sample s))) _ offset);
    [by rewrite firstn_all | done | | done | lia].
  intros i x v Hx Hv. cbv beta. unfold setInt16, at_index. rewrite Hx. cbn [default].
  apply SetViewValue_Some. cbn. lia.
Qed.

Lemma pcm_bytes_length (samples : Float32Array) :
  length (pcm_bytes samples) = (length samples * 2)%nat.
Proof.
  unfold pcm_bytes. induction samples as [|s l IH]; [done|].
  cbn [map concat]. rewrite length_app, IH. done.
Qed.

(** *** Interleaving *)

Lemma interleaved_length (b : AudioBuffer) :
  length (interleaved b) = (ab_length b * numberOfChannels b)%nat.
Proof.
  unfold interleaved. rewrite <- (length_seq (ab_length b) 0) at 2.
  induction (seq 0 (ab_length b)) as [|i l IH]; [done|].
  cbn [map concat]. rewrite length_app, IH, length_map, length_seq. done.
Qed.

Lemma concat_rows_lookup {A} (rows : list (list A)) (w i c : nat) (r : list A) :
  Forall (λ r, length r = w) rows → rows !! i = Some r → (c < w)%nat →
  concat rows !! (i * w + c)%nat = r !! c.
Proof.
  intros Hrows. revert i. induction Hrows as [|r0 rows Hr0 _ IH]; intros i Hi Hc.
  - done.
  - destruct i as [|i]; cbn in Hi |- *.
    + injection Hi as ->. by rewrite lookup_app_l by lia.
    + rewrite lookup_app_r by lia.
      replace (w + i * w + c - length r0)%nat with (i * w + c)%nat by lia.
      by apply IH.
Qed.

Lemma interleaved_lookup (b : AudioBuffer) (c i : nat) :
  (c < numberOfChannels b)%nat → (i < ab_length b)%nat →
  interleaved b !! (i * numberOfChannels b + c)%nat = Some (channelData b c i).
Proof.
  intros Hc Hi. unfold interleaved.
  rewrite (concat_rows_lookup _ (numberOfChannels b) i c
             (map (λ c, channelData b c i) (seq 0 (numberOfChannels b)))).
  - rewrite list_lookup_fmap, lookup_seq_lt by done. done.
  - apply Forall_forall. intros r Hr. apply list_elem_of_In, in_map_iff in Hr.
    destruct Hr as (j & <- & _). by rewrite length_map, length_seq.
  - rewrite list_lookup_fmap, lookup_seq_lt by done. done.
  - done.
Qed.

Lemma interleaveChannels_eq (b : AudioBuffer) :
  interleaveChannels b = Some (interleaved b).
Proof.
  unfold interleaveChannels, new_Float32Array.
  destruct (Nat.eqb_spec (numberOfChannels b) 1) as [Hone|Hmany].
  - unfold Float32Array_set, getChannelData, interleaved.
    rewrite length_map, length_seq, length_replicate, Hone, Nat.mul_1_r.
    rewrite Nat.leb_refl. f_equal.
    rewrite list_inserts_all by (by rewrite length_map, length_seq, length_replicate).
    symmetry. apply (concat_map_singleton (λ i, channelData b 0 i)).
  - set (nc := numberOfChannels b). set (len := ab_length b).
    rewrite (for_upto_stores (seq 0 len) nc
               (λ i, map (λ c, channelData b c i) (seq 0 nc)) _ 0).
    + rewrite firstn_all2 by (rewrite length_seq; lia). f_equal.
      apply list_inserts_all. rewrite length_replicate.
      apply (interleaved_length b).
    + intros i. by rewrite length_map, length_seq.
    + intros i x v [-> Hi]%lookup_seq Hv. cbn [Nat.add] in *.
      rewrite (for_upto_stores (seq 0 nc) 1 (λ c, [channelData b c i]) _ (i * nc)).
      * rewrite firstn_all2 by (rewrite length_seq; lia).
        by rewrite (concat_map_singleton (λ c, channelData b c i)).
      * done.
      * intros c y w [-> Hc]%lookup_seq Hw. cbn [Nat.add] in *.
        rewrite list_lookup_fmap, lookup_seq_lt by done. cbn.
        unfold at_index, getChannelData.
        rewrite list_lookup_fmap, lookup_seq_lt by done. cbn.
        by rewrite Nat.mul_1_r.
      * rewrite length_seq. lia.
      * rewrite length_seq. lia.
    + rewrite length_seq. lia.
    + rewrite length_seq, length_replicate. lia.
Qed.

(** *** The bytes of the output *)

Ltac fits_in_view :=
  rewrite ?length_inserts, ?length_app, ?length_replicate; cbn; lia.

(** One write of the header, into the first 44 bytes. *)
Ltac stored_in_header :=
  first [ rewrite writeString_Some by fits_in_view
        | rewrite SetViewValue_Some by fits_in_view ];
  rewrite bind_Some; cbv beta;
  rewrite list_inserts_app_keep by fits_in_view.

Lemma encodeWav_layout (b : AudioBuffer) :
  encodeWav b =
  Some (header_layout (Z.of_nat (numberOfChannels b)) (sampleRate b)
          (Z.of_nat (length (interleaved b)) * 2)
        ++ pcm_bytes (interleaved b)).
Proof.
  unfold encodeWav. rewrite interleaveChannels_eq, bind_Some. cbv beta zeta.
  change (16 / 8) with 2.
  set (n := length (interleaved b)).
  replace (Z.to_nat (44 + Z.of_nat n * 2)) with (44 + n * 2)%nat by lia.
  rewrite replicate_add.
  unfold setUint32, setUint16.
  do 13 stored_in_header.
  rewrite floatTo16BitPCM_Some by fits_in_view.
  rewrite list_inserts_after by (by rewrite !length_inserts).
  rewrite (list_inserts_all (pcm_bytes _))
    by (by rewrite pcm_bytes_length, length_replicate).
  reflexivity.
Qed.

(** *** Reading the header back *)

Lemma le_bytes_16 (v : Z) :
  0 ≤ v < 2 ^ 16 →
  byte_of 0 v + 256 * (byte_of 1 v + 256 * 0) = v.
Proof.
  intros Hv. unfold byte_of. change (2 ^ (8 * Z.of_nat 0)) with 1.
  change (2 ^ (8 * Z.of_nat 1)) with 256. change (2 ^ 16) with 65536 in Hv.
  Z.div_mod_to_equations. lia.
Qed.

Lemma le_bytes_32 (v : Z) :
  0 ≤ v < 2 ^ 32 →
  byte_of 0 v + 256 * (byte_of 1 v + 256 * (byte_of 2 v +
    256 * (byte_of 3 v + 256 * 0))) = v.
Proof.
  intros Hv. unfold byte_of. change (2 ^ (8 * Z.of_nat 0)) with 1.
  change (2 ^ (8 * Z.of_nat 1)) with 256.
  change (2 ^ (8 * Z.of_nat 2)) with 65536.
  change (2 ^ (8 * Z.of_nat 3)) with 16777216.
  change (2 ^ 32) with 4294967296 in Hv.
  Z.div_mod_to_equations. lia.
Qed.

Lemma ToUint16_range (z : Z) : 0 ≤ ToUint16 z < 2 ^ 16.
Proof. apply Z.mod_pos_bound. done. Qed.

Lemma ToUint32_range (z : Z) : 0 ≤ ToUint32 z < 2 ^ 32.
Proof. apply Z.mod_pos_bound. done. Qed.

Lemma header_layout_reads (channels rate dataSize : Z) (data : list Z) :
  canonical_header (header_layout channels rate dataSize ++ data)
    (ToUint32 (36 + dataSize)) (ToUint16 channels) (ToUint32 rate)
    (ToUint32 (rate * channels * 2)) (ToUint16 (channels * 2))
    (ToUint32 dataSize).
Proof.
  pose proof ToUint16_range. pose proof ToUint32_range.
  unfold canonical_header, getUint32, getUint16, getUintLE, getString,
    header_layout, NumericToRawBytes.
  cbn [map seq app lit lookup list_lookup mapM mbind option_bind mret option_ret
       fmap option_fmap option_map foldr Nat.add].
  repeat split; try reflexivity; f_equal;
    first [ apply le_bytes_32 | apply le_bytes_16 ]; auto; done.
Qed.

(** *** The conversion of one sample *)

Lemma scale16_comp (c c' : Q) : (c == c')%Q → scale16 c = scale16 c'.
Proof.
  intros Heq. unfold scale16.
  destruct (Qlt_le_dec c 0), (Qlt_le_dec c' 0); try lra;
    apply Qtrunc_comp; by rewrite Heq.
Qed.

Lemma scale16_range (c : Q) :
  (-1 <= c)%Q → (c <= 1)%Q → -32768 ≤ scale16 c ≤ 32767.
Proof.
  intros Hlo Hhi. unfold scale16. destruct (Qlt_le_dec c 0).
  - assert (-32768 ≤ Qtrunc (c * 32768) ≤ 0); [|lia].
    apply Qtrunc_bounds; [lia | unfold inject_Z; lra | unfold inject_Z; lra].
  - assert (0 ≤ Qtrunc (c * 32767) ≤ 32767); [|lia].
    apply Qtrunc_bounds; [lia | unfold inject_Z; lra | unfold inject_Z; lra].
Qed.

(** On a value already in range the code computes [scale16]. *)
Lemma scaled_in_range (c : Q) :
  (-1 <= c)%Q → (c <= 1)%Q →
  ToInt16 (if lt (Fin c) (of_Z 0) then mul (Fin c) (of_Z 0x8000)
           else mul (Fin c) (of_Z 0x7FFF)) = scale16 c.
Proof.
  intros Hlo Hhi. pose proof (scale16_range c Hlo Hhi) as Hr. revert Hr.
  unfold scale16, lt, of_Z, mul. change (inject_Z 0) with 0%Q.
  destruct (Qlt_le_dec c 0) as [Hneg|Hpos].
  - apply Qltb_lt in Hneg as ->. intros Hr. by apply ToInt16_small.
  - apply Qltb_ge in Hpos as ->. intros Hr. by apply ToInt16_small.
Qed.

Lemma clamp_computed (q : Q) :
  ∃ c c' : Q,
    Math_max (of_Z (-1)) (Math_min (of_Z 1) (Fin q)) = Fin c' ∧
    clamps_to (Fin q) c ∧ (c == c')%Q ∧ (-1 <= c')%Q ∧ (c' <= 1)%Q.
Proof.
  unfold Math_min, Math_max, of_Z, lt, inject_Z.
  destruct (Qltb q 1) eqn:Hq1.
  - apply Qltb_lt in Hq1.
    destruct (Qltb (-1) q) eqn:Hq2.
    + apply Qltb_lt in Hq2. exists q, q. cbn in *.
      repeat split; try lra. constructor; lra.
    + apply Qltb_ge in Hq2. cbn in *.
      destruct (Qlt_le_dec q (-1)).
      * exists (-1)%Q, (-1)%Q. repeat split; try lra. by constructor.
      * exists q, (-1)%Q. repeat split; try lra. constructor; lra.
  - apply Qltb_ge in Hq1. cbn in Hq1.
    change (Qltb (-1) 1) with true. cbv iota.
    destruct (Qlt_le_dec 1 q).
    + exists 1%Q, 1%Q. repeat split; try lra. by constructor.
    + exists q, 1%Q. repeat split; try lra. constructor; lra.
Qed.

Lemma scaled_sample_spec (s : number) :
  s ≠ NaN →
  ∃ c : Q, clamps_to s c ∧ (-1 <= c)%Q ∧ (c <= 1)%Q ∧
           ToInt16 (scaled_sample s) = scale16 c.
Proof.
  intros Hs. destruct s as [q| | |]; [| | |done].
  - destruct (clamp_computed q) as (c & c' & Hcode & Hc & Heq & Hlo & Hhi).
    exists c. unfold scaled_sample. cbv zeta. rewrite Hcode.
    rewrite scaled_in_range by done.
    repeat split; [done | lra | lra | by apply scale16_comp].
  - exists 1%Q. repeat split; try lra. constructor.
  - exists (-1)%Q. repeat split; try lra. constructor.
Qed.

Lemma int16_bytes (v : Z) :
  -32768 ≤ v ≤ 32767 →
  (let u := byte_of 0 v + 256 * (byte_of 1 v + 256 * 0) in
   if 32768 <=? u then u - 65536 else u) = v.
Proof.
  intros Hv. unfold byte_of. change (2 ^ (8 * Z.of_nat 0)) with 1.
  change (2 ^ (8 * Z.of_nat 1)) with 256. cbv zeta.
  destruct (Z.leb_spec 32768 (v / 1 mod 256 + 256 * (v / 256 mod 256 + 256 * 0)));
    Z.div_mod_to_equations; lia.
Qed.

(** [NaN] passes through [Math.min] and [Math.max] and is stored as 0. *)
Remark scaled_sample_NaN : ToInt16 (scaled_sample NaN) = 0.
Proof. reflexivity. Qed.

Lemma pcm_bytes_lookup (samples : Float32Array) (k j : nat) (s : number) :
  samples !! k = Some s → (j < 2)%nat →
  pcm_bytes samples !! (k * 2 + j)%nat =
  Some (byte_of j (ToInt16 (scaled_sample s))).
Proof.
  intros Hk Hj. unfold pcm_bytes.
  rewrite (concat_rows_lookup _ 2 k j
             (NumericToRawBytes 2 (ToInt16 (scaled_sample s)))).
  - by destruct j as [|[|j]]; [| |lia].
  - apply Forall_forall. intros r Hr. apply list_elem_of_In, in_map_iff in Hr.
    by destruct Hr as (x & <- & _).
  - by rewrite list_lookup_fmap, Hk.
  - done.
Qed.

(** *** The header and the samples of the output *)

Lemma header_layout_length (channels rate dataSize : Z) :
  length (header_layout channels rate dataSize) = 44%nat.
Proof. reflexivity. Qed.

(** C1.  For every sample buffer [encodeWav] returns a binary of 44 bytes
    plus two bytes per interleaved sample, whose first 44 bytes are the
    canonical RIFF/WAVE header: "RIFF", the total size 36 + data size,
    "WAVE", a "fmt " chunk of size 16 with format code 1, the channel
    count, the sample rate, the byte rate (rate x channels x 2), the block
    align (channels x 2), bit depth 16, then "data" and the data size
    (interleaved sample count x 2).  Each field is stored modulo its
    width, hence holds exactly the stated value whenever that value fits
    the field.  On an empty buffer the output is the 44 header bytes, with
    data size 0. *)
Theorem encodeWav_header (b : AudioBuffer) :
  let channels := Z.of_nat (numberOfChannels b) in
  let rate := sampleRate b in
  let samples := (ab_length b * numberOfChannels b)%nat in
  let dataSize := Z.of_nat samples * 2 in
  ∃ bytes : DataView,
    encodeWav b = Some bytes ∧
    length bytes = (44 + samples * 2)%nat ∧
    canonical_header bytes
      (ToUint32 (36 + dataSize)) (ToUint16 channels) (ToUint32 rate)
      (ToUint32 (rate * channels * 2)) (ToUint16 (channels * 2))
      (ToUint32 dataSize) ∧
    (fits_header channels rate dataSize →
     canonical_header bytes
       (36 + dataSize) channels rate (rate * channels * 2) (channels * 2)
       dataSize) ∧
    (samples = 0%nat → length bytes = 44%nat ∧ getUint32 bytes 40 = Some 0).
Proof.
  intros channels rate samples dataSize.
  pose proof (encodeWav_layout b) as Hout.
  rewrite interleaved_length in Hout. fold samples dataSize channels rate in Hout.
  pose proof (header_layout_reads channels rate dataSize
                (pcm_bytes (interleaved b))) as Hhdr.
  eexists. split; [exact Hout|]. split; [|split; [exact Hhdr|split]].
  - rewrite length_app, header_layout_length, pcm_bytes_length, interleaved_length.
    done.
  - intros (Hrate & Hbyte & Halign & Hriff).
    assert (0 ≤ channels) by (unfold channels; lia).
    assert (0 ≤ dataSize) by (unfold dataSize; lia).
    unfold ToUint32, ToUint16 in Hhdr.
    change 4294967296 with (2 ^ 32) in Hhdr. change 65536 with (2 ^ 16) in Hhdr.
    rewrite !Z.mod_small in Hhdr by nia. exact Hhdr.
  - intros Hempty. split.
    + rewrite length_app, header_layout_length, pcm_bytes_length, interleaved_length.
      fold samples. lia.
    + destruct Hhdr as (_ & _ & _ & _ & _ & _ & _ & _ & _ & _ & _ & _ & Hdata).
      rewrite Hdata. unfold dataSize. by rewrite Hempty.
Qed.

Lemma encodeWav_header_witness :
  ∃ bytes : DataView,
    encodeWav Examples.stereo = Some bytes ∧
    canonical_header bytes 44 2 44100 176400 4 8.
Proof.
  destruct (encodeWav_header Examples.stereo) as (bytes & Hout & _ & _ & Hfit & _).
  exists bytes. split; [exact Hout|].
  apply Hfit. repeat split; vm_compute; discriminate.
Defined.

Lemma getInt16_pair (view : DataView) (offset : nat) (b0 b1 : Z) :
  view !! (offset + 0)%nat = Some b0 → view !! (offset + 1)%nat = Some b1 →
  getInt16 view offset =
  Some (let u := b0 + 256 * (b1 + 256 * 0) in
        if 32768 <=? u then u - 65536 else u).
Proof.
  intros H0 H1. unfold getInt16, getUint16, getUintLE. cbn [seq mapM].
  rewrite H0, H1. reflexivity.
Qed.

(** C2.  Every sample of the input buffer other than [NaN] is clamped to
    [[-1, 1]], scaled by 32768 when the clamped value is negative and by
    32767 otherwise, truncated, and stored as a little-endian signed
    16-bit integer at its interleaved position; the scaled value lies in
    [[-32768, 32767]], so nothing wraps: +1 becomes 32767 and -1 becomes
    -32768. *)
Theorem encodeWav_sample (b : AudioBuffer) (c i : nat) :
  (c < numberOfChannels b)%nat → (i < ab_length b)%nat →
  channelData b c i ≠ NaN →
  ∃ (bytes : DataView) (clamped : Q),
    encodeWav b = Some bytes ∧
    clamps_to (channelData b c i) clamped ∧
    (-1 <= clamped)%Q ∧ (clamped <= 1)%Q ∧
    -32768 ≤ scale16 clamped ≤ 32767 ∧
    getInt16 bytes (44 + (i * numberOfChannels b + c) * 2) =
      Some (scale16 clamped) ∧
    scale16 1 = 32767 ∧ scale16 (-1) = -32768.
Proof.
  intros Hc Hi Hnum.
  destruct (scaled_sample_spec _ Hnum) as (clamped & Hclamp & Hlo & Hhi & Hcode).
  pose proof (scale16_range clamped Hlo Hhi) as Hrange.
  eexists. exists clamped. split; [apply encodeWav_layout|].
  repeat split; try done; try lia.
  set (k := (i * numberOfChannels b + c)%nat).
  rewrite (getInt16_pair _ _ (byte_of 0 (scale16 clamped))
             (byte_of 1 (scale16 clamped))).
  - f_equal. by apply int16_bytes.
  - rewrite lookup_app_r by (rewrite header_layout_length; lia).
    rewrite header_layout_length.
    replace (44 + k * 2 + 0 - 44)%nat with (k * 2 + 0)%nat by lia.
    rewrite (pcm_bytes_lookup _ _ _ (channelData b c i)), Hcode;
      [done | by apply interleaved_lookup | lia].
  - rewrite lookup_app_r by (rewrite header_layout_length; lia).
    rewrite header_layout_length.
    replace (44 + k * 2 + 1 - 44)%nat with (k * 2 + 1)%nat by lia.
    rewrite (pcm_bytes_lookup _ _ _ (channelData b c i)), Hcode;
      [done | by apply interleaved_lookup | lia].
Qed.

Lemma encodeWav_sample_witness :
  ∃ bytes : DataView,
    encodeWav Examples.stereo = Some bytes ∧
    getInt16 bytes 46 = Some 16383.
Proof.
  destruct (encodeWav_sample Examples.stereo 1 0) as
    (bytes & clamped & Hout & Hclamp & _ & _ & _ & Hread & _).
  - cbn. lia.
  - cbn. lia.
  - discriminate.
  - exists bytes. split; [exact Hout|].
    change (getInt16 bytes 46 = Some (scale16 clamped)) in Hread.
    rewrite Hread. f_equal.
    inversion Hclamp as [q Hq|q Hq _|q Hq| |]; subst;
      first [ reflexivity | vm_compute in Hq; discriminate Hq ].
Defined.

End WavEncoderProps.

(** ** The export manager *)

Module ExportManagerProps.
Import JS WavEncoder ExportManager ExportSpec NumberProps.

(** *** Name sanitization *)

Lemma allowed_in_class (c : nat) : allowed c = in_class c.
Proof.
  destruct (decide (c < 128)%nat) as [Hc|Hc].
  - assert (Hall : forallb (λ c, Bool.eqb (allowed c) (in_class c)) (seq 0 128) = true)
      by (vm_compute; reflexivity).
    rewrite forallb_forall in Hall.
    apply Bool.eqb_prop, Hall, in_seq. lia.
  - assert (Hno : ∀ l, Forall (λ x, x < 128)%nat l → existsb (Nat.eqb c) l = false).
    { induction 1 as [|x l Hx _ IH]; [done|]. cbn. rewrite IH.
      destruct (Nat.eqb_spec c x); [lia | done]. }
    unfold in_class. rewrite Hno.
    + unfold allowed. repeat
        match goal with
        | |- context [(?a <=? ?b)%nat] => destruct (Nat.leb_spec a b)
        | |- context [(?a =? ?b)%nat] => destruct (Nat.eqb_spec a b)
        end; cbn; try reflexivity; lia.
    + apply Forall_forall. intros x Hx.
      assert (Hlt : forallb (λ x, x <? 128)%nat alphabet = true)
        by (vm_compute; reflexivity).
      rewrite forallb_forall in Hlt.
      apply Nat.ltb_lt, Hlt, list_elem_of_In, Hx.
Qed.

Lemma replace_disallowed_length (name : jsstring) :
  length (replace_disallowed name) = length name.
Proof. apply length_map. Qed.

(** C6.  Sanitization keeps the characters of [[A-Za-z0-9_-]], puts '_'
    for every other character, keeps at most the first 50 characters, and
    gives "export" when nothing is left (which is when the name is empty).
    So "My Song! #1" becomes "My_Song___1" (one '_' for each of the
    three characters "! #" after "Song"), the empty name becomes
    "export", and a name of 80 characters becomes one of exactly 50. *)
Theorem sanitizeName_spec (name : jsstring) :
  (name = [] → sanitizeName name = lit "export") ∧
  (name ≠ [] →
   length (sanitizeName name) = Nat.min (length name) 50 ∧
   ∀ i c, (i < 50)%nat → name !! i = Some c →
     sanitizeName name !! i = Some (if in_class c then c else underscore)) ∧
  (length name = 80%nat → length (sanitizeName name) = 50%nat) ∧
  sanitizeName (lit "My Song! #1") = lit "My_Song___1" ∧
  sanitizeName (lit "") = lit "export".
Proof.
  assert (Hne : name ≠ [] →
    sanitizeName name = take 50 (replace_disallowed name)).
  { destruct name as [|c name]; [done|]. intros _. reflexivity. }
  split; [by intros ->|]. split; [|split; [|split; reflexivity]].
  - intros Hname. rewrite (Hne Hname). split.
    + rewrite length_take, replace_disallowed_length. lia.
    + intros i c Hi Hc. rewrite lookup_take_lt by done.
      unfold replace_disallowed. rewrite list_lookup_fmap, Hc. cbn.
      by rewrite allowed_in_class.
  - intros Hlen. rewrite Hne by (intros ->; discriminate Hlen).
    rewrite length_take, replace_disallowed_length, Hlen. reflexivity.
Qed.

Lemma sanitizeName_spec_witness :
  length (sanitizeName Examples.long_name) = 50%nat ∧
  sanitizeName Examples.long_name !! 7%nat = Some (nat_of_ascii "a").
Proof.
  destruct (sanitizeName_spec Examples.long_name) as (_ & Hkeep & Hlong & _).
  split.
  - apply Hlong. reflexivity.
  - destruct Hkeep as [_ Hchar]; [discriminate|].
    apply (Hchar 7%nat (nat_of_ascii "a")); [lia | reflexivity].
Defined.

(** The example of the specification has one '_' too few. *)
Lemma sanitizeName_example_differs :
  sanitizeName (lit "My Song! #1") ≠ lit "My_Song__1".
Proof. vm_compute. discriminate. Qed.

(** *** The shape of a call *)

Lemma export_not_ready (m : Manager) settings scheduler env :
  mediaStreamDest m = None →
  export m settings scheduler env =
  {| manager := m; trace := [Report (snapshot Preparing 0)];
     outcome := Rejected TapNotSetUp |}.
Proof. intros Hdest. unfold export. by rewrite Hdest. Qed.

Lemma export_unfold (m : Manager) settings scheduler env (dest : nat) :
  mediaStreamDest m = Some dest →
  ∃ m' acts resolved post,
    checkProgress (startTime env) (durationMs settings scheduler)
      (cycles settings) (recording_manager m dest)
      (firstFrame env) (frames env) = (m', acts, resolved) ∧
    trace (export m settings scheduler env) =
      prelude settings scheduler ++ acts ++ post ∧
    epilogue m' settings env resolved post
      (outcome (export m settings scheduler env)).
Proof.
  intros Hdest. unfold export. rewrite Hdest.
  destruct (checkProgress _ _ _ _ _ _) as [[m' acts] resolved].
  exists m', acts, resolved.
  destruct resolved; cbn [negb].
  - destruct (stopRecording m' env) as [[m'' sacts] [audioBuffer|]] eqn:Hstop.
    + pose proof (WavEncoderProps.encodeWav_layout audioBuffer) as Henc.
      rewrite Henc.
      destruct (zip_folder env _) as [dir|] eqn:Hzip; eexists;
        (split; [reflexivity|]); cbn [trace outcome];
        rewrite <- ?app_assoc; (split; [reflexivity|]).
      * by eapply bundled.
      * by eapply no_folder.
    + eexists. split; [reflexivity|]. cbn [trace outcome].
      rewrite <- ?app_assoc. split; [reflexivity|]. by eapply no_audio.
  - exists []. split; [reflexivity|]. cbn [trace outcome].
    rewrite app_nil_r. split; [reflexivity | constructor].
Qed.

(** *** The polling loop *)

Lemma checkProgress_reports st d cy (later : list (list RecorderEvent * Z)) :
  ∀ m dateNow, ∃ k,
    (checkProgress st d cy m dateNow later).1.2 =
    map (λ t, Report (progress_at st d cy t)) (dateNow :: take k (map snd later)).
Proof.
  induction later as [|[events t] later IH]; intros m dateNow; cbn [checkProgress].
  - exists 0%nat. by destruct (ge _ _).
  - destruct (ge _ _); [by exists 0%nat|].
    destruct (IH (foldl deliver m events) t) as [k Hk].
    exists (S k). destruct (checkProgress _ _ _ _ _ _) as [[m' acts] r].
    cbn in *. by rewrite Hk.
Qed.

Lemma foldl_deliver_preserves (P : Manager → Prop) (events : list RecorderEvent) :
  Forall (λ e, ∀ m, P m → P (deliver m e)) events →
  ∀ m, P m → P (foldl deliver m events).
Proof. induction 1 as [|e events He _ IH]; intros m Hm; cbn; auto. Qed.

Lemma deliver_no_chunk (e : RecorderEvent) (m : Manager) :
  is_data e = false → chunks m = [] → chunks (deliver m e) = [].
Proof. by destruct e. Qed.

(** *** Stopping *)

Lemma stopRecording_reports (m : Manager) (env : Platform) :
  reports (stopRecording m env).1.2 = [].
Proof.
  unfold stopRecording.
  destruct (recorder m) as [[| |]|]; try done;
    by destruct (chunks (foldl deliver m (flush env))).
Qed.

Lemma stopRecording_no_chunks (m : Manager) (env : Platform) :
  chunks m = [] → Forall (λ e, is_data e = false) (flush env) →
  (stopRecording m env).2 = None.
Proof.
  intros Hm Hflush. unfold stopRecording.
  assert (Hnone : chunks (foldl deliver m (flush env)) = []).
  { apply (foldl_deliver_preserves (λ m, chunks m = [])); [|done].
    eapply Forall_impl; [exact Hflush|]. intros e He m'. by apply deliver_no_chunk. }
  destruct (recorder m) as [[| |]|]; try done; by rewrite Hnone.
Qed.

(** *** How a call ends *)

Lemma epilogue_reports (m : Manager) settings env resolved post out :
  epilogue m settings env resolved post out →
  (out = Pending ∧ reports post = []) ∨
  (out = Rejected NoAudioRecorded ∧ reports post = [snapshot Encoding 50]) ∨
  (out = Rejected ZipFolderFailed ∧
   reports post = [snapshot Encoding 50; snapshot Encoding 80]) ∨
  (∃ blob, out = Resolved blob ∧
   reports post = [snapshot Encoding 50; snapshot Encoding 80;
                   snapshot Complete 100]).
Proof.
  destruct 1 as [|m' acts Hstop|m' acts ab Hstop Hzip|m' acts ab wav dir Hstop Henc Hzip];
    [by left|right..];
    pose proof (stopRecording_reports m env) as Hacts; rewrite Hstop in Hacts;
    cbn in Hacts; unfold reports in *; rewrite omap_app, Hacts; eauto 10.
Qed.

Lemma epilogue_no_audio (m : Manager) settings env post out :
  epilogue m settings env true post out →
  (stopRecording m env).2 = None →
  out = Rejected NoAudioRecorded ∧ reports post = [snapshot Encoding 50].
Proof.
  intros Hep Hnone.
  inversion Hep as [|m' acts Hstop|m' acts ab Hstop|m' acts ab wav dir Hstop];
    subst; rewrite Hstop in Hnone; try discriminate Hnone.
  pose proof (stopRecording_reports m env) as Hacts. rewrite Hstop in Hacts.
  cbn in Hacts. unfold reports in *. by rewrite omap_app, Hacts.
Qed.

Lemma reports_polling st d cy (ts : list Z) :
  reports (map (λ t, Report (progress_at st d cy t)) ts) =
  map (progress_at st d cy) ts.
Proof. induction ts as [|t ts IH]; cbn; [done | by rewrite <- IH]. Qed.

(** *** Recorder errors *)

Lemma foldl_deliver_without_errors (events : list RecorderEvent) (m : Manager) :
  foldl deliver m (filter (λ e, is_error e = false) events) =
  foldl deliver m events.
Proof.
  revert m. induction events as [|e events IH]; intros m; [done|].
  rewrite filter_cons.
  destruct e; cbn [is_error]; case_decide; try done; cbn; by rewrite IH.
Qed.

Lemma checkProgress_without_errors st d cy
    (later : list (list RecorderEvent * Z)) (m : Manager) (dateNow : Z) :
  checkProgress st d cy m dateNow
    (map (λ f, (filter (λ e, is_error e = false) f.1, f.2)) later) =
  checkProgress st d cy m dateNow later.
Proof.
  revert m dateNow. induction later as [|[events t] later IH]; intros m dateNow;
    cbn [checkProgress map]; [done|].
  destruct (ge _ _); [done|]. cbn [fst snd].
  by rewrite foldl_deliver_without_errors, IH.
Qed.

(** C3, as the code has it.  A recorder error event is written to the
    console and nothing else: the call reports, does and returns the same
    as if the event had not been raised.  The polling goes on to the end
    of the target duration, and the only rejections are the three errors
    of [export] itself. *)
Theorem recorder_error_ignored (m : Manager) settings scheduler env :
  export m settings scheduler (without is_error env) =
  export m settings scheduler env.
Proof.
  unfold export. destruct (mediaStreamDest m) as [dest|]; [|done].
  cbn [without startTime firstFrame frames zip_folder].
  rewrite checkProgress_without_errors.
  destruct (checkProgress _ _ _ _ _ _) as [[m' acts] resolved].
  destruct resolved; [|done]. cbn [negb].
  assert (Hstop : stopRecording m' (without is_error env) = stopRecording m' env).
  { unfold stopRecording. destruct (recorder m') as [[| |]|]; try done;
      cbn [without flush]; by rewrite foldl_deliver_without_errors. }
  by rewrite Hstop.
Qed.

(** After an error event the polling goes on and the call still resolves;
    and when the recorder stops itself on the error, the polling goes on
    all the same, an Encoding snapshot is reported, and the rejection is
    the one of an empty capture. *)
Lemma recorder_error_not_aborted :
  let went_on := export Examples.ready Examples.two_cycles Examples.scheduler
                   Examples.recovering_recorder in
  let stopped := export Examples.ready Examples.two_cycles Examples.scheduler
                   Examples.failing_recorder in
  In ErrorEvent (recorder_events Examples.recovering_recorder) ∧
  (∃ blob, outcome went_on = Resolved blob) ∧
  map phase (reports (trace went_on)) =
    [Preparing; Recording; Recording; Recording; Recording; Recording;
     Recording; Encoding; Encoding; Complete] ∧
  In ErrorEvent (recorder_events Examples.failing_recorder) ∧
  outcome stopped = Rejected NoAudioRecorded ∧
  map phase (reports (trace stopped)) =
    [Preparing; Recording; Recording; Recording; Recording; Recording;
     Recording; Encoding].
Proof.
  cbv zeta. repeat split; try (vm_compute; reflexivity).
  - cbn. auto.
  - eexists. vm_compute. reflexivity.
  - cbn. auto.
Qed.

(** *** The default tempo *)



(** *** Progress during the recording *)







(** The snapshots of a call: the two of the prelude, those of the polled
    frames, and those of its ending. *)
Lemma export_reports (m : Manager) settings scheduler env (dest : nat) :
  mediaStreamDest m = Some dest →
  ∃ k post,
    reports (trace (export m settings scheduler env)) =
      [snapshot Preparing 0;
       recording_snapshot (of_Z 0) (of_Z 0) (cycles settings)] ++
      map (progress_at (startTime env) (durationMs settings scheduler)
             (cycles settings))
          (firstFrame env :: take k (map snd (frames env))) ++
      post ∧
    ((outcome (export m settings scheduler env) = Pending ∧ post = []) ∨
     (outcome (export m settings scheduler env) = Rejected NoAudioRecorded ∧
      post = [snapshot Encoding 50]) ∨
     (outcome (export m settings scheduler env) = Rejected ZipFolderFailed ∧
      post = [snapshot Encoding 50; snapshot Encoding 80]) ∨
     (∃ blob, outcome (export m settings scheduler env) = Resolved blob ∧
      post = [snapshot Encoding 50; snapshot Encoding 80;
              snapshot Complete 100])).
Proof.
  intros Hdest.
  destruct (export_unfold m settings scheduler env dest Hdest)
    as (m' & acts & resolved & post & Hloop & -> & Hep).
  destruct (checkProgress_reports (startTime env) (durationMs settings scheduler)
              (cycles settings) (frames env) (recording_manager m dest)
              (firstFrame env)) as [k Hk].
  rewrite Hloop in Hk. cbn [fst snd] in Hk. subst acts.
  exists k, (reports post). split.
  - unfold reports. rewrite !omap_app. f_equal.
    fold (reports (map (λ t, Report (progress_at (startTime env)
            (durationMs settings scheduler) (cycles settings) t))
            (firstFrame env :: take k (map snd (frames env))))).
    by rewrite reports_polling.
  - apply epilogue_reports in Hep.
    destruct Hep as [[-> ->]|[[-> ->]|[[-> ->]|(blob & -> & ->)]]]; eauto 10.
Qed.



End ExportManagerProps.

(** ** The tap *)

Module AudioGraphTapProps.
Import AudioGraphTap.

(** While recording is active, a connection to the hardware output is
    mirrored into the sink, after the original one. *)
Example patched_connect_mirrors :
  patched_connect Examples.recording_edges Examples.tap_active 3%nat 0%nat
    None None [] [] =
  ([(3%nat, 0%nat); (3%nat, 9%nat)], [LogConnect true true; LogRouting], inl 0%nat).
Proof. reflexivity. Qed.

End AudioGraphTapProps.

(** ** More on the encoder *)

Module WavEncoderMore.
Import JS WavEncoder WavSpec WavBuffers WriteLoops NumberProps WavEncoderProps.

Lemma SetViewValue_length (view view' : DataView) (offset : nat) (raw : list Z) :
  SetViewValue view offset raw = Some view' → length view' = length view.
Proof.
  unfold SetViewValue. destruct (_ <=? _)%nat; [|done].
  intros [= <-]. apply length_inserts.
Qed.

Lemma for_upto_length {A} (body : nat → list A → option (list A)) :
  (∀ i v v', body i v = Some v' → length v' = length v) →
  ∀ n v v', for_upto n body v = Some v' → length v' = length v.
Proof.
  intros Hbody. induction n as [|n IH]; intros v v'; cbn [for_upto].
  - by intros [= <-].
  - destruct (for_upto n body v) as [v1|] eqn:Hn; [|done]. cbn.
    intros Hlast. rewrite (Hbody _ _ _ Hlast). by apply IH.
Qed.

(** A loop of stores that runs past the end of the buffer throws. *)
Lemma for_upto_overflow (w : nat) (body : nat → DataView → option DataView)
    (offset : nat) (raw : nat → list Z) :
  (∀ i v, body i v = SetViewValue v (offset + i * w) (raw i)) →
  (∀ i, length (raw i) = w) →
  ∀ n v, (0 < n)%nat → (length v < offset + n * w)%nat →
    for_upto n body v = None.
Proof.
  intros Hbody Hraw [|n] v Hn Hfit; [lia|]. cbn [for_upto].
  destruct (for_upto n body v) as [v1|] eqn:Hloop; [|done]. cbn.
  assert (Hlen : length v1 = length v).
  { eapply for_upto_length; [|exact Hloop].
    intros i u u'. rewrite Hbody. apply SetViewValue_length. }
  rewrite Hbody. unfold SetViewValue. rewrite Hraw, Hlen.
  destruct (Nat.leb_spec (offset + n * w + w) (length v)); [lia | done].
Qed.

Lemma lookup_inserts_cases (l k : list Z) (i j : nat) :
  (i + length k ≤ length l)%nat →
  list_inserts i k l !! j =
  if decide (i ≤ j < i + length k)%nat then k !! (j - i)%nat else l !! j.
Proof.
  intros Hfit. case_decide as Hj.
  - apply list_lookup_inserts; lia.
  - destruct (decide (j < i)%nat); [by apply list_lookup_inserts_lt|].
    apply list_lookup_inserts_ge. lia.
Qed.

(** X1.  [interleaveChannels] never throws; it returns one sample per frame
    and channel, sample [i] of channel [c] at index [i * N + c], and a
    mono buffer passes through as it is. *)
Theorem interleaveChannels_spec (b : AudioBuffer) :
  ∃ out : Float32Array,
    interleaveChannels b = Some out ∧
    length out = (ab_length b * numberOfChannels b)%nat ∧
    (∀ c i, (c < numberOfChannels b)%nat → (i < ab_length b)%nat →
            out !! (i * numberOfChannels b + c)%nat = Some (channelData b c i)) ∧
    (numberOfChannels b = 1%nat → out = getChannelData b 0).
Proof.
  exists (interleaved b). split; [apply interleaveChannels_eq|].
  split; [apply interleaved_length|]. split.
  - intros c i. apply interleaved_lookup.
  - intros Hmono. unfold interleaved, getChannelData. rewrite Hmono. cbn [seq map].
    apply (concat_map_singleton (λ i, channelData b 0 i)).
Qed.

Lemma interleaveChannels_spec_witness :
  ∃ out : Float32Array,
    interleaveChannels Examples.stereo = Some out ∧
    out !! 1%nat = Some (Fin (1 # 2)).
Proof.
  destruct (interleaveChannels_spec Examples.stereo) as (out & Hout & _ & Hat & _).
  exists out. split; [exact Hout|].
  apply (Hat 1%nat 0%nat); cbn; lia.
Defined.

(** X2.  [writeString] throws exactly when the string is not empty and does
    not fit the buffer from [offset] on; otherwise the buffer keeps its
    length, the bytes from [offset] on are the character codes modulo 256,
    and every other byte is left as it was. *)
Theorem writeString_bounds (view : DataView) (offset : nat) (str : jsstring) :
  (writeString view offset str = None ↔
   str ≠ [] ∧ (length view < offset + length str)%nat) ∧
  (∀ view', writeString view offset str = Some view' →
     length view' = length view ∧
     ∀ j, view' !! j =
          if decide (offset ≤ j < offset + length str)%nat
          then (λ c, Z.of_nat c mod 256) <$> str !! (j - offset)%nat
          else view !! j).
Proof.
  destruct (decide (offset + length str ≤ length view)%nat) as [Hfit|Hover].
  - rewrite (writeString_Some view offset str Hfit). split.
    + split; [done | lia].
    + intros view' [= <-].
      set (bytes := concat (map (λ c, NumericToRawBytes 1 (ToUint8 (Z.of_nat c))) str)).
      assert (Hbytes : bytes = map (λ c, Z.of_nat c mod 256) str).
      { unfold bytes. rewrite <- (concat_map_singleton (λ c, Z.of_nat c mod 256)).
        f_equal. apply map_ext. intros c. unfold NumericToRawBytes, ToUint8, byte_of.
        cbn [seq map]. change (2 ^ (8 * Z.of_nat 0)) with 1.
        by rewrite Z.div_1_r, Z.mod_mod. }
      split; [apply length_inserts|]. intros j.
      rewrite lookup_inserts_cases by (rewrite Hbytes, length_map; lia).
      rewrite Hbytes, length_map. case_decide; [|done].
      by rewrite list_lookup_fmap.
  - destruct str as [|c str].
    + split; [by split; [|intros [? _]] |].
      intros view' [= <-]. split; [done|]. intros j. case_decide; [cbn in *; lia | done].
    + assert (Hnone : writeString view offset (c :: str) = None).
      { unfold writeString.
        apply (for_upto_overflow 1 _ offset
                 (λ i, NumericToRawBytes 1 (ToUint8 (charCodeAt (c :: str) i))));
          [|done|cbn; lia|lia].
        intros i v. by rewrite Nat.mul_1_r. }
      rewrite Hnone. split; [|done]. split; [|done]. intros _. split; [done | lia].
Qed.

Lemma writeString_bounds_witness :
  writeString [0; 0; 0] 2 (lit "fmt ") = None ∧
  (∀ view', writeString [7; 7; 7; 7] 1 (lit "ab") = Some view' →
            view' !! 0%nat = Some 7 ∧ view' !! 1%nat = Some 97).
Proof.
  split.
  - apply (writeString_bounds [0; 0; 0] 2 (lit "fmt ")). split; [discriminate | cbn; lia].
  - intros view' Hwritten.
    destruct (writeString_bounds [7; 7; 7; 7] 1 (lit "ab")) as [_ Hframe].
    destruct (Hframe view' Hwritten) as [_ Hat].
    split; [exact (Hat 0%nat) | exact (Hat 1%nat)].
Defined.

Lemma ToInt16_range (a : number) : -32768 ≤ ToInt16 a ≤ 32767.
Proof.
  destruct a as [q| | |]; cbn; try lia.
  destruct (Z.leb_spec 32768 (Qtrunc q mod 65536)); Z.div_mod_to_equations; lia.
Qed.

(** X3.  [floatTo16BitPCM] throws exactly when there are samples and they
    do not fit the buffer from [offset] on, two bytes each; otherwise the
    buffer keeps its length, the bytes outside the written range are left
    as they were, and the little-endian 16-bit integer read back at
    [offset + 2 i] is the converted sample [i]. *)
Theorem floatTo16BitPCM_bounds (view : DataView) (offset : nat)
    (samples : Float32Array) :
  (floatTo16BitPCM view offset samples = None ↔
   samples ≠ [] ∧ (length view < offset + length samples * 2)%nat) ∧
  (∀ view', floatTo16BitPCM view offset samples = Some view' →
     length view' = length view ∧
     (∀ j, ¬ (offset ≤ j < offset + length samples * 2)%nat →
           view' !! j = view !! j) ∧
     (∀ i s, samples !! i = Some s →
             getInt16 view' (offset + i * 2) = Some (ToInt16 (scaled_sample s)))).
Proof.
  destruct (decide (offset + length samples * 2 ≤ length view)%nat) as [Hfit|Hover].
  - rewrite (floatTo16BitPCM_Some view offset samples Hfit). split.
    + split; [done | lia].
    + intros view' [= <-]. split; [apply length_inserts|]. split.
      * intros j Hj. rewrite lookup_inserts_cases by (rewrite pcm_bytes_length; lia).
        rewrite pcm_bytes_length. by case_decide.
      * intros i s Hs. pose proof (lookup_lt_Some _ _ _ Hs) as Hi.
        rewrite (getInt16_pair _ _ (byte_of 0 (ToInt16 (scaled_sample s)))
                   (byte_of 1 (ToInt16 (scaled_sample s)))).
        -- f_equal. apply int16_bytes, ToInt16_range.
        -- rewrite lookup_inserts_cases by (rewrite pcm_bytes_length; lia).
           rewrite pcm_bytes_length. case_decide; [|lia].
           replace (offset + i * 2 + 0 - offset)%nat with (i * 2 + 0)%nat by lia.
           by apply pcm_bytes_lookup; [|lia].
        -- rewrite lookup_inserts_cases by (rewrite pcm_bytes_length; lia).
           rewrite pcm_bytes_length. case_decide; [|lia].
           replace (offset + i * 2 + 1 - offset)%nat with (i * 2 + 1)%nat by lia.
           by apply pcm_bytes_lookup; [|lia].
  - destruct samples as [|s samples].
    + split; [by split; [|intros [? _]] |].
      intros view' [= <-]. split; [done|]. split; [done|]. intros i s Hs. done.
    + assert (Hnone : floatTo16BitPCM view offset (s :: samples) = None).
      { unfold floatTo16BitPCM.
        apply (for_upto_overflow 2 _ offset
                 (λ i, NumericToRawBytes 2
                         (ToInt16 (scaled_sample (at_index (s :: samples) i)))));
          [done|done|cbn; lia|lia]. }
      rewrite Hnone. split; [|done]. split; [|done]. intros _. split; [done | lia].
Qed.

Lemma floatTo16BitPCM_bounds_witness :
  floatTo16BitPCM [0; 0; 0] 0 [Fin 1; Fin 1] = None ∧
  (∀ view', floatTo16BitPCM [9; 0; 0] 1 [NaN] = Some view' →
            view' !! 0%nat = Some 9 ∧ getInt16 view' 1 = Some 0).
Proof.
  split.
  - apply (floatTo16BitPCM_bounds [0; 0; 0] 0 [Fin 1; Fin 1]).
    split; [discriminate | cbn; lia].
  - intros view' Hwritten.
    destruct (floatTo16BitPCM_bounds [9; 0; 0] 1 [NaN]) as [_ Hframe].
    destruct (Hframe view' Hwritten) as (_ & Hkeep & Hread).
    split; [apply (Hkeep 0%nat); cbn; lia | exact (Hread 0%nat NaN eq_refl)].
Defined.

(** *** Order and error of the sample conversion *)

Lemma Qtrunc_nonneg (q : Q) : (0 <= q)%Q → Qtrunc q = Qfloor q.
Proof.
  destruct q as [n d]. unfold Qtrunc, Qfloor, Qle. cbn. intros Hn.
  apply Z.quot_div_nonneg; lia.
Qed.

Lemma Qtrunc_nonpos (q : Q) : (q <= 0)%Q → Qtrunc q = Qceiling q.
Proof.
  destruct q as [n d]. unfold Qtrunc, Qceiling, Qfloor, Qle. cbn. intros Hn.
  rewrite <- (Z.opp_involutive n) at 1. rewrite Z.quot_opp_l by done.
  f_equal. apply Z.quot_div_nonneg; lia.
Qed.

Lemma Qtrunc_mono (a b : Q) : (a <= b)%Q → Qtrunc a ≤ Qtrunc b.
Proof.
  intros Hab. destruct (Qlt_le_dec a 0) as [Ha|Ha], (Qlt_le_dec b 0) as [Hb|Hb].
  - rewrite !Qtrunc_nonpos by lra. by apply Qceiling_resp_le.
  - assert (Hlow : Qtrunc a ≤ 0).
    { rewrite Qtrunc_nonpos by lra. apply (Qceiling_resp_le a 0). lra. }
    assert (Hhigh : 0 ≤ Qtrunc b).
    { rewrite Qtrunc_nonneg by done. apply (Qfloor_resp_le 0 b Hb). }
    lia.
  - lra.
  - rewrite !Qtrunc_nonneg by done. by apply Qfloor_resp_le.
Qed.

Lemma clamps_mono (s1 s2 : number) (c1 c2 : Q) :
  clamps_to s1 c1 → clamps_to s2 c2 → le s1 s2 = true → (c1 <= c2)%Q.
Proof.
  destruct 1, 1; intros Hle; try apply le_Fin in Hle; try discriminate Hle; lra.
Qed.

Lemma scale16_mono (c1 c2 : Q) : (c1 <= c2)%Q → scale16 c1 ≤ scale16 c2.
Proof.
  intros Hc. unfold scale16.
  destruct (Qlt_le_dec c1 0), (Qlt_le_dec c2 0); try lra.
  - apply Qtrunc_mono. lra.
  - transitivity (Qtrunc 0); apply Qtrunc_mono; lra.
  - apply Qtrunc_mono. lra.
Qed.

(** X4.  The conversion of a sample to 16 bits keeps the order of the
    samples: of two samples (infinite ones included) the smaller one never
    gets the larger integer, so clamping and the two scale factors never
    turn a waveform over. *)
Theorem sample_conversion_monotone (s1 s2 : number) :
  le s1 s2 = true →
  ToInt16 (scaled_sample s1) ≤ ToInt16 (scaled_sample s2).
Proof.
  intros Hle.
  assert (Hs1 : s1 ≠ NaN) by (intros ->; done).
  assert (Hs2 : s2 ≠ NaN) by (intros ->; by destruct s1).
  destruct (scaled_sample_spec s1 Hs1) as (c1 & Hc1 & _ & _ & ->).
  destruct (scaled_sample_spec s2 Hs2) as (c2 & Hc2 & _ & _ & ->).
  apply scale16_mono. by eapply clamps_mono.
Qed.

Lemma sample_conversion_monotone_witness :
  ToInt16 (scaled_sample (Fin (-3 # 2))) ≤ ToInt16 (scaled_sample (Fin (1 # 2))).
Proof. apply sample_conversion_monotone. reflexivity. Defined.

(** X5.  For a sample [q] in [[-1, 1]] the stored integer is the scaled
    sample cut off toward zero: less than one step away from [q * 32767]
    from below when [q >= 0], and from [q * 32768] from above when
    [q < 0]. *)
Theorem sample_conversion_error (q : Q) :
  (-1 <= q)%Q → (q <= 1)%Q →
  let v := inject_Z (ToInt16 (scaled_sample (Fin q))) in
  ((0 <= q)%Q → (v <= q * 32767)%Q ∧ (q * 32767 < v + 1)%Q) ∧
  ((q < 0)%Q → (v - 1 < q * 32768)%Q ∧ (q * 32768 <= v)%Q).
Proof.
  intros Hlo Hhi v. subst v.
  assert (Hv : ToInt16 (scaled_sample (Fin q)) = scale16 q).
  { destruct (scaled_sample_spec (Fin q)) as (c & Hc & _ & _ & ->); [done|].
    inversion Hc; subst; try lra. done. }
  rewrite Hv. unfold scale16. split; intros Hq.
  - destruct (Qlt_le_dec q 0); [lra|].
    rewrite Qtrunc_nonneg by lra.
    split; [apply Qfloor_le|].
    pose proof (Qlt_floor (q * 32767)) as Hnext.
    rewrite inject_Z_plus in Hnext. exact Hnext.
  - destruct (Qlt_le_dec q 0); [|lra].
    rewrite Qtrunc_nonpos by lra.
    split; [|apply Qle_ceiling].
    pose proof (Qceiling_lt (q * 32768)) as Hprev.
    unfold Z.sub in Hprev. rewrite inject_Z_plus in Hprev. exact Hprev.
Qed.

Lemma sample_conversion_error_witness :
  (inject_Z (ToInt16 (scaled_sample (Fin (1 # 3)))) <= (1 # 3) * 32767)%Q.
Proof.
  destruct (sample_conversion_error (1 # 3)) as [Hpos _]; [done..|].
  apply Hpos. done.
Defined.

(** *** The file as a whole *)

Lemma byte_of_range (k : nat) (z : Z) : 0 ≤ byte_of k z < 256.
Proof. apply Z.mod_pos_bound. done. Qed.

(** X6.  When the field values fit their fields, the sizes in the header
    agree with the file: the RIFF size is the file length less 8, the data
    size is the file length less 44 and is the number of frames times the
    block align, and the byte rate is the sample rate times the block
    align. *)
Theorem encodeWav_sizes_consistent (b : AudioBuffer) :
  fits_header (Z.of_nat (numberOfChannels b)) (sampleRate b)
              (Z.of_nat (ab_length b * numberOfChannels b) * 2) →
  ∃ (bytes : DataView) (blockAlign : Z),
    encodeWav b = Some bytes ∧
    getUint32 bytes 4 = Some (Z.of_nat (length bytes) - 8) ∧
    getUint32 bytes 40 = Some (Z.of_nat (length bytes) - 44) ∧
    getUint16 bytes 32 = Some blockAlign ∧
    Z.of_nat (length bytes) - 44 = Z.of_nat (ab_length b) * blockAlign ∧
    getUint32 bytes 28 = Some (sampleRate b * blockAlign).
Proof.
  intros (Hrate & Hbyte & Halign & Hriff).
  pose proof (encodeWav_layout b) as Hout. rewrite interleaved_length in Hout.
  pose proof (header_layout_reads (Z.of_nat (numberOfChannels b)) (sampleRate b)
                (Z.of_nat (ab_length b * numberOfChannels b) * 2)
                (pcm_bytes (interleaved b))) as Hhdr.
  unfold ToUint32, ToUint16 in Hhdr.
  change 4294967296 with (2 ^ 32) in Hhdr. change 65536 with (2 ^ 16) in Hhdr.
  rewrite !Z.mod_small in Hhdr by nia.
  destruct Hhdr as (_ & Hsize & _ & _ & _ & _ & _ & _ & Hbr & Hba & _ & _ & Hdata).
  eexists. exists (Z.of_nat (numberOfChannels b) * 2).
  split; [exact Hout|].
  assert (Hlen : Z.of_nat (length
      (header_layout (Z.of_nat (numberOfChannels b)) (sampleRate b)
         (Z.of_nat (ab_length b * numberOfChannels b) * 2)
       ++ pcm_bytes (interleaved b))) =
    44 + Z.of_nat (ab_length b * numberOfChannels b) * 2).
  { rewrite length_app, header_layout_length, pcm_bytes_length, interleaved_length.
    lia. }
  rewrite Hlen, Hsize, Hdata, Hba, Hbr.
  repeat split; f_equal; lia.
Qed.

Lemma encodeWav_sizes_consistent_witness :
  ∃ bytes : DataView,
    encodeWav Examples.stereo = Some bytes ∧
    getUint32 bytes 4 = Some (Z.of_nat (length bytes) - 8).
Proof.
  destruct (encodeWav_sizes_consistent Examples.stereo)
    as (bytes & align & Hout & Hriff & _).
  - repeat split; vm_compute; discriminate.
  - exists bytes. split; [exact Hout | exact Hriff].
Defined.

(** X7.  Every element of the binary that [encodeWav] returns is a byte,
    between 0 and 255, whatever the sample values, the channel count and
    the sample rate are. *)
Theorem encodeWav_bytes (b : AudioBuffer) (bytes : DataView) :
  encodeWav b = Some bytes → Forall (λ x, 0 ≤ x < 256) bytes.
Proof.
  rewrite encodeWav_layout. intros Hout. apply (inj Some) in Hout. subst bytes.
  apply Forall_app. split.
  - unfold header_layout, NumericToRawBytes. cbn [map seq app lit].
    repeat (constructor;
            [first [ apply byte_of_range
                   | split; [apply Nat2Z.is_nonneg | vm_compute; reflexivity] ]|]).
    constructor.
  - unfold pcm_bytes. induction (interleaved b) as [|s l IH]; [constructor|].
    cbn [map concat]. apply Forall_app. split; [|exact IH].
    unfold NumericToRawBytes. cbn [map seq].
    repeat constructor; apply byte_of_range.
Qed.

Lemma encodeWav_bytes_witness :
  ∃ bytes, encodeWav Examples.stereo = Some bytes ∧ Forall (λ x, 0 ≤ x < 256) bytes.
Proof.
  eexists. split; [vm_compute; reflexivity|].
  apply (encodeWav_bytes Examples.stereo). vm_compute. reflexivity.
Defined.

(** *** A stereo buffer from two arrays *)

Lemma alternate_rows (left right : Float32Array) :
  length right = length left →
  concat (map (λ i, [at_index left i; at_index right i]) (seq 0 (length left)))
  = alternate left right.
Proof.
  revert right. induction left as [|l left IH]; intros [|r right] Hlen;
    try discriminate Hlen; [done|].
  cbn [length seq map concat app alternate]. f_equal. f_equal.
  rewrite <- seq_shift, map_map. apply IH. by injection Hlen.
Qed.

(** X8.  From two arrays of the same, non-zero length [createAudioBuffer]
    makes a stereo buffer of that length at the context's sample rate, and
    its encoding is the header followed by the frames in turn, left then
    right: L0 R0 L1 R1 ..., four bytes a frame. *)
Theorem createAudioBuffer_encoded (rate : Z) (left right : Float32Array) :
  left ≠ [] → length right = length left →
  ∃ (buffer : AudioBuffer) (bytes : DataView),
    createAudioBuffer rate left right = Some buffer ∧
    numberOfChannels buffer = 2%nat ∧ ab_length buffer = length left ∧
    sampleRate buffer = rate ∧
    encodeWav buffer = Some bytes ∧
    length bytes = (44 + 4 * length left)%nat ∧
    drop 44 bytes = pcm_bytes (alternate left right).
Proof.
  intros Hleft Hlen. destruct left as [|l left]; [done|].
  set (buffer :=
    {| numberOfChannels := 2; sampleRate := rate; ab_length := S (length left);
       channelData := λ c i,
         if ((c =? 1) && (i <? length right) && (i <? S (length left)))%nat
         then at_index right i
         else if ((c =? 0) && (i <? length (l :: left)) && (i <? S (length left)))%nat
              then at_index (l :: left) i else Fin 0 |}).
  assert (Hdata : interleaved buffer = alternate (l :: left) right).
  { rewrite <- alternate_rows by done. unfold interleaved, buffer.
    cbn [numberOfChannels ab_length channelData].
    change (seq 0 2) with [0; 1]%nat. cbn [map]. f_equal.
    apply map_ext_in. intros i Hi%in_seq.
    cbn [Nat.eqb andb]. rewrite Hlen. cbn [length] in *.
    destruct (Nat.ltb_spec i (S (length left))); [done | lia]. }
  exists buffer. eexists.
  split; [reflexivity|]. split; [done|]. split; [done|]. split; [done|].
  split; [apply encodeWav_layout|]. split.
  - rewrite length_app, header_layout_length, pcm_bytes_length, interleaved_length.
    cbn [buffer numberOfChannels ab_length length]. lia.
  - rewrite drop_app_length' by (by rewrite header_layout_length).
    by rewrite Hdata.
Qed.

Lemma createAudioBuffer_encoded_witness :
  ∃ (buffer : AudioBuffer) (bytes : DataView),
    createAudioBuffer 48000 [Fin 1; Fin 0] [Fin (-1); Fin (1 # 2)] = Some buffer ∧
    encodeWav buffer = Some bytes ∧
    drop 44 bytes = [255; 127; 0; 128; 0; 0; 255; 63].
Proof.
  destruct (createAudioBuffer_encoded 48000 [Fin 1; Fin 0] [Fin (-1); Fin (1 # 2)])
    as (buffer & bytes & Hbuf & _ & _ & _ & Henc & _ & Hdata); [done..|].
  exists buffer, bytes. split; [exact Hbuf|]. split; [exact Henc|].
  rewrite Hdata. reflexivity.
Defined.

End WavEncoderMore.

(** ** More on the export manager *)

Module ExportManagerMore.
Import JS WavEncoder ExportManager ExportSpec ExportNotions NumberProps
  ExportManagerProps.

(** *** Names *)

Lemma sanitizeName_cases (name : jsstring) :
  sanitizeName name =
  if decide (name = []) then lit "export" else take 50 (replace_disallowed name).
Proof. by destruct name. Qed.

Lemma replace_disallowed_allowed (name : jsstring) :
  Forall (λ c, allowed c = true) (replace_disallowed name).
Proof.
  unfold replace_disallowed. induction name as [|c name IH]; [constructor|].
  cbn [map]. constructor; [|exact IH]. by destruct (allowed c) eqn:Hc.
Qed.

Lemma replace_disallowed_id (name : jsstring) :
  Forall (λ c, allowed c = true) name → replace_disallowed name = name.
Proof.
  unfold replace_disallowed. induction 1 as [|c name Hc _ IH]; [done|].
  cbn [map]. by rewrite Hc, IH.
Qed.

(** X9.  Whatever the session name is, the sanitized name is a usable
    folder name: not empty, at most 50 characters, all of them from
    [[A-Za-z0-9_-]]; and sanitizing it again changes nothing. *)
Theorem sanitizeName_valid (name : jsstring) :
  sanitizeName name ≠ [] ∧
  (length (sanitizeName name) ≤ 50)%nat ∧
  Forall (λ c, in_class c = true) (sanitizeName name) ∧
  sanitizeName (sanitizeName name) = sanitizeName name.
Proof.
  assert (Hallowed : Forall (λ c, allowed c = true) (sanitizeName name)).
  { rewrite sanitizeName_cases. case_decide.
    - repeat constructor.
    - apply Forall_take, replace_disallowed_allowed. }
  assert (Hne : sanitizeName name ≠ []).
  { rewrite sanitizeName_cases. case_decide; [done|].
    destruct name; [done|]. done. }
  assert (Hlen : (length (sanitizeName name) ≤ 50)%nat).
  { rewrite sanitizeName_cases. case_decide; [cbn; lia|].
    rewrite length_take. lia. }
  repeat split; [done | done | |].
  - eapply Forall_impl; [exact Hallowed|]. intros c Hc.
    by rewrite <- allowed_in_class.
  - rewrite (sanitizeName_cases (sanitizeName name)). case_decide; [done|].
    rewrite replace_disallowed_id by done. by apply take_ge.
Qed.

(** *** What the handlers keep *)

Lemma deliver_chunks (events : list RecorderEvent) (m : Manager) :
  chunks (foldl deliver m events) = chunks m ++ captured events.
Proof.
  revert m. induction events as [|e events IH]; intros m; cbn [foldl].
  - by rewrite app_nil_r.
  - rewrite IH. destruct e as [[|b data]| |]; cbn; [done| |done..].
    by rewrite <- app_assoc.
Qed.

Lemma deliver_fields (events : list RecorderEvent) (m : Manager) :
  context (foldl deliver m events) = context m ∧
  mediaStreamDest (foldl deliver m events) = mediaStreamDest m ∧
  (is_Some (recorder m) → is_Some (recorder (foldl deliver m events))).
Proof.
  revert m. induction events as [|e events IH]; intros m; cbn [foldl]; [done|].
  destruct (IH (deliver m e)) as (-> & -> & Hrec).
  destruct e as [[|b data]| |]; cbn; repeat split; try done;
    intros Hm; apply Hrec; cbn; try done.
  by destruct (recorder m).
Qed.

(** X10.  The recorder's handlers only ever add to [chunks]: after any
    sequence of recorder events the fragments are those there before,
    followed by the data of the data events in the order they came, empty
    blobs left out; the context and the bound destination are not
    touched. *)
Theorem handlers_accumulate (events : list RecorderEvent) (m : Manager) :
  chunks (foldl deliver m events) = chunks m ++ captured events ∧
  Forall (λ blob, blob ≠ []) (captured events) ∧
  context (foldl deliver m events) = context m ∧
  mediaStreamDest (foldl deliver m events) = mediaStreamDest m.
Proof.
  split; [apply deliver_chunks|]. split.
  - clear m. induction events as [|[[|b data]| |] events IH]; cbn; auto.
  - destruct (deliver_fields events m) as (? & ? & _). done.
Qed.

(** *** A call, step by step *)

Lemma checkProgress_run st d cy (later : list (list RecorderEvent * Z)) :
  ∀ (m : Manager) (dateNow : Z), ∃ (k : nat) (earlier : list Z) (final : Z),
    dateNow :: take k (map snd later) = earlier ++ [final] ∧
    Forall (λ t, ge (of_Z (t - st)) d = false) earlier ∧
    checkProgress st d cy m dateNow later =
      (foldl deliver m (concat (map fst (take k later))),
       map (λ t, Report (progress_at st d cy t)) (earlier ++ [final]),
       ge (of_Z (final - st)) d).
Proof.
  induction later as [|[events t] later IH]; intros m dateNow; cbn [checkProgress].
  - exists 0%nat, [], dateNow. split; [done|]. split; [constructor|].
    by destruct (ge _ _).
  - destruct (ge (of_Z (dateNow - st)) d) eqn:Hnow.
    + exists 0%nat, [], dateNow. split; [done|]. split; [constructor|].
      by rewrite Hnow.
    + destruct (IH (foldl deliver m events) t) as (k & earlier & final & Hpolled & Hearlier & ->).
      exists (S k), (dateNow :: earlier), final.
      cbn [take map snd fst concat]. rewrite Hpolled. split; [done|].
      split; [by constructor|]. by rewrite foldl_app.
Qed.

Lemma export_manager (m : Manager) settings scheduler env (dest : nat) :
  mediaStreamDest m = Some dest →
  let polling := checkProgress (startTime env) (durationMs settings scheduler)
                   (cycles settings) (recording_manager m dest)
                   (firstFrame env) (frames env) in
  manager (export m settings scheduler env) =
  if polling.2 then (stopRecording polling.1.1 env).1.1 else polling.1.1.
Proof.
  intros Hdest. cbv zeta. unfold export. rewrite Hdest.
  destruct (checkProgress _ _ _ _ _ _) as [[m' acts] resolved].
  destruct resolved; cbn [negb fst snd]; [|done].
  destruct (stopRecording m' env) as [[m'' sacts] [audioBuffer|]]; [|done].
  rewrite (WavEncoderProps.encodeWav_layout audioBuffer).
  by destruct (zip_folder env _).
Qed.

(** The whole of a call whose destination is bound. *)
Lemma export_run (m : Manager) settings scheduler env (dest : nat) :
  mediaStreamDest m = Some dest →
  ∃ (k : nat) (earlier : list Z) (final : Z) (post : list Action),
    let polled := foldl deliver (recording_manager m dest)
                    (concat (map fst (take k (frames env)))) in
    let resolved := ge (of_Z (final - startTime env))
                       (durationMs settings scheduler) in
    firstFrame env :: take k (map snd (frames env)) = earlier ++ [final] ∧
    Forall (λ t, ge (of_Z (t - startTime env)) (durationMs settings scheduler)
                 = false) earlier ∧
    trace (export m settings scheduler env) =
      prelude settings scheduler ++
      map (λ t, Report (progress_at (startTime env) (durationMs settings scheduler)
                          (cycles settings) t)) (earlier ++ [final]) ++
      post ∧
    epilogue polled settings env resolved post
      (outcome (export m settings scheduler env)) ∧
    manager (export m settings scheduler env) =
      if resolved then (stopRecording polled env).1.1 else polled.
Proof.
  intros Hdest.
  destruct (checkProgress_run (startTime env) (durationMs settings scheduler)
              (cycles settings) (frames env) (recording_manager m dest)
              (firstFrame env)) as (k & earlier & final & Hpolled & Hearlier & Hrun).
  destruct (export_unfold m settings scheduler env dest Hdest)
    as (m' & acts & resolved & post & Hloop & Htrace & Hep).
  pose proof (export_manager m settings scheduler env dest Hdest) as Hman.
  cbv zeta in Hman. rewrite Hrun in Hloop, Hman. cbn [fst snd] in Hman.
  injection Hloop as <- <- <-.
  exists k, earlier, final, post. cbv zeta. done.
Qed.

(** *** The order of the snapshots *)

Lemma polled_ranks st d cy (ts : list Z) (tail : list nat) :
  StronglySorted Nat.le tail → Forall (Nat.le 1) tail →
  StronglySorted Nat.le
    (map (λ p, phase_rank (phase p)) (map (progress_at st d cy) ts) ++ tail) ∧
  Forall (Nat.le 1)
    (map (λ p, phase_rank (phase p)) (map (progress_at st d cy) ts) ++ tail).
Proof.
  intros Hsorted Hall. induction ts as [|t ts [IHs IHa]]; cbn [map app]; [done|].
  split; constructor; done.
Qed.

(** X11.  Whatever the manager, the settings, the scheduler and the
    platform do, the snapshots that one call of [export] hands to
    [onProgress] go through the phases in their declared order,
    preparing, recording, encoding, complete, never back to an earlier
    one, and the first snapshot of every call is preparing at 0. *)
Theorem phases_in_order (m : Manager) settings scheduler env :
  StronglySorted Nat.le
    (map (λ p, phase_rank (phase p))
         (reports (trace (export m settings scheduler env)))) ∧
  head (reports (trace (export m settings scheduler env))) =
    Some (snapshot Preparing 0).
Proof.
  destruct (mediaStreamDest m) as [dest|] eqn:Hdest.
  - destruct (export_reports m settings scheduler env dest Hdest)
      as (k & post & -> & Hpost).
    split; [|done].
    rewrite !map_app. cbn [map app snapshot recording_snapshot phase phase_rank].
    assert (Htail : StronglySorted Nat.le (map (λ p, phase_rank (phase p)) post) ∧
                    Forall (Nat.le 1) (map (λ p, phase_rank (phase p)) post)).
    { destruct Hpost as [[_ ->]|[[_ ->]|[[_ ->]|(blob & _ & ->)]]]; cbn;
        split; repeat constructor. }
    destruct Htail as [Hs Ha].
    destruct (polled_ranks (startTime env) (durationMs settings scheduler)
                (cycles settings) (firstFrame env :: take k (map snd (frames env)))
                _ Hs Ha) as [Hs' Ha'].
    constructor; [constructor; [done|]|].
    + done.
    + constructor; [repeat constructor|].
      eapply Forall_impl; [exact Ha'|]. intros x Hx. cbv beta. unfold Nat.le in *. lia.
  - rewrite export_not_ready by done. cbn. split; [repeat constructor | done].
Qed.

(** *** The recorder *)

Lemma stopRecording_cases (m : Manager) env :
  ((recorder m = None ∨ recorder m = Some inactive) ∧
   stopRecording m env = (m, [], None)) ∨
  ((recorder m = Some recording ∨ recorder m = Some paused) ∧
   ∃ m', stopRecording m env =
           (m', [RecorderStop],
            match chunks m' with
            | [] => None
            | _ => decodeAudioData (context m) (concat (chunks m'))
            end) ∧
         recorder m' = Some inactive ∧
         chunks m' = chunks m ++ captured (flush env) ∧
         context m' = context m ∧
         mediaStreamDest m' = mediaStreamDest m).
Proof.
  unfold stopRecording.
  destruct (deliver_fields (flush env) m) as (Hctx & Hdest & _).
  pose proof (deliver_chunks (flush env) m) as Hchunks.
  destruct (recorder m) as [[]|] eqn:Hrec; [left; by auto|right..|left; by auto].
  all: split; [by auto|]; cbv zeta; cbn [chunks context];
    exists {| context := context (foldl deliver m (flush env));
              mediaStreamDest := mediaStreamDest (foldl deliver m (flush env));
              recorder := Some inactive;
              chunks := chunks (foldl deliver m (flush env)) |};
    cbn [chunks context mediaStreamDest recorder];
    (split; [|split; [|split; [|split]]]);
    [|reflexivity|exact Hchunks|exact Hctx|exact Hdest];
    destruct (chunks (foldl deliver m (flush env))); [done|];
    unfold blobToAudioBuffer; cbn [context]; rewrite Hctx;
    by destruct (decodeAudioData _ _).
Qed.

Lemma filter_polled {B} (f : B → ExportProgress) (l : list B) :
  filter (λ a, on_recorder a = true) (map (λ t, Report (f t)) l) = [].
Proof.
  induction l as [|t l IH]; [done|]. cbn [map].
  rewrite filter_cons. by case_decide.
Qed.

Lemma filter_prelude settings scheduler :
  filter (λ a, on_recorder a = true) (prelude settings scheduler) =
  [RecorderStart 100].
Proof.
  unfold prelude.
  repeat (rewrite filter_cons; case_decide; try done).
Qed.

Lemma filter_snapshots (acts : list Action) (ps : list ExportProgress) :
  filter (λ a, on_recorder a = true) (acts ++ map Report ps) =
  filter (λ a, on_recorder a = true) acts.
Proof.
  rewrite filter_app.
  pose proof (filter_polled (λ p, p) ps) as Hnone. cbv beta in Hnone.
  change (map (λ t, Report t) ps) with (map Report ps) in Hnone.
  by rewrite Hnone, app_nil_r.
Qed.

(** X12.  A call of [export] whose destination is bound starts the
    recorder exactly once, with a 100 ms timeslice, and stops it at most
    once, after the start.  While the call is pending the recorder has not
    been stopped by the call; once the call
    has settled, resolved or rejected, the recorder is inactive; and a call
    that resolves has stopped it.  The bound destination and the context
    are as before the call. *)
Theorem recorder_discipline (m : Manager) settings scheduler env (dest : nat) :
  mediaStreamDest m = Some dest →
  let r := export m settings scheduler env in
  let used := filter (λ a, on_recorder a = true) (trace r) in
  (used = [RecorderStart 100] ∨ used = [RecorderStart 100; RecorderStop]) ∧
  (outcome r = Pending →
   used = [RecorderStart 100] ∧ is_Some (recorder (manager r))) ∧
  (outcome r ≠ Pending → recorder (manager r) = Some inactive) ∧
  (∀ blob, outcome r = Resolved blob →
           used = [RecorderStart 100; RecorderStop]) ∧
  mediaStreamDest (manager r) = Some dest ∧
  context (manager r) = context m.
Proof.
  intros Hdest. cbv zeta.
  destruct (export_run m settings scheduler env dest Hdest)
    as (k & earlier & final & post & _ & _ & -> & Hep & ->).
  set (polled := foldl deliver (recording_manager m dest)
                   (concat (map fst (take k (frames env))))) in *.
  destruct (deliver_fields (concat (map fst (take k (frames env))))
              (recording_manager m dest)) as (Hctx & Hdst & Hrec).
  fold polled in Hctx, Hdst, Hrec. cbn [recording_manager context mediaStreamDest recorder] in *.
  specialize (Hrec (ltac:(by eexists))).
  rewrite !filter_app, filter_prelude, filter_polled. cbn [app].
  destruct Hep as [|m' acts Hstop|m' acts ab Hstop Hzip|m' acts ab wav dir Hstop Henc Hzip].
  - cbn [filter]. rewrite filter_nil. repeat split; auto; try done.
  - change [Report (snapshot Encoding 50)] with (map Report [snapshot Encoding 50]).
    rewrite filter_snapshots, Hstop. cbn [fst].
    destruct (stopRecording_cases polled env)
      as [[Hidle Heq]|[_ (m'' & Heq & Hin & _ & Hc & Hd)]];
      rewrite Hstop in Heq.
    + injection Heq as -> ->.
      rewrite filter_nil. destruct Hidle as [Hidle|Hidle];
        [rewrite Hidle in Hrec; by destruct Hrec|].
      repeat split; auto; try done.
    + injection Heq as -> -> _.
      rewrite Hc, Hd. repeat split; auto; try done.
  - change [Report (snapshot Encoding 50); Report (snapshot Encoding 80)]
      with (map Report [snapshot Encoding 50; snapshot Encoding 80]).
    rewrite filter_snapshots, Hstop. cbn [fst].
    destruct (stopRecording_cases polled env)
      as [[Hidle Heq]|[_ (m'' & Heq & Hin & _ & Hc & Hd)]];
      rewrite Hstop in Heq; [done|]. injection Heq as -> -> _.
    rewrite Hc, Hd. repeat split; auto; try done.
  - change [Report (snapshot Encoding 50); Report (snapshot Encoding 80);
            Report (snapshot Complete 100)]
      with (map Report [snapshot Encoding 50; snapshot Encoding 80;
                        snapshot Complete 100]).
    rewrite filter_snapshots, Hstop. cbn [fst].
    destruct (stopRecording_cases polled env)
      as [[Hidle Heq]|[_ (m'' & Heq & Hin & _ & Hc & Hd)]];
      rewrite Hstop in Heq; [done|]. injection Heq as -> -> _.
    rewrite Hc, Hd. repeat split; auto; try done.
Qed.

Lemma recorder_discipline_witness :
  filter (λ a, on_recorder a = true)
    (trace (export Examples.ready Examples.two_cycles Examples.scheduler
              Examples.working_recorder)) = [RecorderStart 100; RecorderStop] ∧
  recorder (manager (export Examples.ready Examples.two_cycles Examples.scheduler
                       Examples.working_recorder)) = Some inactive.
Proof.
  destruct (recorder_discipline Examples.ready Examples.two_cycles
              Examples.scheduler Examples.working_recorder 0%nat eq_refl)
    as (_ & _ & Hsettled & Hresolved & _).
  split.
  - eapply Hresolved. vm_compute. reflexivity.
  - apply Hsettled. vm_compute. discriminate.
Defined.

(** *** What a resolved call returns *)

Lemma deliver_stays_inactive (events : list RecorderEvent) (m : Manager) :
  recorder m = Some inactive →
  recorder (foldl deliver m events) = Some inactive.
Proof.
  revert m. induction events as [|e events IH]; intros m Hm; cbn [foldl]; [done|].
  apply IH. destruct e as [[|b data]| |]; cbn; try done. by rewrite Hm.
Qed.

Lemma deliver_inactive (events : list RecorderEvent) (m : Manager) :
  is_Some (recorder m) → In BecameInactive events →
  recorder (foldl deliver m events) = Some inactive.
Proof.
  revert m. induction events as [|e events IH]; intros m Hm Hin; [done|].
  cbn [foldl]. destruct Hin as [->|Hin].
  - apply deliver_stays_inactive. cbn. by destruct Hm as [st ->].
  - apply IH; [|done]. destruct e as [[|b data]| |]; cbn; try done.
    by destruct Hm as [st ->].
Qed.

(** *** What a call does not depend on *)

Lemma export_frame (m1 m2 : Manager) settings scheduler env (dest : nat) :
  context m1 = context m2 →
  mediaStreamDest m1 = Some dest → mediaStreamDest m2 = Some dest →
  export m1 settings scheduler env = export m2 settings scheduler env.
Proof.
  intros Hctx Hd1 Hd2. unfold export. rewrite Hd1, Hd2.
  unfold recording_manager. by rewrite Hctx.
Qed.

Lemma export_manager_fields (m : Manager) settings scheduler env (dest : nat) :
  mediaStreamDest m = Some dest →
  context (manager (export m settings scheduler env)) = context m ∧
  mediaStreamDest (manager (export m settings scheduler env)) = Some dest.
Proof.
  intros Hdest.
  destruct (export_run m settings scheduler env dest Hdest)
    as (k & earlier & final & post & _ & _ & _ & _ & ->).
  set (polled := foldl deliver (recording_manager m dest)
                   (concat (map fst (take k (frames env))))).
  destruct (deliver_fields (concat (map fst (take k (frames env))))
              (recording_manager m dest)) as (Hctx & Hdst & _).
  fold polled in Hctx, Hdst. cbn [recording_manager context mediaStreamDest] in *.
  destruct (ge _ _); [|done].
  destruct (stopRecording_cases polled env)
    as [[_ ->]|[_ (m' & -> & _ & _ & Hc & Hd)]]; cbn [fst]; [done|].
  by rewrite Hc, Hd.
Qed.

(** X14.  A call of [export] reads nothing of the manager but its context
    and its bound destination: two managers that agree on these, whatever
    their recorders and fragments, give the same snapshots, actions,
    outcome and final state.  In particular what an earlier call left
    behind does not reach the next one: exporting again on the manager an
    export returns is the same as exporting on the manager as it was. *)
Theorem export_no_residue (m1 m2 : Manager) settings scheduler env (dest : nat) :
  context m1 = context m2 →
  mediaStreamDest m1 = Some dest → mediaStreamDest m2 = Some dest →
  export m1 settings scheduler env = export m2 settings scheduler env ∧
  ∀ settings' scheduler' env',
    export (manager (export m1 settings' scheduler' env')) settings scheduler env
    = export m2 settings scheduler env.
Proof.
  intros Hctx Hd1 Hd2. split; [by apply (export_frame _ _ _ _ _ dest)|].
  intros settings' scheduler' env'.
  destruct (export_manager_fields m1 settings' scheduler' env' dest Hd1)
    as [Hc Hd].
  apply (export_frame _ _ _ _ _ dest); [by rewrite Hc | done..].
Qed.

Lemma export_no_residue_witness :
  export MoreExamples.used Examples.two_cycles Examples.scheduler
    Examples.working_recorder =
  export Examples.ready Examples.two_cycles Examples.scheduler
    Examples.working_recorder.
Proof.
  apply (export_no_residue MoreExamples.used Examples.ready Examples.two_cycles
           Examples.scheduler Examples.working_recorder 0%nat);
    reflexivity.
Defined.

(** *** Disposal *)

(** X15.  [dispose] stops the recorder exactly when there is one that is
    not inactive, and leaves a manager with no destination, no recorder
    and no fragments, on which a second [dispose] does nothing.  A call of
    [export] on the disposed manager reports the Preparing snapshot and
    rejects with the tap-not-set-up error, touching nothing else; once a
    destination is bound again, the manager exports exactly as the
    undisposed one would with that destination. *)
Theorem dispose_resets (m : Manager) settings scheduler env :
  let m' := (dispose m).1 in
  ((dispose m).2 = [RecorderStop] ∧
     (recorder m = Some recording ∨ recorder m = Some paused)
   ∨ (dispose m).2 = [] ∧ (recorder m = None ∨ recorder m = Some inactive)) ∧
  dispose m' = (m', []) ∧
  export m' settings scheduler env =
    {| manager := m'; trace := [Report (snapshot Preparing 0)];
       outcome := Rejected TapNotSetUp |} ∧
  ∀ dest : nat,
    export (setRecordingDestination m' dest) settings scheduler env =
    export (setRecordingDestination m dest) settings scheduler env.
Proof.
  cbv zeta. split; [|split; [|split]].
  - unfold dispose. cbn [fst snd]. destruct (recorder m) as [[]|]; auto.
  - done.
  - by apply export_not_ready.
  - intros dest. by apply (export_frame _ _ _ _ _ dest).
Qed.

(** *** The end of the recording *)







(** *** The errors of a call *)

(** X30.  A call of [export] rejects with the tap-not-set-up error
    exactly when no destination is bound, so never after
    [setRecordingDestination]; and it never fails in the encoder: once
    the decoder has given a buffer the WAV bytes are always written.  A
    call with a bound destination is pending, resolved, or rejected with
    no-audio-recorded or with the ZIP folder error. *)
Theorem export_errors (m : Manager) settings scheduler env :
  (outcome (export m settings scheduler env) = Rejected TapNotSetUp ↔
   mediaStreamDest m = None) ∧
  outcome (export m settings scheduler env) ≠ Rejected RangeError ∧
  ∀ dest : nat,
    let r := export (setRecordingDestination m dest) settings scheduler env in
    outcome r = Pending ∨ outcome r = Rejected NoAudioRecorded ∨
    outcome r = Rejected ZipFolderFailed ∨ ∃ blob, outcome r = Resolved blob.
Proof.
  assert (Hbound : ∀ (m' : Manager) (dest : nat),
            mediaStreamDest m' = Some dest →
            let r := export m' settings scheduler env in
            outcome r = Pending ∨ outcome r = Rejected NoAudioRecorded ∨
            outcome r = Rejected ZipFolderFailed ∨ ∃ blob, outcome r = Resolved blob).
  { intros m' dest Hdest. cbv zeta.
    destruct (export_unfold m' settings scheduler env dest Hdest)
      as (m'' & acts & resolved & post & _ & _ & Hep).
    destruct Hep; eauto 10. }
  split; [split|split].
  - intros Hout. destruct (mediaStreamDest m) as [dest|] eqn:Hdest; [|done].
    destruct (Hbound m dest Hdest) as [H|[H|[H|[blob H]]]]; congruence.
  - intros Hdest. by rewrite export_not_ready.
  - destruct (mediaStreamDest m) as [dest|] eqn:Hdest.
    + destruct (Hbound m dest Hdest) as [H|[H|[H|[blob H]]]]; congruence.
    + by rewrite export_not_ready.
  - intros dest. by apply (Hbound _ dest).
Qed.

End ExportManagerMore.

(** ** Binary64 arithmetic *)

Module Binary64Props.
Import JS NumberProps Binary64.

Lemma nearest_even_nonneg (n d : Z) : 0 ≤ n → 0 < d → 0 ≤ nearest_even n d.
Proof.
  intros Hn Hd. unfold nearest_even.
  assert (0 ≤ n / d) by (apply Z.div_pos; lia).
  destruct (_ ?= _); [destruct (Z.even _)|..]; lia.
Qed.

(** Rounding keeps the sign. *)
Lemma round_sign (q : Q) :
  match round q with
  | Fin r => ((0 <= q)%Q → (0 <= r)%Q) ∧ ((q <= 0)%Q → (r <= 0)%Q)
  | PosInf => (0 < q)%Q
  | NegInf => (q < 0)%Q
  | NaN => False
  end.
Proof.
  unfold round. destruct q as [a b]. cbn [Qnum Qden].
  destruct (Z.abs a =? 0) eqn:Hzero.
  { apply Z.eqb_eq in Hzero. split; intros _; unfold Qle; cbn; lia. }
  apply Z.eqb_neq in Hzero.
  set (e := Z.max (ilog2 (Z.abs a) (Z.pos b)) (-1022)).
  set (m := if 0 <=? e - 52
            then nearest_even (Z.abs a) (Z.pos b * 2 ^ (e - 52))
            else nearest_even (Z.abs a * 2 ^ (- (e - 52))) (Z.pos b)).
  assert (Hm : 0 ≤ m).
  { subst m. destruct (0 <=? e - 52) eqn:Hulp.
    - apply Z.leb_le in Hulp. apply nearest_even_nonneg; [lia|].
      apply Z.mul_pos_pos; [lia|]. by apply Z.pow_pos_nonneg.
    - apply Z.leb_gt in Hulp. apply nearest_even_nonneg; [|lia].
      apply Z.mul_nonneg_nonneg; [lia|]. apply Z.pow_nonneg. lia. }
  destruct ((0 <=? e - 52) && _) eqn:Hover.
  { destruct (a <? 0) eqn:Hneg.
    - apply Z.ltb_lt in Hneg. unfold Qlt. cbn. lia.
    - apply Z.ltb_ge in Hneg. unfold Qlt. cbn. lia. }
  clear Hover.
  set (x := if 0 <=? e - 52 then inject_Z (Z.sgn a * m * 2 ^ (e - 52))
            else Z.sgn a * m # Z.to_pos (2 ^ (- (e - 52)))).
  assert (Hx : (0 ≤ a → (0 <= x)%Q) ∧ (a ≤ 0 → (x <= 0)%Q)).
  { subst x. destruct (0 <=? e - 52) eqn:Hulp.
    - apply Z.leb_le in Hulp.
      assert (0 < 2 ^ (e - 52)) by (by apply Z.pow_pos_nonneg).
      split; intros Ha; unfold Qle, inject_Z; cbn; nia.
    - split; intros Ha; unfold Qle; cbn; nia. }
  destruct Hx as [Hpos Hneg].
  split; intros Hq; rewrite Qred_correct.
  - apply Hpos. unfold Qle in Hq. cbn in Hq. lia.
  - apply Hneg. unfold Qle in Hq. cbn in Hq. lia.
Qed.

(** The values of some roundings: 0.1; the integers after 2^53, the
    even neighbour when two are equally near; the smallest subnormal and
    half of it; the largest finite number and the first to overflow. *)
Example round_values :
  round (1 # 10) = Fin (3602879701896397 # 36028797018963968) ∧
  round (inject_Z (2 ^ 53 + 1)) = of_Z (2 ^ 53) ∧
  round (inject_Z (2 ^ 53 + 3)) = of_Z (2 ^ 53 + 4) ∧
  round (1 # Z.to_pos (2 ^ 1074)) = Fin (1 # Z.to_pos (2 ^ 1074)) ∧
  round (1 # Z.to_pos (2 ^ 1075)) = Fin 0 ∧
  round (inject_Z (2 ^ 1024 - 2 ^ 971)) = of_Z (2 ^ 1024 - 2 ^ 971) ∧
  round (inject_Z (2 ^ 1024 - 2 ^ 970)) = PosInf ∧
  round (- inject_Z (2 ^ 1024)) = NegInf.
Proof. repeat split; vm_compute; reflexivity. Qed.

Lemma Qred_integer (z : Z) : Qred (inject_Z z) = inject_Z z.
Proof.
  unfold Qred, inject_Z.
  pose proof (Z.ggcd_gcd z 1) as Hgcd.
  pose proof (Z.ggcd_correct_divisors z 1) as Hdiv.
  destruct (Z.ggcd z 1) as [g [a b]]. cbn [fst snd] in *.
  rewrite Z.gcd_1_r in Hgcd. subst g. destruct Hdiv as [Ha Hb].
  replace a with z by lia. by replace b with 1 by lia.
Qed.

(** An integer of at most 53 bits is a binary64 value. *)
Lemma round_integer (z : Z) :
  Z.abs z ≤ 2 ^ 53 → round (inject_Z z) = of_Z z.
Proof.
  intros Hz. unfold round, of_Z. cbn [Qnum Qden inject_Z].
  destruct (Z.abs z =? 0) eqn:Hzero.
  { apply Z.eqb_eq in Hzero. by replace z with 0 by lia. }
  apply Z.eqb_neq in Hzero.
  assert (Hn : 0 < Z.abs z) by lia.
  pose proof (Z.log2_spec (Z.abs z) Hn) as [Hlow Hhigh].
  pose proof (Z.log2_nonneg (Z.abs z)) as Hnonneg.
  assert (Hlog : ilog2 (Z.abs z) 1 = Z.log2 (Z.abs z)).
  { unfold ilog2. change (Z.log2 1) with 0. rewrite Z.sub_0_r.
    destruct (0 <=? Z.log2 (Z.abs z)) eqn:He; [|apply Z.leb_gt in He; lia].
    destruct (Z.abs z <? 1 * 2 ^ Z.log2 (Z.abs z)) eqn:Hlt; [|done].
    apply Z.ltb_lt in Hlt. lia. }
  rewrite Hlog. set (e := Z.log2 (Z.abs z)) in *.
  assert (He : e ≤ 53).
  { destruct (Z_le_gt_dec e 53) as [|Hgt]; [done|].
    assert (2 ^ 54 ≤ 2 ^ e) by (apply Z.pow_le_mono_r; lia). lia. }
  rewrite Z.max_l by lia.
  assert (Hsign : Z.sgn z * Z.abs z = z) by lia.
  destruct (0 <=? e - 52) eqn:Hulp.
  - apply Z.leb_le in Hulp.
    assert (Hexact : nearest_even (Z.abs z) (1 * 2 ^ (e - 52)) * 2 ^ (e - 52)
                     = Z.abs z).
    { assert (He' : e = 52 ∨ e = 53) by lia. destruct He' as [He'|He'].
      - rewrite He'. change (1 * 2 ^ (52 - 52)) with 1. change (2 ^ (52 - 52)) with 1.
        unfold nearest_even. rewrite Z.mod_1_r, Z.div_1_r.
        change (2 * 0 ?= 1) with Lt. cbv iota. lia.
      - rewrite He' in *. change (1 * 2 ^ (53 - 52)) with 2.
        change (2 ^ (53 - 52)) with 2.
        assert (Habs : Z.abs z = 2 ^ 53) by lia. rewrite Habs.
        vm_compute. reflexivity. }
    destruct (_ && _) eqn:Hover.
    { apply andb_true_iff in Hover as [_ Hover]. apply Z.leb_le in Hover.
      rewrite Hexact in Hover.
      assert (2 ^ 53 < 2 ^ 1024) by (apply Z.pow_lt_mono_r; lia). lia. }
    rewrite <- Z.mul_assoc, Hexact, Hsign. by rewrite Qred_integer.
  - apply Z.leb_gt in Hulp. cbn [andb].
    assert (Hpow : 0 < 2 ^ (- (e - 52))) by (apply Z.pow_pos_nonneg; lia).
    assert (Hm : nearest_even (Z.abs z * 2 ^ (- (e - 52))) 1
                 = Z.abs z * 2 ^ (- (e - 52))).
    { unfold nearest_even. rewrite Z.mod_1_r, Z.div_1_r.
      change (2 * 0 ?= 1) with Lt. reflexivity. }
    rewrite Hm. rewrite <- (Qred_integer z). f_equal. apply Qred_complete.
    unfold Qeq. cbn [Qnum Qden inject_Z]. rewrite Z2Pos.id by done. nia.
Qed.

Lemma same_refl (a : number) : same a a.
Proof. destruct a; cbn; [reflexivity | done..]. Qed.

(** Scaling by 1000 and cutting off at zero can be done in either order. *)
Lemma scale_clamped (w : number) :
  same (Math_max (of_Z 0) (mul w (of_Z 1000)))
       (mul (Math_max (of_Z 0) w) (of_Z 1000)).
Proof.
  destruct w as [q| | |]; [|vm_compute; done..].
  pose proof (round_sign (q * inject_Z 1000)) as Hsign.
  unfold mul, of_Z. cbn [JS.mul rounded Math_max lt].
  destruct (Qltb (inject_Z 0) q) eqn:Hq; cbn [JS.mul rounded].
  - apply Qltb_lt in Hq.
    destruct (round (q * inject_Z 1000)) as [r| | |]; cbn [Math_max lt same].
    + destruct Hsign as [Hpos _].
      destruct (Qltb (inject_Z 0) r) eqn:Hr; cbn [same]; [reflexivity|].
      apply Qltb_ge in Hr.
      assert (0 <= r)%Q by (apply Hpos; unfold inject_Z in *; nra).
      unfold inject_Z in *. lra.
    + done.
    + unfold inject_Z in *. nra.
    + done.
  - apply Qltb_ge in Hq.
    change (round (inject_Z 0 * inject_Z 1000)) with (Fin 0).
    destruct (round (q * inject_Z 1000)) as [r| | |]; cbn [Math_max lt same].
    + destruct Hsign as [_ Hneg].
      assert (r <= 0)%Q by (apply Hneg; unfold inject_Z in *; nra).
      destruct (Qltb (inject_Z 0) r) eqn:Hr; cbn [same].
      * apply Qltb_lt in Hr. unfold inject_Z in *. lra.
      * reflexivity.
    + unfold inject_Z in *. nra.
    + reflexivity.
    + done.
Qed.

(** [nearest_even n d] is within a half of [n / d]. *)
Lemma nearest_even_near (n d : Z) :
  0 ≤ n → 0 < d → 2 * Z.abs (nearest_even n d * d - n) ≤ d.
Proof.
  intros Hn Hd. unfold nearest_even.
  assert (Hdiv : n = d * (n / d) + n mod d) by (apply Z.div_mod; lia).
  pose proof (Z.mod_pos_bound n d Hd) as Hmod.
  generalize dependent (n mod d). generalize dependent (n / d).
  intros q r Hdiv Hmod.
  assert (Hlow : q * d - n = - r) by lia.
  assert (Hhigh : (q + 1) * d - n = d - r) by lia.
  destruct (Z.compare_spec (2 * r) d) as [Hcmp|Hcmp|Hcmp].
  - destruct (Z.even q); [rewrite Hlow | rewrite Hhigh]; lia.
  - rewrite Hlow. lia.
  - rewrite Hhigh. lia.
Qed.

(** [nearest_even] is monotone in the numerator. *)
Lemma nearest_even_mono (n n' d : Z) :
  0 < d → n ≤ n' → nearest_even n d ≤ nearest_even n' d.
Proof.
  intros Hd Hle. unfold nearest_even.
  assert (Hn : n = d * (n / d) + n mod d) by (apply Z.div_mod; lia).
  pose proof (Z.mod_pos_bound n d Hd) as Hnm.
  assert (Hn' : n' = d * (n' / d) + n' mod d) by (apply Z.div_mod; lia).
  pose proof (Z.mod_pos_bound n' d Hd) as Hnm'.
  assert (Hq : n / d ≤ n' / d) by (apply Z.div_le_mono; lia).
  generalize dependent (n mod d). generalize dependent (n / d).
  generalize dependent (n' mod d). generalize dependent (n' / d).
  intros q' r' Hn' Hnm' q Hq r Hn Hnm.
  destruct (Z.eq_dec q q') as [<-|Hneq].
  - assert (Hr : r ≤ r') by lia.
    destruct (Z.compare_spec (2 * r) d); destruct (Z.compare_spec (2 * r') d);
      destruct (Z.even q); lia.
  - destruct (Z.compare_spec (2 * r) d); destruct (Z.compare_spec (2 * r') d);
      destruct (Z.even q); destruct (Z.even q'); lia.
Qed.

(** [ilog2 n d] is the exponent of the power of two at or below [n / d]. *)
Lemma ilog2_spec (n d : Z) :
  0 < n → 0 < d →
  (0 ≤ ilog2 n d → d * 2 ^ ilog2 n d ≤ n < d * 2 ^ (ilog2 n d + 1)) ∧
  (ilog2 n d < 0 →
   d ≤ n * 2 ^ (- ilog2 n d) ∧ n * 2 ^ (- ilog2 n d) < 2 * d).
Proof.
  intros Hn Hd. unfold ilog2.
  pose proof (Z.log2_spec n Hn) as [Hn1 Hn2].
  pose proof (Z.log2_spec d Hd) as [Hd1 Hd2].
  pose proof (Z.log2_nonneg n) as Ha. pose proof (Z.log2_nonneg d) as Hb.
  set (a := Z.log2 n) in *. set (b := Z.log2 d) in *.
  rewrite <- !Z.add_1_r in *.
  rewrite Z.pow_add_r in Hn2, Hd2 by lia. change (2 ^ 1) with 2 in *.
  destruct (0 <=? a - b) eqn:He0.
  - apply Z.leb_le in He0.
    assert (Hab : 2 ^ a = 2 ^ b * 2 ^ (a - b))
      by (rewrite <- Z.pow_add_r by lia; f_equal; lia).
    assert (0 < 2 ^ (a - b)) by (apply Z.pow_pos_nonneg; lia).
    assert (0 < 2 ^ b) by (apply Z.pow_pos_nonneg; lia).
    destruct (n <? d * 2 ^ (a - b)) eqn:Hlt.
    + apply Z.ltb_lt in Hlt. split.
      * intros He. replace (a - b - 1 + 1) with (a - b) by lia.
        split; [|done].
        assert (Hpow : 2 ^ (a - b) = 2 * 2 ^ (a - b - 1)).
        { replace (a - b) with (1 + (a - b - 1)) at 1 by lia.
          by rewrite Z.pow_add_r by lia. }
        nia.
      * intros He. assert (Hzero : a - b = 0) by lia. rewrite Hzero in *.
        replace (- (0 - 1)) with 1 by lia. change (2 ^ 1) with 2.
        change (2 ^ 0) with 1 in *. nia.
    + apply Z.ltb_ge in Hlt. split; [|lia].
      intros _. rewrite Z.pow_add_r by lia. change (2 ^ 1) with 2. nia.
  - apply Z.leb_gt in He0.
    assert (Hab : 2 ^ b = 2 ^ a * 2 ^ (- (a - b)))
      by (rewrite <- Z.pow_add_r by lia; f_equal; lia).
    assert (0 < 2 ^ (- (a - b))) by (apply Z.pow_pos_nonneg; lia).
    assert (0 < 2 ^ a) by (apply Z.pow_pos_nonneg; lia).
    destruct (n * 2 ^ (- (a - b)) <? d) eqn:Hlt.
    + apply Z.ltb_lt in Hlt. split; [lia|]. intros _.
      replace (- (a - b - 1)) with (- (a - b) + 1) by lia.
      rewrite Z.pow_add_r by lia. change (2 ^ 1) with 2. nia.
    + apply Z.ltb_ge in Hlt. split; [lia|]. intros _. nia.
Qed.

End Binary64Props.

(** ** The export manager on binary64 numbers *)

Module ExportManager64Props.
Import JS WavEncoder ExportManager ExportNotions.
Import NumberProps ExportManagerProps ExportManagerMore Binary64Props.
Import ExportManager64 ExportSpec64.

(** *** The shape of a call *)

Lemma checkProgress64_run st d cy (later : list (list RecorderEvent * Z)) :
  ∀ (m : Manager) (dateNow : Z), ∃ (k : nat) (earlier : list Z) (final : Z),
    dateNow :: take k (map snd later) = earlier ++ [final] ∧
    Forall (λ t, ge (elapsed st t) d = false) earlier ∧
    (ge (elapsed st final) d = false → k = length later) ∧
    checkProgress st d cy m dateNow later =
      (foldl deliver m (concat (map fst (take k later))),
       map (λ t, Report (progress_at st d cy t)) (earlier ++ [final]),
       ge (elapsed st final) d).
Proof.
  induction later as [|[events t] later IH]; intros m dateNow; cbn [checkProgress].
  - exists 0%nat, [], dateNow. split; [done|]. split; [constructor|].
    split; [done|]. by destruct (ge _ _).
  - destruct (ge (elapsed st dateNow) d) eqn:Hnow.
    + exists 0%nat, [], dateNow. split; [done|]. split; [constructor|].
      rewrite Hnow. by split.
    + destruct (IH (foldl deliver m events) t)
        as (k & earlier & final & Hpolled & Hearlier & Hend & ->).
      exists (S k), (dateNow :: earlier), final.
      cbn [take map snd fst concat]. rewrite Hpolled. split; [done|].
      split; [by constructor|].
      split; [intros Hfinal; cbn [length]; by rewrite (Hend Hfinal)|].
      by rewrite foldl_app.
Qed.

Lemma export64_not_ready (m : Manager) settings scheduler env :
  mediaStreamDest m = None →
  export m settings scheduler env =
  {| manager := m; trace := [Report (snapshot Preparing 0)];
     outcome := Rejected TapNotSetUp |}.
Proof. intros Hdest. unfold export. by rewrite Hdest. Qed.

Lemma export64_unfold (m : Manager) settings scheduler env (dest : nat) :
  mediaStreamDest m = Some dest →
  ∃ m' acts resolved post,
    checkProgress (startTime env) (durationMs settings scheduler)
      (cycles settings) (recording_manager m dest)
      (firstFrame env) (frames env) = (m', acts, resolved) ∧
    trace (export m settings scheduler env) =
      prelude settings scheduler ++ acts ++ post ∧
    epilogue m' settings env resolved post
      (outcome (export m settings scheduler env)).
Proof.
  intros Hdest. unfold export. rewrite Hdest.
  destruct (checkProgress _ _ _ _ _ _) as [[m' acts] resolved].
  exists m', acts, resolved.
  destruct resolved; cbn [negb].
  - destruct (stopRecording m' env) as [[m'' sacts] [audioBuffer|]] eqn:Hstop.
    + pose proof (WavEncoderProps.encodeWav_layout audioBuffer) as Henc.
      rewrite Henc.
      destruct (zip_folder env _) as [dir|] eqn:Hzip; eexists;
        (split; [reflexivity|]); cbn [trace outcome];
        rewrite <- ?app_assoc; (split; [reflexivity|]).
      * by eapply bundled.
      * by eapply no_folder.
    + eexists. split; [reflexivity|]. cbn [trace outcome].
      rewrite <- ?app_assoc. split; [reflexivity|]. by eapply no_audio.
  - exists []. split; [reflexivity|]. cbn [trace outcome].
    rewrite app_nil_r. split; [reflexivity | constructor].
Qed.

Lemma export64_manager (m : Manager) settings scheduler env (dest : nat) :
  mediaStreamDest m = Some dest →
  let polling := checkProgress (startTime env) (durationMs settings scheduler)
                   (cycles settings) (recording_manager m dest)
                   (firstFrame env) (frames env) in
  manager (export m settings scheduler env) =
  if polling.2 then (stopRecording polling.1.1 env).1.1 else polling.1.1.
Proof.
  intros Hdest. cbv zeta. unfold export. rewrite Hdest.
  destruct (checkProgress _ _ _ _ _ _) as [[m' acts] resolved].
  destruct resolved; cbn [negb fst snd]; [|done].
  destruct (stopRecording m' env) as [[m'' sacts] [audioBuffer|]]; [|done].
  rewrite (WavEncoderProps.encodeWav_layout audioBuffer).
  by destruct (zip_folder env _).
Qed.

(** The whole of a call whose destination is bound. *)
Lemma export64_run (m : Manager) settings scheduler env (dest : nat) :
  mediaStreamDest m = Some dest →
  ∃ (k : nat) (earlier : list Z) (final : Z) (post : list Action),
    let polled := foldl deliver (recording_manager m dest)
                    (concat (map fst (take k (frames env)))) in
    let resolved := ge (elapsed (startTime env) final)
                       (durationMs settings scheduler) in
    firstFrame env :: take k (map snd (frames env)) = earlier ++ [final] ∧
    Forall (λ t, ge (elapsed (startTime env) t) (durationMs settings scheduler)
                 = false) earlier ∧
    (resolved = false → k = length (frames env)) ∧
    trace (export m settings scheduler env) =
      prelude settings scheduler ++
      map (λ t, Report (progress_at (startTime env) (durationMs settings scheduler)
                          (cycles settings) t)) (earlier ++ [final]) ++
      post ∧
    epilogue polled settings env resolved post
      (outcome (export m settings scheduler env)) ∧
    manager (export m settings scheduler env) =
      if resolved then (stopRecording polled env).1.1 else polled.
Proof.
  intros Hdest.
  destruct (checkProgress64_run (startTime env) (durationMs settings scheduler)
              (cycles settings) (frames env) (recording_manager m dest)
              (firstFrame env))
    as (k & earlier & final & Hpolled & Hearlier & Hend & Hrun).
  destruct (export64_unfold m settings scheduler env dest Hdest)
    as (m' & acts & resolved & post & Hloop & Htrace & Hep).
  pose proof (export64_manager m settings scheduler env dest Hdest) as Hman.
  cbv zeta in Hman. rewrite Hrun in Hloop, Hman. cbn [fst snd] in Hman.
  injection Hloop as <- <- <-.
  exists k, earlier, final, post. cbv zeta. done.
Qed.

Lemma reports_polling64 st d cy (ts : list Z) :
  reports (map (λ t, Report (progress_at st d cy t)) ts) =
  map (progress_at st d cy) ts.
Proof. induction ts as [|t ts IH]; cbn; [done | by rewrite <- IH]. Qed.

Lemma reports_prelude settings scheduler :
  reports (prelude settings scheduler) =
  [snapshot Preparing 0; recording_snapshot (of_Z 0) (of_Z 0) (cycles settings)].
Proof. reflexivity. Qed.

(** A call whose last polled frame has not reached the duration has
    polled every frame there is. *)
Lemma polled_to_the_end (P : Z → Prop) (first : Z) (readings earlier : list Z)
    (final : Z) (k : nat) :
  first :: take k readings = earlier ++ [final] →
  Forall P earlier → P final → k = length readings →
  Forall P (first :: readings).
Proof.
  intros Hpolled Hearlier Hfinal ->. rewrite firstn_all in Hpolled.
  rewrite Hpolled. apply Forall_app. split; [done | by constructor].
Qed.

(** The loop resolves exactly when a frame reads the clock late enough. *)
Lemma export64_resolves (settings : ExportSettings) scheduler env
    (earlier : list Z) (final : Z) (k : nat) :
  firstFrame env :: take k (map snd (frames env)) = earlier ++ [final] →
  Forall (λ t, ge (elapsed (startTime env) t) (durationMs settings scheduler)
               = false) earlier →
  (ge (elapsed (startTime env) final) (durationMs settings scheduler) = false →
   k = length (frames env)) →
  ge (elapsed (startTime env) final) (durationMs settings scheduler) = true ↔
  duration_elapses settings scheduler env.
Proof.
  intros Hpolled Hearlier Hend. unfold duration_elapses. split.
  - intros Hfinal. apply Exists_exists. exists final. split; [|done].
    assert (Hin : In final (firstFrame env :: take k (map snd (frames env))))
      by (rewrite Hpolled; apply in_or_app; right; by left).
    apply list_elem_of_In.
    destruct Hin as [->|Hin]; [by left|]. right.
    rewrite <- (take_drop k (map snd (frames env))). apply in_or_app. by left.
  - intros Hreach.
    destruct (ge (elapsed (startTime env) final) (durationMs settings scheduler))
      eqn:Hfinal; [done|].
    pose proof (polled_to_the_end _ _ (map snd (frames env)) _ _ _
                  Hpolled Hearlier Hfinal) as Hall.
    rewrite length_map in Hall. specialize (Hall (Hend eq_refl)).
    apply Exists_exists in Hreach as (t & Ht & Hlate).
    rewrite Forall_forall in Hall. specialize (Hall t Ht). cbv beta in Hall.
    congruence.
Qed.

Lemma captured_no_data (events : list RecorderEvent) :
  Forall (λ e, is_data e = false) events → captured events = [].
Proof.
  induction 1 as [|e events He _ IH]; [done|].
  destruct e as [[|b data]| |]; cbn in *; done.
Qed.

Lemma consumed_events (frames : list (list RecorderEvent * Z)) (k : nat)
    (P : RecorderEvent → Prop) :
  Forall P (concat (map fst frames)) →
  Forall P (concat (map fst (take k frames))).
Proof.
  intros Hall. rewrite <- (take_drop k frames) in Hall.
  rewrite map_app, concat_app in Hall. by apply Forall_app in Hall as [? _].
Qed.

(** The snapshots of a call that ends without audio. *)
Lemma reports_without_audio (settings : ExportSettings) scheduler st d
    (ts : list Z) (post : list Action) :
  reports post = [snapshot Encoding 50] →
  ∃ polled,
    reports (prelude settings scheduler ++
             map (λ t, Report (progress_at st d (cycles settings) t)) ts ++ post) =
      [snapshot Preparing 0; recording_snapshot (of_Z 0) (of_Z 0) (cycles settings)]
      ++ polled ++ [snapshot Encoding 50] ∧
    Forall (λ p, phase p = Recording) polled.
Proof.
  intros Hpost. exists (map (progress_at st d (cycles settings)) ts). split.
  - unfold reports in *. rewrite !omap_app, Hpost.
    fold (reports (map (λ t, Report (progress_at st d (cycles settings) t)) ts)).
    by rewrite reports_polling64.
  - apply Forall_forall. intros p Hp.
    apply list_elem_of_In, in_map_iff in Hp. by destruct Hp as (t & <- & _).
Qed.

(** *** Calls that end without audio *)

(** C4, as the code has it.  When the recorder raises no data event and
    some frame reads the clock at or after the target duration, [export]
    rejects with 'No audio recorded'; the WAV encoder and the bundling
    are not reached, but one Encoding snapshot, at 50, is reported just
    before the rejection, and it is the last one. *)
Theorem empty_capture_rejected (m : Manager) settings scheduler env (dest : nat) :
  mediaStreamDest m = Some dest →
  Forall (λ e, is_data e = false) (recorder_events env) →
  duration_elapses settings scheduler env →
  let r := export m settings scheduler env in
  outcome r = Rejected NoAudioRecorded ∧
  ∃ polled,
    reports (trace r) =
      [snapshot Preparing 0; recording_snapshot (of_Z 0) (of_Z 0) (cycles settings)]
      ++ polled ++ [snapshot Encoding 50] ∧
    Forall (λ p, phase p = Recording) polled.
Proof.
  intros Hdest Hsilent Helapses. cbv zeta.
  destruct (export64_run m settings scheduler env dest Hdest)
    as (k & earlier & final & post & Hpolled & Hearlier & Hend & -> & Hep & _).
  cbv zeta in Hend, Hep.
  apply (export64_resolves settings scheduler env earlier final k Hpolled
           Hearlier Hend) in Helapses.
  rewrite Helapses in Hep.
  unfold recorder_events in Hsilent. apply Forall_app in Hsilent as [Hframes Hflush].
  assert (Hnone : (stopRecording
                     (foldl deliver (recording_manager m dest)
                        (concat (map fst (take k (frames env))))) env).2 = None).
  { apply stopRecording_no_chunks; [|done].
    rewrite deliver_chunks. cbn [recording_manager chunks app].
    by apply captured_no_data, consumed_events. }
  destruct (epilogue_no_audio _ _ _ _ _ Hep Hnone) as [-> Hpost].
  split; [done|]. by apply reports_without_audio.
Qed.

Lemma empty_capture_rejected_witness :
  outcome (export Examples.ready Examples.two_cycles Examples64.half_speed
             Examples.silent_recorder) = Rejected NoAudioRecorded.
Proof.
  apply (empty_capture_rejected Examples.ready Examples.two_cycles
           Examples64.half_speed Examples.silent_recorder 0%nat).
  - reflexivity.
  - repeat constructor.
  - apply Exists_cons_tl, Exists_cons_tl, Exists_cons_hd. vm_compute. reflexivity.
Defined.

(** With an empty capture an Encoding snapshot is reported all the same. *)
Lemma empty_capture_reaches_encoding :
  let r := export Examples.ready Examples.two_cycles Examples64.half_speed
             Examples.silent_recorder in
  Forall (λ e, is_data e = false) (recorder_events Examples.silent_recorder) ∧
  outcome r = Rejected NoAudioRecorded ∧
  In (snapshot Encoding 50) (reports (trace r)).
Proof.
  cbv zeta. split; [constructor|]. split; [vm_compute; reflexivity|].
  vm_compute. auto 10.
Qed.

(** C5, as the code has it.  When the decoder of the context rejects the
    concatenation of the fragments that the call has captured, and some
    frame reads the clock at or after the target duration, the rejection
    is caught and turned into null, and [export] rejects with 'No audio
    recorded', the error of an empty capture, after the Encoding snapshot
    at 50. *)
Theorem decode_failure_rejected (m : Manager) settings scheduler env (dest : nat) :
  mediaStreamDest m = Some dest →
  duration_elapses settings scheduler env →
  let r := export m settings scheduler env in
  decodeAudioData (context m) (concat (chunks (manager r))) = None →
  outcome r = Rejected NoAudioRecorded ∧
  ∃ polled,
    reports (trace r) =
      [snapshot Preparing 0; recording_snapshot (of_Z 0) (of_Z 0) (cycles settings)]
      ++ polled ++ [snapshot Encoding 50] ∧
    Forall (λ p, phase p = Recording) polled.
Proof.
  intros Hdest Helapses. cbv zeta.
  destruct (export64_run m settings scheduler env dest Hdest)
    as (k & earlier & final & post & Hpolled & Hearlier & Hend & -> & Hep & ->).
  cbv zeta in Hend, Hep.
  apply (export64_resolves settings scheduler env earlier final k Hpolled
           Hearlier Hend) in Helapses.
  rewrite Helapses in *.
  set (polled := foldl deliver (recording_manager m dest)
                   (concat (map fst (take k (frames env))))) in *.
  intros Hdecoder.
  assert (Hnone : (stopRecording polled env).2 = None).
  { destruct (deliver_fields (concat (map fst (take k (frames env))))
                (recording_manager m dest)) as (Hctx & _ & _).
    fold polled in Hctx. cbn [recording_manager context] in Hctx.
    destruct (stopRecording_cases polled env)
      as [[_ Hstop]|[_ (m' & Hstop & _)]]; rewrite Hstop in *; [done|].
    cbn [fst snd] in *. rewrite Hctx.
    destruct (chunks m'); [done | exact Hdecoder]. }
  destruct (epilogue_no_audio _ _ _ _ _ Hep Hnone) as [-> Hpost].
  split; [done|]. by apply reports_without_audio.
Qed.

Lemma decode_failure_rejected_witness :
  outcome (export Examples.ready_bad_decoder Examples.two_cycles
             Examples64.half_speed Examples.working_recorder)
  = Rejected NoAudioRecorded.
Proof.
  apply (decode_failure_rejected Examples.ready_bad_decoder Examples.two_cycles
           Examples64.half_speed Examples.working_recorder 0%nat).
  - reflexivity.
  - apply Exists_cons_tl, Exists_cons_tl, Exists_cons_hd. vm_compute. reflexivity.
  - reflexivity.
Defined.

(** A capture that the decoder rejects and an empty capture are rejected
    with one and the same error. *)
Lemma decode_failure_not_distinct :
  Exists (λ e, is_data e = true) (recorder_events Examples.working_recorder) ∧
  outcome (export Examples.ready_bad_decoder Examples.two_cycles
             Examples64.half_speed Examples.working_recorder) =
  outcome (export Examples.ready Examples.two_cycles
             Examples64.half_speed Examples.silent_recorder).
Proof. split; [by constructor | vm_compute; reflexivity]. Qed.

(** *** The wait for the cycle boundary *)

(** C7, as the code has it.  The second thing a call does, after its
    Preparing snapshot and before the recorder is started, is to wait
    [max (0, waitTime * 1000)] milliseconds, with
    [waitTime = (ceil current - current) * cyclePeriod],
    [current = now()] and [cyclePeriod = 1 / cps], every operation
    rounded to binary64: that is 1000 times
    [max (0, (ceil current - current) * cyclePeriod)] seconds.  At
    [cps = 0.5] and [now() = 2.3] the wait computed is
    1.4000000000000004 seconds, which is 1.4 within 4e-16 and not 1.4,
    and the delay 1400.0000000000005 milliseconds. *)
Theorem boundary_wait_computed (m : Manager) settings scheduler env (dest : nat) :
  mediaStreamDest m = Some dest →
  (∃ ms : number,
     trace (export m settings scheduler env) !! 1%nat = Some (SetTimeout ms) ∧
     Binary64.same ms
       (Binary64.mul (boundary_wait (now scheduler) (effective_cps scheduler))
                     (of_Z 1000))) ∧
  trace (export m settings scheduler env) !! 3%nat = Some (RecorderStart 100) ∧
  ∃ w : Q,
    boundary_wait (Binary64.round (23 # 10)) (Binary64.round (1 # 2)) = Fin w ∧
    (w == 788129934789837 # 562949953421312)%Q ∧
    (14 # 10 < w)%Q ∧ (w - (14 # 10) < 4 # 10 ^ 16)%Q ∧
    Binary64.mul (Fin w) (of_Z 1000) = Fin (3078632557772801 # 2199023255552).
Proof.
  intros Hdest.
  destruct (export64_unfold m settings scheduler env dest Hdest)
    as (m' & acts & resolved & post & _ & -> & _).
  split; [|split; [done|]].
  - rewrite lookup_app_l by (cbn; lia). cbn [prelude lookup list_lookup].
    eexists. split; [reflexivity|]. apply scale_clamped.
  - eexists. split; [vm_compute; reflexivity|].
    split; [reflexivity|]. split; [reflexivity|]. split; [reflexivity|].
    vm_compute. reflexivity.
Qed.

Lemma boundary_wait_computed_witness :
  ∃ ms : number,
    trace (export Examples.ready Examples.two_cycles Examples64.half_speed
             Examples.working_recorder) !! 1%nat = Some (SetTimeout ms) ∧
    Binary64.same ms (Fin (3078632557772801 # 2199023255552)).
Proof.
  destruct (boundary_wait_computed Examples.ready Examples.two_cycles
              Examples64.half_speed Examples.working_recorder 0%nat eq_refl)
    as ((ms & Hwait & Hms) & _ & _).
  exists ms. split; [exact Hwait|].
  assert (Hvalue : Binary64.mul
                     (boundary_wait (now Examples64.half_speed)
                                    (effective_cps Examples64.half_speed))
                     (of_Z 1000) = Fin (3078632557772801 # 2199023255552))
    by (vm_compute; reflexivity).
  rewrite Hvalue in Hms. exact Hms.
Defined.

(** At [cps = 0.5] and [now() = 2.3] the wait computed is not 1.4
    seconds, and the delay is not 1400 milliseconds. *)
Lemma boundary_wait_not_exact :
  ∃ w ms : Q,
    waitTime Examples64.half_speed = Fin w ∧
    ¬ (w == 14 # 10)%Q ∧
    trace (export Examples.ready Examples.two_cycles Examples64.half_speed
             Examples.working_recorder) !! 1%nat = Some (SetTimeout (Fin ms)) ∧
    ¬ (ms == 1400)%Q.
Proof.
  eexists. eexists. split; [vm_compute; reflexivity|].
  split; [discriminate|]. split; [vm_compute; reflexivity | discriminate].
Qed.

(** *** When a call settles, and what it returns *)

(** Three cycles at 2.5 cycles per second last 1200.0000000000002
    milliseconds as the engine computes them, so a frame 1200 ms after the
    start does not end the polling. *)
Example duration_rounded :
  durationMs Examples64.three_cycles Examples64.fast =
    Fin (5277655813324801 # 4398046511104) ∧
  ge (elapsed 1000 2200) (durationMs Examples64.three_cycles Examples64.fast)
    = false ∧
  outcome (export Examples.ready Examples64.three_cycles Examples64.fast
             Examples64.one_frame) = Pending.
Proof. repeat split; vm_compute; reflexivity. Qed.

(** X13.  When a call of [export] resolves, the polling loop stopped at
    the first clock reading at or after the target duration, as the
    engine computes and compares them; the recorder had not become
    inactive by then; the fragments left in [chunks] are
    the non-empty data delivered up to that frame and after
    [recorder.stop()], in order, and there is at least one; the archive
    holds one file, [mix.wav], in the folder created under the sanitized
    session name, and the file is the WAV encoding of what the context's
    decoder made of the concatenated fragments. *)
Theorem resolved_archive (m : Manager) settings scheduler env (dest : nat)
    (blob : Archive) :
  mediaStreamDest m = Some dest →
  outcome (export m settings scheduler env) = Resolved blob →
  ∃ (k : nat) (earlier : list Z) (final : Z) (audioBuffer : AudioBuffer),
    let consumed := concat (map fst (take k (frames env))) in
    let fragments := captured (consumed ++ flush env) in
    firstFrame env :: take k (map snd (frames env)) = earlier ++ [final] ∧
    Forall (λ t, ge (elapsed (startTime env) t) (durationMs settings scheduler)
                 = false) earlier ∧
    ge (elapsed (startTime env) final) (durationMs settings scheduler) = true ∧
    ¬ In BecameInactive consumed ∧
    chunks (manager (export m settings scheduler env)) = fragments ∧
    fragments ≠ [] ∧
    decodeAudioData (context m) (concat fragments) = Some audioBuffer ∧
    encodeWav audioBuffer = Some (contents blob) ∧
    zip_folder env (sanitizeName (sessionName settings)) = Some (folder blob) ∧
    file blob = lit "mix.wav".
Proof.
  intros Hdest Hout.
  destruct (export64_run m settings scheduler env dest Hdest)
    as (k & earlier & final & post & Hpolled & Hearlier & _ & _ & Hep & Hman).
  cbv zeta in Hep, Hman. rewrite Hout in Hep.
  set (consumed := concat (map fst (take k (frames env)))) in *.
  set (polled := foldl deliver (recording_manager m dest) consumed) in *.
  destruct (deliver_fields consumed (recording_manager m dest)) as (Hctx & _ & _).
  pose proof (deliver_chunks consumed (recording_manager m dest)) as Hchunks.
  fold polled in Hctx, Hchunks.
  cbn [recording_manager context chunks app] in Hctx, Hchunks.
  inversion Hep as [| | |m' acts ab wav dir Hstop Henc Hzip Hres Hacts Hblob].
  subst blob. rewrite <- Hres in Hman. rewrite Hstop in Hman. cbn [fst] in Hman.
  destruct (stopRecording_cases polled env)
    as [[_ Heq]|[Hactive (m'' & Heq & _ & Hall & _ & _)]];
    rewrite Hstop in Heq; [done|].
  injection Heq as <- _ Hdecoded.
  exists k, earlier, final, ab. cbv zeta. fold consumed.
  rewrite Hman. unfold captured in *. rewrite omap_app. rewrite <- Hchunks, <- Hall.
  rewrite Hctx in Hdecoded.
  repeat split; try done.
  - intros Hin. apply (deliver_inactive consumed (recording_manager m dest)) in Hin;
      [|by eexists]. fold polled in Hin. rewrite Hin in Hactive.
    by destruct Hactive.
  - intros Hnil. by rewrite Hnil in Hdecoded.
  - destruct (chunks m'); done.
Qed.

Lemma resolved_archive_witness :
  ∃ blob : Archive,
    outcome (export Examples.ready Examples64.three_cycles Examples64.fast
               Examples64.two_frames) = Resolved blob ∧
    file blob = lit "mix.wav" ∧
    chunks (manager (export Examples.ready Examples64.three_cycles
                       Examples64.fast Examples64.two_frames))
    = [[26; 69]; [223; 163]].
Proof.
  assert (Hout : ∃ blob, outcome (export Examples.ready Examples64.three_cycles
                                    Examples64.fast Examples64.two_frames)
                         = Resolved blob)
    by (eexists; vm_compute; reflexivity).
  destruct Hout as [blob Hout]. exists blob. split; [exact Hout|].
  destruct (resolved_archive Examples.ready Examples64.three_cycles Examples64.fast
              Examples64.two_frames 0%nat blob eq_refl Hout)
    as (k & earlier & final & ab & Hpolled & Hearlier & Hfinal & _ & Hchunks & _
        & _ & _ & _ & Hfile).
  split; [exact Hfile|]. rewrite Hchunks.
  destruct k as [|[|[|k]]]; cbn in Hpolled |- *.
  - destruct earlier as [|t [|t' earlier]]; [|discriminate Hpolled..].
    injection Hpolled as <-. vm_compute in Hfinal. discriminate Hfinal.
  - destruct earlier as [|t [|t' [|t'' earlier]]];
      [discriminate Hpolled| |discriminate Hpolled..].
    injection Hpolled as <- <-. vm_compute in Hfinal. discriminate Hfinal.
  - reflexivity.
  - reflexivity.
Defined.

(** X17.  A call of [export] whose destination is bound settles, resolved
    or rejected, exactly when some animation frame (the first,
    synchronous check included) reads the clock at or after the target
    duration, as the engine computes and compares them; otherwise it
    stays pending, its promise never resolved, and the recorder is never
    stopped. *)
Theorem export_settles_iff (m : Manager) settings scheduler env (dest : nat) :
  mediaStreamDest m = Some dest →
  (outcome (export m settings scheduler env) ≠ Pending ↔
   duration_elapses settings scheduler env) ∧
  (outcome (export m settings scheduler env) = Pending →
   ¬ In RecorderStop (trace (export m settings scheduler env))).
Proof.
  intros Hdest.
  destruct (export64_run m settings scheduler env dest Hdest)
    as (k & earlier & final & post & Hpolled & Hearlier & Hend & Htrace & Hep & _).
  cbv zeta in Hend, Hep.
  pose proof (export64_resolves settings scheduler env earlier final k Hpolled
                Hearlier Hend) as Hiff.
  split; [split|].
  - intros Hout. apply Hiff.
    destruct (ge _ _); [done|]. inversion Hep; congruence.
  - intros Hreach. apply Hiff in Hreach. rewrite Hreach in Hep.
    inversion Hep; congruence.
  - intros Hout Hstop. rewrite Hout in Hep. rewrite Htrace in Hstop.
    inversion Hep as [Hres Hpost| | |]. subst post. rewrite app_nil_r in Hstop.
    apply in_app_or in Hstop as [Hstop|Hstop].
    + cbn in Hstop. intuition discriminate.
    + apply in_map_iff in Hstop as (t & Ht & _). discriminate.
Qed.

Lemma export_settles_iff_witness :
  duration_elapses Examples64.three_cycles Examples64.fast Examples64.two_frames ∧
  outcome (export Examples.ready Examples64.three_cycles Examples64.fast
             Examples64.two_frames) ≠ Pending.
Proof.
  assert (Hreach : duration_elapses Examples64.three_cycles Examples64.fast
                     Examples64.two_frames).
  { apply Exists_cons_tl, Exists_cons_tl, Exists_cons_hd. vm_compute. reflexivity. }
  split; [exact Hreach|].
  by apply (export_settles_iff Examples.ready Examples64.three_cycles
              Examples64.fast Examples64.two_frames 0%nat eq_refl).
Defined.

End ExportManager64Props.

(** ** More on the tap *)

Module AudioGraphTapMore.
Import AudioGraphTap AudioGraphPatch.

Section WrapperMore.
Context {Node World Ret Exn : Type} `{EqDecision Node}.
Variable originalConnect :
  Node → Node → option nat → option nat → World → World * (Ret + Exn).

(** X18.  While recording is active, with a sink and an audio context, a
    connection to the context's destination that the platform accepts is
    followed by one more platform connection, from the same node to the
    sink, with no indices, made on the graph the first one left; the
    caller gets the result of its own connection even when the second one
    throws, which is only logged. *)
Theorem patched_connect_mirror (g : Globals) (this destination' sink : Node)
    (ctx : AudioContext) (outputIndex inputIndex : option nat)
    (w w' : World) (result : Ret) (console : list LogLine) :
  isRecordingActive g = true → recordingDestination g = Some sink →
  audioContextRef g = Some ctx → destination' = destination ctx →
  originalConnect this destination' outputIndex inputIndex w = (w', inl result) →
  let mirror := originalConnect this sink None None w' in
  patched_connect originalConnect g this destination' outputIndex inputIndex
    w console =
  (mirror.1,
   console ++ [LogConnect true true; LogRouting] ++
     match mirror.2 with inl _ => [] | inr _ => [LogFailed] end,
   inl result).
Proof.
  intros Hactive Hsink Hctx Hdest Horig. cbv zeta.
  unfold patched_connect. rewrite Horig, Hactive, Hsink, Hctx.
  rewrite decide_True by done.
  rewrite bool_decide_eq_true_2 by done.
  rewrite bool_decide_eq_true_2 by (by eexists).
  destruct (originalConnect this sink None None w') as [w'' [r|e]]; cbn [fst snd].
  - by rewrite app_nil_r, <- app_assoc.
  - by rewrite <- !app_assoc.
Qed.

(** X19.  In every other case the wrapper leaves the graph as the
    platform's connection left it and returns or throws what that
    connection did: when recording is not active, when there is no sink
    or no audio context, when the destination is not the context's
    destination, or when the platform's connection throws.  It never
    writes the routing line then, and after an exception it writes
    nothing. *)
Theorem patched_connect_passthrough (g : Globals) (this destination' : Node)
    (outputIndex inputIndex : option nat) (w : World) (console : list LogLine) :
  let original := originalConnect this destination' outputIndex inputIndex w in
  let patched := patched_connect originalConnect g this destination'
                   outputIndex inputIndex w console in
  isRecordingActive g = false ∨ recordingDestination g = None ∨
  audioContextRef g = None ∨
  (∃ ctx, audioContextRef g = Some ctx ∧ destination' ≠ destination ctx) ∨
  (∃ exn, original.2 = inr exn) →
  patched.1.1 = original.1 ∧ patched.2 = original.2 ∧
  (patched.1.2 = console ∨
   ∃ hasSink, patched.1.2 = console ++ [LogConnect
                 (bool_decide (Some destination' =
                               destination <$> audioContextRef g)) hasSink]) ∧
  ((∃ exn, original.2 = inr exn) → patched.1.2 = console).
Proof.
  cbv zeta. intros Hcase. unfold patched_connect.
  destruct (originalConnect this destination' _ _ _) as [w' [result|exn]];
    cbn [fst snd] in *; [|by auto].
  assert (Hroute : ¬ (isRecordingActive g = true ∧
                      is_Some (recordingDestination g) ∧
                      ∃ ctx, audioContextRef g = Some ctx ∧
                             destination' = destination ctx)).
  { intros (Ha & [sink Hs] & ctx & Hc & Hd).
    destruct Hcase as [?|[?|[?|[(ctx' & Hc' & Hne)|(exn & ?)]]]];
      [congruence..| |done].
    rewrite Hc in Hc'. injection Hc' as <-. done. }
  clear Hcase.
  assert (Hlog : ∀ (ctx : AudioContext) (hasSink : bool),
            console ++ [LogConnect (bool_decide (destination' = destination ctx))
                                   hasSink] =
            console ++ [LogConnect (bool_decide (Some destination' =
                                                 Some (destination ctx)))
                                   hasSink]).
  { intros ctx hasSink. do 3 f_equal. apply bool_decide_ext.
    split; [by intros -> | by intros [= ->]]. }
  destruct (isRecordingActive g).
  2: { destruct (recordingDestination g), (audioContextRef g); cbn [fst snd];
         (split; [done|]); (split; [done|]); (split; [by left|]); done. }
  destruct (audioContextRef g) as [ctx|].
  2: { destruct (recordingDestination g); cbn [fst snd];
         (split; [done|]); (split; [done|]); (split; [by left|]); done. }
  destruct (recordingDestination g) as [sink|].
  2: { cbn [fst snd fmap option_fmap option_map].
       split; [done|]. split; [done|]. split; [|by intros (exn & ?)].
       right. eexists. apply Hlog. }
  destruct (decide (destination' = destination ctx)) as [Heq|Hne].
  - exfalso. apply Hroute. split; [done|]. split; [by eexists|]. by exists ctx.
  - cbn [fst snd fmap option_fmap option_map].
    split; [done|]. split; [done|]. split; [|by intros (exn & ?)].
    right. eexists. apply Hlog.
Qed.

(** X20.  [startRecording] without an audio context changes nothing and
    returns null.  With one it returns the new sink, and from then on an
    accepted connection to the context's destination reaches the sink as
    well; [stopRecording] afterwards leaves the variables as
    [stopRecording] alone would and keeps the audio context, and the
    wrapper then does nothing but the one platform call it always makes,
    on the three values it always hands over: no connection to the sink
    and nothing on the console. *)
Theorem tap_session (g : Globals) (sink : Node) :
  (audioContextRef g = None → startRecording g sink = (g, None)) ∧
  (∀ ctx, audioContextRef g = Some ctx →
     (startRecording g sink).2 = Some sink ∧
     isRecordingActive (startRecording g sink).1 = true ∧
     recordingDestination (startRecording g sink).1 = Some sink ∧
     audioContextRef (startRecording g sink).1 = Some ctx ∧
     ∀ this outputIndex inputIndex w w' result console,
       originalConnect this (destination ctx) outputIndex inputIndex w
         = (w', inl result) →
       (patched_connect originalConnect (startRecording g sink).1 this
          (destination ctx) outputIndex inputIndex w console).1.1
       = (originalConnect this sink None None w').1) ∧
  stopRecording (startRecording g sink).1 = stopRecording g ∧
  stopRecording (stopRecording g) = stopRecording g ∧
  audioContextRef (stopRecording g) = audioContextRef g ∧
  ∀ this destination' outputIndex inputIndex w console,
    patched_connect originalConnect (stopRecording (startRecording g sink).1)
      this destination' outputIndex inputIndex w console =
    ((originalConnect this destination' outputIndex inputIndex w).1, console,
     (originalConnect this destination' outputIndex inputIndex w).2).
Proof.
  split; [|split; [|split; [|split; [|split]]]].
  - intros Hctx. unfold startRecording. by rewrite Hctx.
  - intros ctx Hctx. unfold startRecording. rewrite Hctx. cbn [fst snd].
    repeat split.
    intros this outputIndex inputIndex w w' result console Horig.
    unfold patched_connect. rewrite Horig. cbn.
    rewrite decide_True by done.
    by destruct (originalConnect this sink None None w') as [w'' [r|e]].
  - unfold startRecording, stopRecording.
    by destruct (audioContextRef g) eqn:Hctx; cbn; rewrite ?Hctx.
  - done.
  - done.
  - intros this destination' outputIndex inputIndex w console.
    unfold patched_connect, stopRecording. cbn.
    by destruct (originalConnect this destination' _ _ _) as [w' [r|e]].
Qed.

End WrapperMore.

Lemma patched_connect_mirror_witness :
  patched_connect Examples.recording_edges Examples.tap_active 3%nat 0%nat
    None None [] [] =
  ([(3%nat, 0%nat); (3%nat, 9%nat)], [LogConnect true true; LogRouting], inl 0%nat).
Proof.
  apply (patched_connect_mirror Examples.recording_edges Examples.tap_active
           3%nat 0%nat 9%nat {| destination := 0%nat |} None None
           [] [(3%nat, 0%nat)] 0%nat []); reflexivity.
Defined.

Lemma patched_connect_passthrough_witness :
  (patched_connect Examples.recording_edges Examples.tap_active 3%nat 5%nat
     None None [] []).1.1 = [(3%nat, 5%nat)].
Proof.
  destruct (patched_connect_passthrough Examples.recording_edges
              Examples.tap_active 3%nat 5%nat None None [] []) as (Hgraph & _).
  - right. right. right. left. exists {| destination := 0%nat |}.
    split; [reflexivity | discriminate].
  - exact Hgraph.
Defined.

Lemma tap_session_witness :
  (startRecording Examples.tap_idle 9%nat).2 = Some 9%nat ∧
  isRecordingActive (startRecording Examples.tap_idle 9%nat).1 = true ∧
  recordingDestination (startRecording Examples.tap_idle 9%nat).1 = Some 9%nat.
Proof.
  destruct (tap_session Examples.recording_edges Examples.tap_idle 9%nat)
    as (_ & Hstart & _).
  destruct (Hstart {| destination := 0%nat |} eq_refl)
    as (Hsink & Hactive & Hdest & _ & _).
  split; [exact Hsink|]. split; [exact Hactive | exact Hdest].
Defined.

(** X21.  However often the tap is installed and removed, [connect] is
    never wrapped twice: either the prototype holds the platform's
    function and nothing is saved, or it holds the wrapper and the
    platform's function is what is saved.  Installing twice is installing
    once, and removing undoes installing. *)
Theorem patch_single_layer (calls : list Call) :
  let p := foldl call loaded calls in
  (p = loaded ∨
   p = {| prototype_connect := wrapper; originalConnect := Some native |}) ∧
  patchAudioConnect (patchAudioConnect p) = patchAudioConnect p ∧
  unpatchAudioConnect (patchAudioConnect p) = loaded ∧
  unpatchAudioConnect (unpatchAudioConnect p) = unpatchAudioConnect p.
Proof.
  cbv zeta.
  assert (Hinv : foldl call loaded calls = loaded ∨
                 foldl call loaded calls =
                 {| prototype_connect := wrapper; originalConnect := Some native |}).
  { induction calls as [|c calls IH] using rev_ind; [by left|].
    rewrite foldl_app. cbn [foldl].
    destruct IH as [->| ->], c; cbn; auto. }
  split; [done|]. by destruct Hinv as [->| ->].
Qed.

End AudioGraphTapMore.

(** ** A call of [connect], by its argument list *)

Module AudioGraphCallsProps.
Import AudioGraphTap AudioGraphCalls.

Section CallsProps.
Context {Node World Ret Exn : Type} `{EqDecision Node}.
Variable nativeConnect :
  Node → list (Value (Node := Node)) → World → World * (Ret + Exn).

(** While the tap is not recording, the wrapper does what a direct call
    with its own three arguments does. *)
Lemma wrapper_call_inactive (g : Globals) (this : Node)
    (args : list (Value (Node := Node))) (w : World) (console : list LogLine) :
  isRecordingActive g = false →
  wrapper_call nativeConnect g this args w console =
  direct_call nativeConnect this
    [parameter args 0; parameter args 1; parameter args 2] w console.
Proof.
  intros Hidle. unfold wrapper_call, direct_call. rewrite Hidle.
  by destruct (nativeConnect this _ w) as [w' [result|exn]].
Qed.


End CallsProps.

(** C8.  The wrapper starts with a call of the platform's [connect] and
    returns what that call returned or throws what it threw, and while
    the tap is not recording it does nothing else.  But the call it makes
    is not the caller's: it always has three arguments, [undefined] in
    place of those the caller left out.  For a call with three arguments
    the wrapper, not recording, is the platform's [connect]; for
    [node.connect(param)] on a platform that chooses the overload of
    [connect] by the number of arguments, the platform's function
    connects and the wrapper throws a TypeError and connects nothing. *)
Theorem wrapper_changes_arity :
  (∀ (Node World Ret Exn : Type) (eq_dec : EqDecision Node)
     (nativeConnect : Node → list (Value (Node := Node)) → World
                      → World * (Ret + Exn))
     (g : Globals) (this : Node) (args : list (Value (Node := Node)))
     (w : World) (console : list LogLine),
     let native := nativeConnect this
                     [parameter args 0; parameter args 1; parameter args 2] w in
     let patched := wrapper_call nativeConnect g this args w console in
     patched.2 = native.2 ∧
     (isRecordingActive g = false →
      patched = (native.1, console, native.2) ∧
      (length args = 3%nat →
       patched = direct_call nativeConnect this args w console))) ∧
  wrapper_call Examples64.webaudio_connect Examples64.idle
    (Examples64.AudioNode 3) [Object (Examples64.AudioParam 5)] [] []
  = ([], [], inr Examples64.OverloadResolutionFailed) ∧
  direct_call Examples64.webaudio_connect
    (Examples64.AudioNode 3) [Object (Examples64.AudioParam 5)] [] []
  = ([(Examples64.AudioNode 3, Examples64.AudioParam 5)], [],
     inl Examples64.ReturnsUndefined).
Proof.
  split; [|split; reflexivity].
  intros Node World Ret Exn eq_dec nativeConnect g this args w console.
  cbv zeta. split.
  - unfold wrapper_call.
    destruct (nativeConnect this _ w) as [w' [result|exn]]; [|done].
    destruct (isRecordingActive g), (recordingDestination g) as [sink|],
      (audioContextRef g) as [ctx|]; try done.
    destruct (decide _); [|done].
    by destruct (nativeConnect this [Object sink] w') as [w'' [?|?]].
  - intros Hidle. rewrite wrapper_call_inactive by done. split.
    + unfold direct_call. by destruct (nativeConnect this _ w) as [w' r].
    + intros Hlen. destruct args as [|a [|b [|c [|d args]]]]; try discriminate Hlen.
      reflexivity.
Qed.

End AudioGraphCallsProps.

(** ** The export dialog *)

Module ExportDialogProps.
Import JS ExportDialog NumberProps.

Lemma onChange_range (parsed : number) :
  ∃ q : Q, onChange parsed = Fin q ∧ (1 <= q)%Q ∧ (q <= 32)%Q.
Proof.
  unfold onChange, or_else, of_Z.
  destruct parsed as [q| | |]; cbn [truthy negb];
    [|eexists; split; [vm_compute; reflexivity|]; split; (lra || discriminate)..].
  destruct (Qzero q) eqn:Hz; cbn [negb];
    [eexists; split; [vm_compute; reflexivity|]; split; (lra || discriminate)|].
  cbn [Math_min lt].
  destruct (Qltb q (inject_Z 32)) eqn:H32;
    [|eexists; split; [vm_compute; reflexivity|]; split; (lra || discriminate)].
  cbn [Math_max lt]. apply Qltb_lt in H32.
  destruct (Qltb (inject_Z 1) q) eqn:H1.
  - exists q. apply Qltb_lt in H1. unfold inject_Z in *.
    split; [reflexivity | split; lra].
  - eexists. split; [reflexivity|]. unfold inject_Z. split; (lra || discriminate).
Qed.

(** X22.  Whatever [parseInt] makes of the text of the cycles field, a
    number, an infinity or NaN, the dialog keeps a finite number between
    1 and 32: an integer in that range is kept as it is, a smaller one,
    0 and NaN become 1, a larger one becomes 32.  So after any sequence
    of changes the count handed to [onExport] is between 1 and 32. *)
Theorem cycles_clamped (changes : list number) :
  (∃ q : Q, cycles_after changes = Fin q ∧ (1 <= q)%Q ∧ (q <= 32)%Q) ∧
  (∀ z : Z, onChange (of_Z z) = of_Z (Z.max 1 (Z.min 32 z))) ∧
  onChange NaN = of_Z 1 ∧ onChange PosInf = of_Z 32 ∧ onChange NegInf = of_Z 1.
Proof.
  split; [|split; [|done]].
  - unfold cycles_after.
    induction changes as [|parsed changes _] using rev_ind.
    + exists 4%Q. repeat split; [lra | discriminate].
    + rewrite foldl_app. cbn [foldl]. apply onChange_range.
  - intros z. unfold onChange, or_else, of_Z. cbn [truthy].
    unfold Qzero. cbn [Qnum inject_Z].
    destruct (z =? 0) eqn:Hz; cbn [negb].
    + apply Z.eqb_eq in Hz. subst z. reflexivity.
    + cbn [Math_min Math_max lt]. unfold Qltb. cbn [Qnum Qden inject_Z].
      rewrite !Z.mul_1_r.
      destruct (z <? 32) eqn:H32; [destruct (1 <? z) eqn:H1|]; cbn [Qnum Qden inject_Z];
        rewrite ?Z.mul_1_r, ?H1; f_equal; f_equal; lia.
Qed.

End ExportDialogProps.

(** ** Sessions and undo history *)

Module UseHistoryProps.
Import JS UseHistory HistoryNotions.

(** *** Arrays *)

Lemma index_at_Some {A} (l : list A) (i : Z) :
  0 ≤ i < Z.of_nat (length l) → is_Some (index_at l i).
Proof.
  intros Hi. unfold index_at.
  destruct (i <? 0) eqn:Hneg; [lia|].
  apply lookup_lt_is_Some. lia.
Qed.

Lemma index_at_last {A} (l : list A) (x : A) :
  index_at (l ++ [x]) (Z.of_nat (length l)) = Some x.
Proof.
  unfold index_at. destruct (Z.of_nat (length l) <? 0) eqn:Hneg;
    [apply Z.ltb_lt in Hneg; lia|].
  rewrite Nat2Z.id. by rewrite lookup_app_r, Nat.sub_diag.
Qed.

Lemma slice0_take {A} (l : list A) (e : Z) :
  0 ≤ e ≤ Z.of_nat (length l) → slice0 l e = take (Z.to_nat e) l.
Proof.
  intros He. unfold slice0. destruct (e <? 0) eqn:Hneg; [lia|].
  by rewrite Z.min_l by lia.
Qed.

(** The history that [commitToHistory] builds for a new entry. *)
Lemma commit_history (h : list jsstring) (i : Z) (c : jsstring) :
  0 ≤ i < Z.of_nat (length h) → (length h ≤ MAX_HISTORY)%nat →
  let newHistory := slice0 h (i + 1) ++ [c] in
  let kept := if decide (i = 49) then drop 1 h else take (Z.to_nat (i + 1)) h in
  (if (MAX_HISTORY <? length newHistory)%nat then drop 1 newHistory else newHistory)
  = kept ++ [c] ∧
  Z.of_nat (length kept) = (if decide (i = 49) then 49 else i + 1).
Proof.
  intros Hi Hlen. cbv zeta. unfold MAX_HISTORY in *.
  rewrite slice0_take by lia.
  rewrite length_app, length_take. cbn [length].
  destruct (decide (i = 49)) as [->|Hne].
  - assert (length h = 50%nat) by lia.
    rewrite take_ge by lia.
    destruct (50 <? _)%nat eqn:Hfull; [|apply Nat.ltb_ge in Hfull; lia].
    destruct h as [|a h]; [done|]. cbn [app drop]. rewrite !drop_0.
    split; [done|]. cbn [length] in *. lia.
  - destruct (50 <? _)%nat eqn:Hfull; [apply Nat.ltb_lt in Hfull; lia|].
    split; [done|]. rewrite length_take. lia.
Qed.

(** *** The active session *)

Lemma find_map_same {A} (p : A → bool) (g : A → A) (l : list A) :
  (∀ x, p (g x) = p x) →
  List.find p (map g l) = g <$> List.find p l.
Proof.
  intros Hp. induction l as [|x l IH]; [done|]. cbn [map List.find].
  rewrite Hp. by destruct (p x).
Qed.

Lemma activeSession_map (g : Session → Session) (s : SessionsState) :
  (∀ x, id (g x) = id x) →
  activeSession {| sessions := map g (sessions s);
                   activeSessionId := activeSessionId s |} =
  g <$> activeSession s.
Proof.
  intros Hid. unfold activeSession. cbn [sessions activeSessionId].
  rewrite find_map_same by (intros x; by rewrite Hid).
  destruct (List.find _ (sessions s)); [done|].
  by destruct (sessions s).
Qed.

Lemma activeSession_nonempty (s : SessionsState) :
  sessions s ≠ [] → is_Some (activeSession s).
Proof.
  intros Hne. unfold activeSession.
  destruct (List.find _ _); [by eexists|].
  destruct (sessions s); [done | by eexists].
Qed.

(** *** What every call keeps *)

Lemma createSession_well_formed name fresh :
  well_formed (createSession name fresh).
Proof.
  unfold well_formed, createSession, MAX_HISTORY. cbn.
  split; [lia|]. split; [lia | by eexists].
Qed.

Lemma call_keeps (s : SessionsState) (c : Call) :
  sessions s ≠ [] → Forall well_formed (sessions s) →
  sessions (call s c) ≠ [] ∧ Forall well_formed (sessions (call s c)).
Proof.
  intros Hne Hwf.
  assert (Hmap : ∀ g : Session → Session,
            (∀ x, well_formed x → well_formed (g x)) →
            map g (sessions s) ≠ [] ∧ Forall well_formed (map g (sessions s))).
  { intros g Hg. split.
    - destruct (sessions s); done.
    - apply Forall_fmap. eapply Forall_impl; [exact Hwf|]. exact Hg. }
  destruct c as [now newCode|now code'| | |name fresh|sessionId|sessionId fresh
                |sessionId name']; cbn [call].
  - apply Hmap. intros x (Hi & Hl & Hc).
    destruct (decide _); [|done].
    split; [done|]. split; [done | by eexists].
  - apply Hmap. intros x (Hi & Hl & Hc).
    destruct (decide (id x ≠ _)); [done|].
    destruct (decide (index_at _ _ = _)).
    { split; [done|]. split; [done | by eexists]. }
    destruct (commit_history (history x) (historyIndex x) code' Hi Hl)
      as [Hnew Hkept].
    unfold well_formed. cbn [history historyIndex code]. rewrite Hnew.
    rewrite length_app. cbn [length]. unfold MAX_HISTORY in *.
    split; [lia|]. split; [|by eexists].
    destruct (decide (historyIndex x = 49)); lia.
  - apply Hmap. intros x (Hi & Hl & Hc).
    destruct (decide (id x ≠ _)); [done|].
    destruct (historyIndex x <=? 0) eqn:Hz; [done|]. apply Z.leb_gt in Hz.
    unfold well_formed. cbn [history historyIndex code].
    split; [lia|]. split; [done|]. apply index_at_Some. lia.
  - apply Hmap. intros x (Hi & Hl & Hc).
    destruct (decide (id x ≠ _)); [done|].
    destruct (historyIndex x >=? _) eqn:Hz; [done|].
    rewrite Z.geb_leb in Hz. apply Z.leb_gt in Hz.
    unfold well_formed. cbn [history historyIndex code].
    split; [lia|]. split; [done|]. apply index_at_Some. lia.
  - cbn. split; [done|]. constructor; [apply createSession_well_formed | done].
  - done.
  - unfold deleteSession. cbv zeta.
    destruct (filter _ (sessions s)) as [|first rest] eqn:Hrem; cbn [sessions].
    + split; [done|]. constructor; [apply createSession_well_formed | done].
    + split; [done|]. rewrite <- Hrem. apply Forall_forall. intros x Hx.
      apply list_elem_of_filter in Hx as [_ Hx].
      rewrite Forall_forall in Hwf. by apply Hwf.
  - apply Hmap. intros x Hx. destruct (decide _); done.
Qed.

(** X23.  [loadSessions] always gives at least one session, and on a
    first visit a well-formed one.  From a state with at least one
    session, all of them well formed, every sequence of calls of the hook
    leaves at least one session, every history index inside its history,
    no history longer than [MAX_HISTORY] = 50 entries, every session's
    code a string, and an active session to show. *)
Theorem sessions_invariant (calls : list Call) :
  (∀ saved fresh, sessions (loadSessions saved fresh) ≠ []) ∧
  (∀ fresh, Forall well_formed (sessions (loadSessions None fresh))) ∧
  ∀ s : SessionsState,
    sessions s ≠ [] → Forall well_formed (sessions s) →
    sessions (foldl call s calls) ≠ [] ∧
    Forall well_formed (sessions (foldl call s calls)) ∧
    is_Some (activeSession (foldl call s calls)).
Proof.
  split; [|split].
  - intros [parsed|] fresh; cbn; [|done].
    destruct (sessions parsed) eqn:Hparsed; cbn; [done|]. by rewrite Hparsed.
  - intros fresh. cbn. constructor; [apply createSession_well_formed | done].
  - induction calls as [|c calls IH]; intros s Hne Hwf; cbn [foldl].
    + split; [done|]. split; [done|]. by apply activeSession_nonempty.
    + destruct (call_keeps s c Hne Hwf) as [Hne' Hwf']. by apply IH.
Qed.

Lemma sessions_invariant_witness :
  is_Some (activeSession
             (foldl call HistoryExamples.first_visit
                [CommitToHistory 43200100 (lit "a"); Undo;
                 DeleteSession (lit "0b5f") HistoryExamples.later; Redo])).
Proof.
  destruct (sessions_invariant
              [CommitToHistory 43200100 (lit "a"); Undo;
               DeleteSession (lit "0b5f") HistoryExamples.later; Redo])
    as (Hload & Hfirst & Hkept).
  apply Hkept; [apply Hload | apply Hfirst].
Defined.

(** *** Committing *)

(** X24.  [commitToHistory] on a well-formed active session makes the
    committed code the current entry of the history and the code shown.
    Committing the entry that is already current changes neither the
    history nor the index.  Committing anything else drops the entries
    after the current one (there is nothing left to redo), appends the
    code, and, when that gives more than 50 entries, drops the oldest
    one. *)
Theorem commitToHistory_current (now : Z) (c : jsstring) (s : SessionsState)
    (x : Session) :
  activeSession s = Some x → id x = activeSessionId s → well_formed x →
  ∃ x', activeSession (commitToHistory now c s) = Some x' ∧
        well_formed x' ∧
        code x' = Some c ∧ updatedAt x' = now ∧
        index_at (history x') (historyIndex x') = Some c ∧
        (index_at (history x) (historyIndex x) = Some c →
         history x' = history x ∧ historyIndex x' = historyIndex x) ∧
        (index_at (history x) (historyIndex x) ≠ Some c →
         canRedo x' = false ∧
         history x' =
           (if decide (historyIndex x = 49) then drop 1 (history x)
            else take (Z.to_nat (historyIndex x + 1)) (history x)) ++ [c]).
Proof.
  intros Hactive Hid (Hi & Hl & Hc).
  unfold commitToHistory. rewrite activeSession_map.
  2: { intros y. destruct (decide (id y ≠ _)); [done|].
       by destruct (decide (index_at _ _ = _)). }
  rewrite Hactive. cbn [fmap option_fmap option_map].
  eexists. split; [reflexivity|].
  rewrite decide_False by (intros Hne; by apply Hne).
  destruct (decide (index_at (history x) (historyIndex x) = Some c)) as [Hsame|Hnew].
  - cbn. split; [split; [done|]; split; [done | by eexists]|]. done.
  - destruct (commit_history (history x) (historyIndex x) c Hi Hl)
      as [Hhist Hkept].
    cbn [history historyIndex code updatedAt]. rewrite Hhist.
    set (kept := if decide (historyIndex x = 49) then drop 1 (history x)
                 else take (Z.to_nat (historyIndex x + 1)) (history x)) in *.
    assert (Hidx : Z.of_nat (length (kept ++ [c])) - 1 = Z.of_nat (length kept))
      by (rewrite length_app; cbn [length]; lia).
    rewrite Hidx.
    split; [|split; [done|]; split; [done|]; split; [apply index_at_last|]; split;
             [done|]].
    + unfold well_formed. cbn [history historyIndex code].
      rewrite length_app. cbn [length]. unfold MAX_HISTORY in *.
      split; [lia|]. split; [|by eexists].
      destruct (decide (historyIndex x = 49)); lia.
    + intros _. split; [|done].
      unfold canRedo. cbn [history historyIndex]. rewrite <- Hidx.
      apply Z.ltb_irrefl.
Qed.

Lemma commitToHistory_current_witness :
  ∃ x', activeSession (commitToHistory 43200900 (lit "d") HistoryExamples.editing)
        = Some x' ∧
        history x' = [lit "a"; lit "b"; lit "d"].
Proof.
  destruct (commitToHistory_current 43200900 (lit "d") HistoryExamples.editing
              HistoryExamples.edited)
    as (x' & Hactive & _ & _ & _ & _ & _ & Hnew).
  - reflexivity.
  - reflexivity.
  - split; [cbn; lia|]. split; [cbn; unfold MAX_HISTORY; lia | by eexists].
  - exists x'. split; [exact Hactive|].
    destruct Hnew as [_ Hhistory]; [discriminate|]. exact Hhistory.
Defined.

(** *** Undo and redo *)

Lemma undo_active (s : SessionsState) (x : Session) :
  activeSession s = Some x → id x = activeSessionId s →
  activeSession (undo s) =
  Some (if historyIndex x <=? 0 then x
        else {| id := id x; name := name x;
                code := index_at (history x) (historyIndex x - 1);
                history := history x; historyIndex := historyIndex x - 1;
                createdAt := createdAt x; updatedAt := updatedAt x |}) ∧
  activeSessionId (undo s) = activeSessionId s.
Proof.
  intros Hactive Hid. split; [|done].
  unfold undo. rewrite activeSession_map.
  2: { intros y. destruct (decide (id y ≠ _)); [done|].
       by destruct (historyIndex y <=? 0). }
  rewrite Hactive. cbn [fmap option_fmap option_map].
  by rewrite decide_False by (intros Hne; by apply Hne).
Qed.

Lemma redo_active (s : SessionsState) (x : Session) :
  activeSession s = Some x → id x = activeSessionId s →
  activeSession (redo s) =
  Some (if historyIndex x >=? Z.of_nat (length (history x)) - 1 then x
        else {| id := id x; name := name x;
                code := index_at (history x) (historyIndex x + 1);
                history := history x; historyIndex := historyIndex x + 1;
                createdAt := createdAt x; updatedAt := updatedAt x |}) ∧
  activeSessionId (redo s) = activeSessionId s.
Proof.
  intros Hactive Hid. split; [|done].
  unfold redo. rewrite activeSession_map.
  2: { intros y. destruct (decide (id y ≠ _)); [done|].
       by destruct (historyIndex y >=? _). }
  rewrite Hactive. cbn [fmap option_fmap option_map].
  by rewrite decide_False by (intros Hne; by apply Hne).
Qed.

(** X25.  On a well-formed active session, [undo] moves to the entry
    before the current one and shows it, and does nothing at the first
    entry; [redo] moves to the entry after it, and does nothing at the
    last.  Neither changes the history.  [redo] after an [undo] that
    moved, and [undo] after a [redo] that moved, are back at the entry
    they started from, and show that entry (not what [setCode] had put
    in the editor). *)
Theorem undo_redo_round_trip (s : SessionsState) (x : Session) :
  activeSession s = Some x → id x = activeSessionId s → well_formed x →
  (canUndo x = false → activeSession (undo s) = Some x) ∧
  (canRedo x = false → activeSession (redo s) = Some x) ∧
  (canUndo x = true →
   ∃ y z, activeSession (undo s) = Some y ∧
          activeSession (redo (undo s)) = Some z ∧
          well_formed y ∧ same_history x z ∧
          historyIndex y = historyIndex x - 1 ∧ history y = history x ∧
          code y = index_at (history x) (historyIndex x - 1) ∧
          code z = index_at (history x) (historyIndex x) ∧
          canRedo y = true) ∧
  (canRedo x = true →
   ∃ y z, activeSession (redo s) = Some y ∧
          activeSession (undo (redo s)) = Some z ∧
          well_formed y ∧ same_history x z ∧
          historyIndex y = historyIndex x + 1 ∧ history y = history x ∧
          code y = index_at (history x) (historyIndex x + 1) ∧
          code z = index_at (history x) (historyIndex x) ∧
          canUndo y = true).
Proof.
  intros Hactive Hid (Hi & Hl & Hc).
  destruct (undo_active s x Hactive Hid) as [Hundo Hundo_id].
  destruct (redo_active s x Hactive Hid) as [Hredo Hredo_id].
  unfold canUndo, canRedo. split; [|split; [|split]].
  - intros Hno. apply Z.ltb_ge in Hno. rewrite Hundo.
    destruct (historyIndex x <=? 0) eqn:Hz; [done|]. apply Z.leb_gt in Hz. lia.
  - intros Hno. apply Z.ltb_ge in Hno. rewrite Hredo.
    destruct (historyIndex x >=? _) eqn:Hz; [done|].
    rewrite Z.geb_leb in Hz. apply Z.leb_gt in Hz. lia.
  - intros Hcan. apply Z.ltb_lt in Hcan.
    destruct (historyIndex x <=? 0) eqn:Hz; [apply Z.leb_le in Hz; lia|].
    eexists. eexists. split; [exact Hundo|].
    destruct (redo_active (undo s) _ Hundo) as [Hback _];
      [by rewrite Hundo_id|].
    cbn [history historyIndex id name createdAt updatedAt] in Hback.
    destruct (historyIndex x - 1 >=? _) eqn:Hz'.
    { rewrite Z.geb_leb in Hz'. apply Z.leb_le in Hz'. lia. }
    split; [exact Hback|].
    replace (historyIndex x - 1 + 1) with (historyIndex x) by lia.
    unfold well_formed, same_history.
    cbn [history historyIndex id name createdAt updatedAt code].
    split; [split; [lia|]; split; [done|]; apply index_at_Some; lia|].
    split; [done|]. split; [done|]. split; [done|]. split; [done|].
    split; [done|]. apply Z.ltb_lt. lia.
  - intros Hcan. apply Z.ltb_lt in Hcan.
    destruct (historyIndex x >=? _) eqn:Hz.
    { rewrite Z.geb_leb in Hz. apply Z.leb_le in Hz. lia. }
    eexists. eexists. split; [exact Hredo|].
    destruct (undo_active (redo s) _ Hredo) as [Hback _];
      [by rewrite Hredo_id|].
    cbn [history historyIndex id name createdAt updatedAt] in Hback.
    destruct (historyIndex x + 1 <=? 0) eqn:Hz'; [apply Z.leb_le in Hz'; lia|].
    split; [exact Hback|].
    replace (historyIndex x + 1 - 1) with (historyIndex x) by lia.
    unfold well_formed, same_history.
    cbn [history historyIndex id name createdAt updatedAt code].
    split; [split; [lia|]; split; [done|]; apply index_at_Some; lia|].
    split; [done|]. split; [done|]. split; [done|]. split; [done|].
    split; [done|]. apply Z.ltb_lt. lia.
Qed.

Lemma undo_redo_round_trip_witness :
  ∃ z, activeSession (redo (undo HistoryExamples.editing)) = Some z ∧
       code z = Some (lit "b") ∧ historyIndex z = 1.
Proof.
  destruct (undo_redo_round_trip HistoryExamples.editing HistoryExamples.edited)
    as (_ & _ & Hundo & _).
  - reflexivity.
  - reflexivity.
  - split; [cbn; lia|]. split; [cbn; unfold MAX_HISTORY; lia | by eexists].
  - destruct Hundo as (y & z & _ & Hback & _ & Hsame & _ & _ & _ & Hcode & _);
      [reflexivity|].
    exists z. split; [exact Hback|]. split; [exact Hcode|].
    destruct Hsame as (_ & _ & _ & Hindex & _). symmetry. exact Hindex.
Defined.

Lemma commit_active (now : Z) (c : jsstring) (s : SessionsState) (x : Session) :
  activeSession s = Some x → id x = activeSessionId s →
  index_at (history x) (historyIndex x) ≠ Some c →
  let newHistory := slice0 (history x) (historyIndex x + 1) ++ [c] in
  let newHistory := if (MAX_HISTORY <? length newHistory)%nat
                    then drop 1 newHistory else newHistory in
  activeSession (commitToHistory now c s) =
  Some {| id := id x; name := name x; code := Some c;
          history := newHistory;
          historyIndex := Z.of_nat (length newHistory) - 1;
          createdAt := createdAt x; updatedAt := now |} ∧
  activeSessionId (commitToHistory now c s) = activeSessionId s.
Proof.
  intros Hactive Hid Hnew. cbv zeta. split; [|done].
  unfold commitToHistory. rewrite activeSession_map.
  2: { intros y. destruct (decide (id y ≠ _)); [done|].
       by destruct (decide (index_at _ _ = _)). }
  rewrite Hactive. cbn [fmap option_fmap option_map].
  rewrite decide_False by (intros Hne; by apply Hne).
  by rewrite decide_False by done.
Qed.

Lemma kept_last (h : list jsstring) (i : Z) :
  0 ≤ i < Z.of_nat (length h) → (length h ≤ MAX_HISTORY)%nat →
  let kept := if decide (i = 49) then drop 1 h else take (Z.to_nat (i + 1)) h in
  ∀ c, index_at (kept ++ [c]) (Z.of_nat (length kept) - 1) = index_at h i.
Proof.
  intros Hi Hl kept c. unfold index_at, MAX_HISTORY in *.
  assert (Hlen : Z.of_nat (length kept) = if decide (i = 49) then 49 else i + 1).
  { subst kept. destruct (decide (i = 49)).
    - rewrite length_drop. lia.
    - rewrite length_take. lia. }
  destruct (i <? 0) eqn:Hneg; [apply Z.ltb_lt in Hneg; lia|].
  destruct (Z.of_nat (length kept) - 1 <? 0) eqn:Hneg';
    [apply Z.ltb_lt in Hneg'; destruct (decide (i = 49)); lia|].
  rewrite lookup_app_l by (destruct (decide (i = 49)); lia).
  subst kept. destruct (decide (i = 49)) as [->|Hne].
  - rewrite length_drop, lookup_drop. f_equal. lia.
  - rewrite length_take, lookup_take_lt by lia. f_equal. lia.
Qed.

(** X26.  After a commit that added an entry to a well-formed active
    session, [undo] shows the entry that was current before the commit,
    also when the commit had to drop the oldest entry, and [redo] then
    shows the committed code again. *)
Theorem commit_then_undo (now : Z) (c : jsstring) (s : SessionsState)
    (x : Session) :
  activeSession s = Some x → id x = activeSessionId s → well_formed x →
  index_at (history x) (historyIndex x) ≠ Some c →
  ∃ y z, activeSession (undo (commitToHistory now c s)) = Some y ∧
         code y = index_at (history x) (historyIndex x) ∧
         is_Some (code y) ∧ canRedo y = true ∧
         activeSession (redo (undo (commitToHistory now c s))) = Some z ∧
         code z = Some c ∧ canRedo z = false.
Proof.
  intros Hactive Hid (Hi & Hl & Hc) Hnew.
  destruct (commit_active now c s x Hactive Hid Hnew) as [Hcommit Hcommit_id].
  cbv zeta in Hcommit.
  destruct (commit_history (history x) (historyIndex x) c Hi Hl) as [Hhist Hkept].
  cbv zeta in Hhist, Hkept. rewrite Hhist in Hcommit.
  pose proof (kept_last (history x) (historyIndex x) Hi Hl) as Hlast.
  cbv zeta in Hlast.
  set (kept := if decide (historyIndex x = 49) then drop 1 (history x)
               else take (Z.to_nat (historyIndex x + 1)) (history x)) in *.
  assert (Hidx : Z.of_nat (length (kept ++ [c])) - 1 = Z.of_nat (length kept))
    by (rewrite length_app; cbn [length]; lia).
  rewrite Hidx in Hcommit.
  assert (Hpos : 0 < Z.of_nat (length kept))
    by (destruct (decide (historyIndex x = 49)); lia).
  destruct (undo_active _ _ Hcommit) as [Hundo Hundo_id]; [by rewrite Hcommit_id|].
  cbn [history historyIndex id name createdAt updatedAt] in Hundo.
  destruct (Z.of_nat (length kept) <=? 0) eqn:Hz; [apply Z.leb_le in Hz; lia|].
  destruct (redo_active _ _ Hundo) as [Hredo _];
    [by rewrite Hundo_id, Hcommit_id|].
  cbn [history historyIndex id name createdAt updatedAt] in Hredo.
  destruct (Z.of_nat (length kept) - 1 >=? _) eqn:Hz'.
  { rewrite Z.geb_leb in Hz'. apply Z.leb_le in Hz'. lia. }
  eexists. eexists. split; [exact Hundo|].
  cbn [code history historyIndex]. rewrite Hlast.
  split; [done|]. split; [apply index_at_Some; lia|].
  split; [unfold canRedo; cbn [history historyIndex]; apply Z.ltb_lt; lia|].
  split; [exact Hredo|]. cbn [code].
  replace (Z.of_nat (length kept) - 1 + 1) with (Z.of_nat (length kept)) by lia.
  split; [apply index_at_last|].
  unfold canRedo. cbn [history historyIndex]. apply Z.ltb_ge. lia.
Qed.

Lemma commit_then_undo_witness :
  ∃ y, activeSession (undo (commitToHistory 43200900 (lit "d")
                              HistoryExamples.editing)) = Some y ∧
       code y = Some (lit "b").
Proof.
  destruct (commit_then_undo 43200900 (lit "d") HistoryExamples.editing
              HistoryExamples.edited)
    as (y & z & Hundo & Hcode & _).
  - reflexivity.
  - reflexivity.
  - split; [cbn; lia|]. split; [cbn; unfold MAX_HISTORY; lia | by eexists].
  - discriminate.
  - exists y. split; [exact Hundo | exact Hcode].
Defined.

(** *** What an edit leaves alone *)

Lemma find_no_match (s : SessionsState) :
  (∀ x, x ∈ sessions s → id x ≠ activeSessionId s) →
  activeSession s = head (sessions s).
Proof.
  intros Hnone. unfold activeSession.
  destruct (List.find _ _) as [x|] eqn:Hfind; [|done].
  apply find_some in Hfind as [Hin Hid].
  apply bool_decide_eq_true in Hid. apply list_elem_of_In in Hin.
  by apply Hnone in Hin.
Qed.

Lemma edit_frame_map (g : Session → Session) (s : SessionsState) :
  (∀ x, id (g x) = id x ∧ name (g x) = name x ∧ createdAt (g x) = createdAt x ∧
        (id x ≠ activeSessionId s → g x = x)) →
  let s' := {| sessions := map g (sessions s);
               activeSessionId := activeSessionId s |} in
  activeSessionId s' = activeSessionId s ∧
  map id (sessions s') = map id (sessions s) ∧
  map name (sessions s') = map name (sessions s) ∧
  map createdAt (sessions s') = map createdAt (sessions s) ∧
  Forall2 (λ old new, id old ≠ activeSessionId s → new = old)
          (sessions s) (sessions s') ∧
  ((∀ x, x ∈ sessions s → id x ≠ activeSessionId s) →
   s' = s ∧ activeSession s = head (sessions s)).
Proof.
  intros Hg. cbv zeta. cbn [sessions activeSessionId].
  split; [done|]. rewrite !map_map.
  split; [apply map_ext; intros x; apply Hg|].
  split; [apply map_ext; intros x; apply Hg|].
  split; [apply map_ext; intros x; apply Hg|].
  split.
  - apply Forall2_fmap_r, Forall_Forall2_diag, Forall_forall.
    intros x _. by destruct (Hg x) as (_ & _ & _ & Hx).
  - intros Hnone. split; [|by apply find_no_match].
    destruct s as [l a]. cbn [sessions activeSessionId] in *. f_equal.
    rewrite <- (map_id l) at 2. apply map_ext_in. intros x Hx.
    destruct (Hg x) as (_ & _ & _ & Hsame).
    apply Hsame, Hnone. by apply list_elem_of_In.
Qed.

(** X27.  [setCode], [commitToHistory], [undo] and [redo] keep the
    number and order of the sessions, their ids, names and creation
    times, and which one is active; a session whose id is not the active
    one is left exactly as it was.  When no session has the active id,
    the call changes nothing at all, while the hook shows the first
    session. *)
Theorem edits_frame (c : Call) (s : SessionsState) :
  is_edit c = true →
  activeSessionId (call s c) = activeSessionId s ∧
  map id (sessions (call s c)) = map id (sessions s) ∧
  map name (sessions (call s c)) = map name (sessions s) ∧
  map createdAt (sessions (call s c)) = map createdAt (sessions s) ∧
  Forall2 (λ old new, id old ≠ activeSessionId s → new = old)
          (sessions s) (sessions (call s c)) ∧
  ((∀ x, x ∈ sessions s → id x ≠ activeSessionId s) →
   call s c = s ∧ activeSession s = head (sessions s)).
Proof.
  intros Hedit.
  destruct c as [now newCode|now code'| | |name fresh|sessionId|sessionId fresh
                |sessionId name']; try discriminate Hedit; cbn [call];
    apply edit_frame_map; intros x.
  - destruct (decide (id x = _)); done.
  - destruct (decide (id x ≠ _)) as [Hne|Heq]; [done|].
    by destruct (decide (index_at _ _ = _)).
  - destruct (decide (id x ≠ _)) as [Hne|Heq]; [done|].
    by destruct (historyIndex x <=? 0).
  - destruct (decide (id x ≠ _)) as [Hne|Heq]; [done|].
    by destruct (historyIndex x >=? _).
Qed.

Lemma edits_frame_witness :
  map id (sessions (call HistoryExamples.editing Undo)) =
  map id (sessions HistoryExamples.editing).
Proof.
  apply (edits_frame Undo HistoryExamples.editing). reflexivity.
Defined.

(** *** Sessions coming and going *)

(** X28.  [deleteSession] never leaves the list empty and never leaves
    the active id dangling when it was not: if any session has another
    id, those sessions stay, in order and unchanged, none of them with
    the deleted id, and the active id is kept unless it was the deleted
    one, in which case the first remaining session becomes active; if
    every session has the deleted id, one new session replaces them and
    is active. *)
Theorem deleteSession_active (sessionId : jsstring) (fresh : Fresh)
    (s : SessionsState) :
  let s' := deleteSession sessionId fresh s in
  sessions s' ≠ [] ∧
  (activeSessionId s ∈ map id (sessions s) →
   activeSessionId s' ∈ map id (sessions s')) ∧
  ((∃ x, x ∈ sessions s ∧ id x ≠ sessionId) →
   sessions s' = filter (λ x, id x ≠ sessionId) (sessions s) ∧
   (sessionId ∉ map id (sessions s')) ∧
   activeSessionId s' =
     (if decide (activeSessionId s = sessionId)
      then default sessionId (head (map id (sessions s')))
      else activeSessionId s)) ∧
  ((∀ x, x ∈ sessions s → id x = sessionId) →
   s' = {| sessions := [createSession None fresh];
           activeSessionId := randomUUID fresh |}).
Proof.
  cbv zeta. unfold deleteSession.
  destruct (filter (λ x, id x ≠ sessionId) (sessions s)) as [|first rest] eqn:Hrem;
    cbn [sessions activeSessionId].
  - split; [done|]. split; [intros _; cbn; by left|]. split; [|done].
    intros (x & Hx & Hne).
    assert (Hin : x ∈ filter (λ x, id x ≠ sessionId) (sessions s))
      by (by apply list_elem_of_filter).
    rewrite Hrem in Hin. by apply elem_of_nil in Hin.
  - split; [done|]. split; [|split].
    + intros Hactive. destruct (decide (activeSessionId s = sessionId)) as [Heq|Hne].
      * cbn. by left.
      * apply list_elem_of_fmap in Hactive as (x & Hid & Hx).
        rewrite <- Hrem. apply list_elem_of_fmap. exists x. split; [done|].
        apply list_elem_of_filter. split; [congruence | done].
    + intros _. split; [done|]. split.
      * rewrite <- Hrem. intros Hin.
        apply list_elem_of_fmap in Hin as (x & Hid & Hx).
        apply list_elem_of_filter in Hx as [Hne _]. by apply Hne.
      * by destruct (decide (activeSessionId s = sessionId)).
    + intros Hall.
      assert (Hin : first ∈ filter (λ x, id x ≠ sessionId) (sessions s))
        by (rewrite Hrem; by left).
      apply list_elem_of_filter in Hin as [Hne Hin]. by apply Hall in Hin.
Qed.

(** X29.  [newSession] puts the new session first, leaves the others as
    they were and makes the new one active, under the given name or,
    for a name left out or empty, under ["Session "] followed by the
    time.  Deleting it again, when its id is not that of another
    session, gives back the list of sessions as it was, with the first
    of them active, whichever was active before. *)
Theorem newSession_then_delete (name' : option jsstring) (fresh fresh' : Fresh)
    (s : SessionsState) :
  let s1 := newSession name' fresh s in
  let s2 := deleteSession (randomUUID fresh) fresh' s1 in
  sessions s1 = createSession name' fresh :: sessions s ∧
  activeSession s1 = Some (createSession name' fresh) ∧
  (name (createSession name' fresh) = default [] name' ∨
   (default [] name' = [] ∧
    name (createSession name' fresh) = lit "Session " ++ timeString fresh)) ∧
  (randomUUID fresh ∉ map id (sessions s) → sessions s ≠ [] →
   sessions s2 = sessions s ∧
   Some (activeSessionId s2) = head (map id (sessions s))).
Proof.
  cbv zeta. split; [done|]. split; [|split].
  - unfold activeSession, newSession. cbn [sessions activeSessionId List.find].
    by rewrite bool_decide_eq_true_2.
  - destruct name' as [[|ch rest]|]; cbn; auto.
  - intros Hfresh Hne. unfold deleteSession, newSession.
    cbn [sessions activeSessionId].
    rewrite filter_cons_False by (intros Hid; by apply Hid).
    assert (Hall : filter (λ x, id x ≠ randomUUID fresh) (sessions s)
                   = sessions s).
    { clear Hne. induction (sessions s) as [|x l IH]; [done|].
      rewrite filter_cons_True, IH; [done| |].
      - intros Hin. apply Hfresh. cbn. by right.
      - intros Hid. apply Hfresh. cbn. rewrite Hid. by left. }
    rewrite Hall. destruct (sessions s) as [|first rest]; [done|].
    cbn [sessions activeSessionId]. split; [done|].
    by rewrite decide_True.
Qed.

Lemma newSession_then_delete_witness :
  sessions (deleteSession (lit "77aa") HistoryExamples.at_noon
              (newSession None HistoryExamples.later HistoryExamples.first_visit))
  = sessions HistoryExamples.first_visit.
Proof.
  destruct (newSession_then_delete None HistoryExamples.later
              HistoryExamples.at_noon HistoryExamples.first_visit)
    as (_ & _ & _ & Hback).
  destruct Hback as [Hsessions _].
  - cbn. intros Hin. apply list_elem_of_In in Hin. cbn in Hin.
    destruct Hin as [Heq|[]]. discriminate Heq.
  - discriminate.
  - exact Hsessions.
Defined.

End UseHistoryProps.
